(* ===== verification/_CoqProject ===== *)
-Q . S2P
Prelude.v
JsObject.v
JsKeys.v
JsString.v
Catalog.v
Client.v
ClientLoop.v
View.v
ModelPanel.v
QueryRun.v
EventSink.v
Cards.v
DebateRun.v
Page.v
Session.v
BackendClient.v
