(* ===== verification/Prelude.v ===== *)
(** * A verification development of askmodels' React client

    ** The program

    The repository's only source file under src/ is the React single-page
    client [src/ui_implementations/react_app/src/App.js].  It fans one
    question (Q&A mode) or one debate topic (debate mode) out to a set of
    model backends selected by the user, and renders the results that a
    server pushes back over a socket.io channel.  The server's orchestration
    core (query fan-out, debate round barrier, session registry) is described
    by spec.md but is not part of src/; the files that model it say so and
    mark their definitions as modelled from the spec.

    The client has these parts, and the development has one file per part:

    - [Prelude] (this file): the JS truthiness class [Truthy] with [js_or]
      (the [a || b] of the source), the generic lemmas on lists and folds the
      components share, the [askm] hint database and the tactics.
    - [JsObject]: plain JS objects with string keys, as insertion-ordered
      association lists ([obj V]); property read with the prototype chain
      of [Object.prototype], the computed-key update [{...o, [k]: v}]
      ([obj_set]) and the spread merge [{...a, ...b}] ([obj_spread]).  A
      refinement to stdpp's [gmap] ([obj_to_map]) and a setoid equivalence
      ([obj_equiv], same lookups) with its [Proper] instances.
    - [JsKeys]: the order in which [Object.keys] and [Object.entries]
      enumerate an object's own properties (array-index keys first, in
      ascending numeric order, then the others in creation order), with an
      executable array-index test and its decimal parse/print round trip.
    - [JsString]: [String.prototype.trim] on the 8-bit strings of the model
      and the emptiness test [!s.trim()] of the submit guards.
    - [Catalog]: the catalog entry [ModelInfo], the selection handlers
      [handleModelSelect], [handleSelectAll], [handleClearAll],
      [handleSelectDiverse] (proved equal to a reference "first model of
      each of the first three categories"), the [reduce] of
      [renderModelSelection] that groups models by category, and its
      TypeError on categories named like [Object.prototype] properties.
    - [Client]: the state of [App] (its fifteen [useState] hooks and the
      socket), the socket listeners, [loadModels], [handleSubmitQuery],
      [handleStartDebate], [handleCancelQuery], [handleCancelDebate]; each
      handler returns the new state and the effects it starts (a fetch, a
      socket emit), and an awaited fetch is a second function
      ([*_resume]) applied to the fetch's outcome.
    - [ClientLoop]: the event loop as an executable labelled step function
      on configurations (state, outstanding fetches, sent effects, crashed
      render): user actions are enabled as the render shows them, socket
      events arrive at any time, fetches settle in any order.  Invariants by
      rule induction over [reachable]; the races the loop allows are
      concrete traces evaluated by [vm_compute].
    - [View]: what the render functions compute from the state: the
      response cards, the debate progress bar, the rounds and statements
      shown.
    - [ModelPanel]: [renderModelSelection]: the category sections in
      [Object.entries] order with their counts, the model cards with their
      selected mark, the selection summary.
    - [QueryRun]: the server's query run, modelled from spec.md (3, 4.1,
      4.2, 5, 6): records with monotone statuses, [q_start], [q_resolve]
      with sticky cancellation, [q_cancel], the single completion event;
      the run's events translated to the client's socket events and fed
      to the client's listeners ([observe]).
    - [EventSink]: the server's event sink, modelled from spec.md (2, 9):
      ordered at-least-once delivery ([deliver]) and delivery ordered per
      record only ([per_record_delivery]), composed with the client's
      listeners.
    - [Cards]: the field rules of the server's records composed with the
      client's card rendering ([View.response_card]).
    - [DebateRun]: the server's debate orchestrator, modelled from spec.md
      (4.3, 5, 6): [d_start] with its configured limits, rounds dispatched
      with a prompt composed from the prior rounds' statements, results
      ([d_resolve]), the barrier ([d_advance]), [d_cancel]; its progress
      events become the client's [debate_update] and [debate_complete]
      ([observe_debate]).
    - [Page]: the value [App] renders: navigation, error banner, loading
      message, the interface of the current mode (Q&A, debate with its
      live display, dashboard) and the footer, with the TypeErrors a
      render can throw.
    - [Session]: the session registry and the server's synchronous answers
      to the client's requests, modelled from spec.md (3, 4.4, 6, 7):
      [create_or_attach] with [SessionBusy], the cancellation flag,
      [handle_request], and [handle_effects] serving a client's effects in
      order.
    - [BackendClient]: the calls the query orchestrator makes on the
      backend capability of spec.md (4.1, 4.2): one [invoke(prompt, hint)]
      per backend of the set ([q_invocations]), [cancel()] on every
      invocation still processing ([q_cancel_calls]), and the server's
      answer to the client's [POST /api/query] ([serve_query]).

    The parts interact through the socket and HTTP: the server's
    [response_update], [query_complete], [debate_update] and
    [debate_complete] events are what [Client.on_event] consumes, the
    client's [Fetch] effects are what [Session.handle_request] answers, and
    the end-to-end theorems of [QueryRun], [Cards], [DebateRun] and
    [Session] compose the two sides.

    ** Modelling conventions

    - JS strings are [String.string] (8-bit characters): model names,
      categories and messages of the source are ASCII.
    - JS objects are association lists of their own properties in creation
      order, whose keys are pairwise distinct ([obj_wf]); the order in which
      they are enumerated is computed from it ([JsKeys.own_keys]: array
      indices first); the gmap abstraction forgets the order.
    - A React state setter with an updater [setX(prev => f prev)] is the
      function [f] applied to the field; a handler is a function on the
      whole state record, its awaited continuation a second function applied
      when the fetch resolves.

    ** What is proved

    - [JsObject], [JsString]: the type invariant (distinct keys) kept by
      every update, get/set laws, the spread merge refines the union of
      gmaps, assignments to different keys commute up to [obj_equiv],
      the two object literals of the listeners are idempotent;
      [trim] strips exactly the leading and trailing JS white space and
      [!s.trim()] holds of white-space-only strings.
    - [JsKeys]: [array_index k = Some n] exactly when [k] is the numeral
      of [n] below [2^32 - 1] (parse after print is the identity); the
      enumeration is a permutation of the keys, sorted on the index keys.
    - [Catalog]: the selection toggle, the reference equivalence of
      [handleSelectDiverse], the grouping of [reduce] and the exact
      condition of its TypeError.
    - [Client]: the functional behaviour of every handler on every branch
      (guards, the six-participant limit, errors of the fetch
      continuations), and what the response and debate listeners store
      after any stream of events.
    - [ClientLoop]: invariants of every reachable configuration (objects
      well formed, [loading] only while a load is outstanding, no duplicate
      selection) and the races the code allows (a stale [query_complete]
      ends a newer query, a late [response_update] after a cancel is
      shown, overlapping loads, the prototype-named category crash).
    - [View]: bounds of the progress bar, the rounds listed, the order of
      the cards (arrival order, except that a model named by an array index
      is listed first), the statuses that render a bare card.
    - [ModelPanel]: the sections partition the catalog: every model on
      exactly one card, in its category's section, with the right count.
    - [EventSink]: every listener is idempotent, so ordered at-least-once
      delivery leaves the client in the state of a single delivery; under
      per-record delivery the responses hold the same records.
    - [QueryRun]: termination of a run whose backends answer, completion
      emitted once and last, the exact effect of a cancel, and that the
      client's cards always show the server's records (a refinement of the
      server run by the client's view).
    - [Cards]: every card the client renders for a run is the card of the
      record's status (completed cards always have text and time).
    - [DebateRun]: the barrier invariant by induction over any sequence of
      results, barrier closings and cancels; the rounds the client lists
      are dispatched rounds shown with their RoundRecords, earlier ones
      closed and terminal; a debate whose participants all answer
      completes after exactly its rounds; the client's six-participant
      guard agrees with a server limit of six; a cancel's progress event
      brings back the display the client just cleared; whatever arrives, a
      debate of [n] rounds emits at most [n * |participants| + 1]
      [debate_update] events (a potential, records in flight plus
      participants times rounds left, drops with each of them).
    - [Page]: the page throws exactly when a panel [reduce] throws or the
      debate display maps a non-array [participants]; for the debate
      states the server's events build, exactly when the event loop's
      [render_throws] says so.
    - [Session]: [SessionBusy] leaves the registry unchanged and the client
      shows it; the client can start a debate while its query runs, which
      the server rejects.
    - [BackendClient]: the query [handleSubmitQuery] posts makes the
      server invoke every selected model once, with the question as typed
      and the question type as hint, each record processing; a cancel
      calls [cancel()] on exactly the invocations still processing, and a
      second cancel calls nothing.

    ** Bounds and fuel

    No definition uses fuel: every loop of the source is a [forEach],
    [filter], [map] or [reduce] over a finite array, modelled by structural
    recursion.  The event loop is a step function, and its theorems hold
    of every reachable configuration, whatever the number of steps.  The
    server's runs are step functions over any list of operations; their
    termination is stated as a bound on the events they emit
    ([DebateRun.debate_updates_bounded]).
    Numbers of the source that are JS doubles (times, rounds) are modelled
    on [Q]; none of them is subject to overflow in this program.

    ** Not modelled

    The JSX markup, CSS and constant text (the dashboard's fixed metrics
    and activity log); the socket.io transport and HTTP (modelled as
    effects, settled outcomes and events delivered by [EventSink]); what
    the model backends compute (opaque: the result of an invocation is the
    [Outcome] its resolve operation carries, arbitrary in every theorem;
    the calls themselves are modelled in [BackendClient]); the timeout hook of spec section 5, whose expiry behaves
    as a cancel or a failure of one invocation, both modelled; the text
    rendering of a prompt, kept as structured data.
*)

From stdpp Require Export base list strings gmap.

Declare Scope askm_scope.
Delimit Scope askm_scope with askm.
Open Scope askm_scope.

Create HintDb askm.

(** ** JS truthiness *)

(** The JS values the source tests with [!x] or [x || d]: the class says
    which of them are falsy. *)
Class Truthy (A : Type) := truthy : A -> bool.
#[global] Arguments truthy {_ _} !_ /.

(** [""] is the only falsy string. *)
#[global] Instance truthy_string : Truthy string := fun s =>
  match s with EmptyString => false | _ => true end.
#[global] Instance truthy_bool : Truthy bool := fun b => b.
(** [undefined] and [null] are [None]. *)
#[global] Instance truthy_option {A} `{Truthy A} : Truthy (option A) := fun o =>
  match o with Some x => truthy x | None => false end.
(** Arrays are objects: always truthy, even when empty. *)
#[global] Instance truthy_list {A} : Truthy (list A) := fun _ => true.

(** [a || d]: the first operand when it is truthy, else the second. *)
Definition js_or {A} `{Truthy A} (a d : A) : A := if truthy a then a else d.

Notation "a '||ₗ' d" := (js_or a d) (at level 50, left associativity) : askm_scope.

Lemma js_or_truthy {A} `{Truthy A} (a d : A) : truthy a = true -> (a ||ₗ d) = a.
Proof. unfold js_or. by intros ->. Qed.

Lemma js_or_falsy {A} `{Truthy A} (a d : A) : truthy a = false -> (a ||ₗ d) = d.
Proof. unfold js_or. by intros ->. Qed.

(** [o || d] on an optional value gives back a plain value. *)
Definition js_or_opt {A} `{Truthy A} (o : option A) (d : A) : A :=
  match o with Some x => x ||ₗ d | None => d end.

Lemma js_or_opt_truthy {A} `{Truthy A} (o : option A) d :
  truthy o = true -> ∃ x, o = Some x /\ js_or_opt o d = x.
Proof. destruct o as [x|]; simpl; [|done]. intros Hx. exists x. by rewrite js_or_truthy. Qed.

Lemma js_or_opt_falsy {A} `{Truthy A} (o : option A) d :
  truthy o = false -> js_or_opt o d = d.
Proof. destruct o; simpl; [apply js_or_falsy|done]. Qed.

(** ** Lists and folds *)

(** An invariant of the accumulator is kept by a left fold whose step keeps
    it; the workhorse of every [forEach]/[reduce] of the source. *)
Lemma fold_left_invariant {A B} (P : B -> Prop) (f : B -> A -> B) (l : list A) (b : B) :
  P b -> (∀ acc a, a ∈ l -> P acc -> P (f acc a)) -> P (fold_left f l b).
Proof.
  revert b. induction l as [|a l IH]; intros b Hb Hf; simpl; [done|].
  apply IH; [apply Hf; [left|]; done|].
  intros acc a' Ha'. apply Hf. by right.
Qed.

Lemma NoDup_snoc {A} (l : list A) (x : A) : NoDup (l ++ [x]) <-> NoDup l /\ x ∉ l.
Proof.
  rewrite NoDup_app. split.
  - intros (Hl & Hdis & _). split; [done|]. intros Hx. by apply (Hdis x Hx), list_elem_of_singleton.
  - intros [Hl Hx]. split; [done|]. split; [|apply NoDup_singleton].
    intros y Hy ->%list_elem_of_singleton. done.
Qed.

Lemma filter_all_true {A} (P : A -> Prop) `{∀ x, Decision (P x)} (l : list A) :
  (∀ x, x ∈ l -> P x) -> filter P l = l.
Proof.
  induction l as [|x l IH]; intros Hl; [done|].
  rewrite filter_cons_True by (apply Hl; left). rewrite IH; [done|]. intros y Hy. apply Hl. by right.
Qed.

Lemma filter_all_false {A} (P : A -> Prop) `{∀ x, Decision (P x)} (l : list A) :
  (∀ x, x ∈ l -> ¬ P x) -> filter P l = [].
Proof.
  induction l as [|x l IH]; intros Hl; [done|].
  rewrite filter_cons_False by (apply Hl; left). apply IH. intros y Hy. apply Hl. by right.
Qed.

(** The last element of a list whose elements all equal [a]: [a] when it
    occurs, nothing when the list is empty; how the last record about one
    key is found in a stream. *)
Lemma last_const {A} (l : list A) (a : A) : (∀ x, x ∈ l -> x = a) -> a ∈ l -> last l = Some a.
Proof.
  destruct l as [|x l _] using rev_ind; [by intros _ ?%elem_of_nil|].
  rewrite last_snoc. intros H _. f_equal. apply H, elem_of_app. right. by left.
Qed.

Lemma last_empty {A} (l : list A) : (∀ x, x ∉ l) -> last l = None.
Proof.
  destruct l as [|x l _] using rev_ind; [done|]. intros H. exfalso.
  apply (H x), elem_of_app. right. by left.
Qed.

(** The last value a partial map keeps of a list, transformed. *)
Lemma last_omap_fmap {A B C} (g : A -> option B) (h : B -> C) (l : list A) :
  last (omap (fun a => h <$> g a) l) = h <$> last (omap g l).
Proof.
  induction l as [|a l IH]; [done|].
  change (a :: l) with ([a] ++ l). rewrite !omap_app, !last_app, IH. csimpl.
  destruct (last (omap g l)); [done|]. by destruct (g a).
Qed.

Lemma omap_all_None {A B} (f : A -> option B) (l : list A) : (∀ x, f x = None) -> omap f l = [].
Proof. intros Hf. induction l as [|x l IH]; [done|]. simpl. by rewrite Hf. Qed.

Lemma remove_dups_id `{EqDecision A} (l : list A) : NoDup l -> remove_dups l = l.
Proof.
  induction l as [|x l IH]; [done|]. intros [Hx Hl]%NoDup_cons. simpl.
  destruct (decide_rel (∈) x l); [done|]. by rewrite IH.
Qed.

(** Two filters with disjoint predicates together list the elements of
    the filter of their disjunction. *)
Lemma filter_app_disjoint {A} (P Q : A -> Prop) `{∀ x, Decision (P x)} `{∀ x, Decision (Q x)} (l : list A) :
  (∀ x, P x -> Q x -> False) -> filter P l ++ filter Q l ≡ₚ filter (fun x => P x \/ Q x) l.
Proof.
  intros Hd. induction l as [|x l IH]; [done|]. rewrite !filter_cons.
  destruct (decide (P x)), (decide (Q x)); rewrite ?decide_True, ?decide_False by naive_solver;
    simpl; try rewrite <- Permutation_middle; rewrite ?IH; naive_solver.
Qed.

(** Grouping a list by the values [cs] of a key, distinct, lists the
    elements whose key is among them, each once. *)
Lemma concat_filter_groups `{EqDecision B} {A} (f : A -> B) (cs : list B) (l : list A) :
  NoDup cs -> concat ((fun c => filter (fun x => f x = c) l) <$> cs) ≡ₚ filter (fun x => f x ∈ cs) l.
Proof.
  induction 1 as [|c cs Hc Hnd IH]; simpl.
  - symmetry. apply reflexive_eq, filter_all_false. intros x _. apply not_elem_of_nil.
  - rewrite IH, filter_app_disjoint by (intros x -> ?; done).
    apply reflexive_eq, list_filter_iff. intros x. by rewrite elem_of_cons.
Qed.

#[export] Hint Resolve NoDup_nil_2 : askm.

(** ** Tactics *)

(** Case on every [decide] and boolean test in the goal, then close the
    easy cases. *)
Ltac askm_cases :=
  repeat (case_decide || case_match); simplify_eq/=; try done.

(** Invert a hypothesis and substitute. *)
Ltac invc H := inversion H; subst; clear H.

(** Membership in appended and consed lists, then propositional reasoning
    up to equalities; for the goals about [map] on lists that [set_solver]
    does not unfold. *)
Ltac elem_solver :=
  simpl in *; repeat progress rewrite ?elem_of_app, ?elem_of_cons, ?list_elem_of_singleton, ?elem_of_nil in *;
  intuition congruence.

(** Close a decidable proposition about concrete data by evaluation. *)
Ltac decide_by_eval := apply (bool_decide_unpack _); vm_compute; exact I.
