(* ===== verification/JsObject.v ===== *)
(** * Plain JS objects with string keys

    The React client keeps two JS objects in its state, [responses] (model
    name to the last [response_update] payload) and [debateState] (the
    shallow merge of every [debate_update] payload), and builds a third in
    [renderModelSelection] (category to models).  A JS object is modelled
    as the list of its own properties in creation order, from which
    [JsKeys] computes the order in which [Object.keys] and
    [Object.entries] enumerate them.

    - [obj_set o k v] is the assignment [o[k] = v]: the value changes in
      place when [k] is an own property, else [k] is appended.
    - [obj_copy], [obj_with] and [obj_spread] are the literals [{...a}],
      [{...a, [k]: v}] and [{...a, ...b}].
    - [obj_read] is the property read [o[k]], which falls back on the
      properties of [Object.prototype] when [k] is not an own property.

    The type invariant [obj_wf] (keys pairwise distinct) is kept by every
    operation; [obj_to_map] abstracts an object to a stdpp [gmap] and every
    operation refines the corresponding map operation; [obj_equiv]
    (same own properties, any order) is a setoid equivalence that the
    operations respect. *)

From S2P Require Import Prelude.

Abbreviation obj V := (list (string * V)).

Section JsObject.
Context {V : Type}.
Implicit Types (o a b : obj V) (k : string) (v : V).

(** ** Operations *)

Definition obj_keys o : list string := map fst o.

(** The own property [k] ([Object.hasOwn(o, k) ? o[k] : undefined]). *)
Fixpoint obj_get o k : option V :=
  match o with
  | [] => None
  | (k', v) :: o' => if decide (k' = k) then Some v else obj_get o' k
  end.

(** [o[k] = v]. *)
Fixpoint obj_set o k v : obj V :=
  match o with
  | [] => [(k, v)]
  | (k', v') :: o' => if decide (k' = k) then (k', v) :: o' else (k', v') :: obj_set o' k v
  end.

Definition obj_set_entry (acc : obj V) (kv : string * V) : obj V := obj_set acc kv.1 kv.2.

(** [{...a}]: the own properties of [a] assigned, in order, to [{}]. *)
Definition obj_copy a : obj V := fold_left obj_set_entry a [].

(** [{...a, [k]: v}]. *)
Definition obj_with a k v : obj V := obj_set (obj_copy a) k v.

(** [{...a, ...b}]. *)
Definition obj_spread a b : obj V := fold_left obj_set_entry b (obj_copy a).

(** The own properties are pairwise distinct. *)
Definition obj_wf o : Prop := NoDup (obj_keys o).

(** ** Property read through the prototype chain *)

(** The properties of [Object.prototype] that every object literal
    inherits; all of them are truthy (functions, and the [__proto__]
    accessor that returns [Object.prototype] itself). *)
Definition object_prototype_keys : list string :=
  ["constructor"; "__defineGetter__"; "__defineSetter__"; "hasOwnProperty";
   "__lookupGetter__"; "__lookupSetter__"; "isPrototypeOf";
   "propertyIsEnumerable"; "toString"; "valueOf"; "__proto__";
   "toLocaleString"]%string.

Inductive js_prop :=
  | Own (v : V)        (** an own property *)
  | Inherited          (** a (truthy, non-array) property of [Object.prototype] *)
  | Missing.           (** [undefined] *)

(** [o[k]]. *)
Definition obj_read o k : js_prop :=
  match obj_get o k with
  | Some v => Own v
  | None => if decide (k ∈ object_prototype_keys) then Inherited else Missing
  end.

(** ** The gmap abstraction and the setoid equivalence *)

Definition obj_to_map o : gmap string V := list_to_map o.

Definition obj_equiv a b : Prop := ∀ k, obj_get a k = obj_get b k.

End JsObject.

Arguments js_prop : clear implicits.
Arguments Missing {V}.
Arguments Inherited {V}.

Infix "≡ₒ" := obj_equiv (at level 70, no associativity) : askm_scope.

(** ** Laws *)

Section Laws.
Context {V : Type}.
Implicit Types (o a b : obj V) (k : string) (v : V).

Lemma obj_get_set o k k' v :
  obj_get (obj_set o k v) k' = if decide (k = k') then Some v else obj_get o k'.
Proof.
  induction o as [|[k0 v0] o IH]; simpl; [done|].
  destruct (decide (k0 = k)) as [->|Hne]; simpl.
  - by destruct (decide (k = k')).
  - rewrite IH. destruct (decide (k0 = k')), (decide (k = k')); congruence.
Qed.

Lemma obj_keys_set o k v :
  obj_keys (obj_set o k v) = if decide (k ∈ obj_keys o) then obj_keys o else obj_keys o ++ [k].
Proof.
  induction o as [|[k0 v0] o IH]; simpl; [done|].
  destruct (decide (k0 = k)) as [->|Hne]; simpl.
  - rewrite decide_True; [done|]. by left.
  - rewrite IH. destruct (decide (k ∈ obj_keys o)) as [Hin|Hin].
    + rewrite decide_True; [done|]. by right.
    + rewrite decide_False; [done|]. intros [ ->|]%elem_of_cons; done.
Qed.

(** Type invariant: assignment keeps the keys distinct. *)
Lemma obj_set_wf o k v : obj_wf o -> obj_wf (obj_set o k v).
Proof.
  unfold obj_wf. rewrite obj_keys_set. case_decide; [done|].
  intros. by apply NoDup_snoc.
Qed.

Lemma obj_get_Some_keys o k v : obj_get o k = Some v -> k ∈ obj_keys o.
Proof.
  induction o as [|[k0 v0] o IH]; simpl; [done|].
  case_decide; [subst; intros; by left|]. intros. right. by apply IH.
Qed.

Lemma obj_get_None_keys o k : obj_get o k = None <-> k ∉ obj_keys o.
Proof.
  induction o as [|[k0 v0] o IH]; simpl; [set_solver|].
  case_decide; subst; [set_solver|]. rewrite IH. set_solver.
Qed.

(** An assignment of an existing key with a new value is no change. *)
Lemma obj_set_get_same o k v : obj_wf o -> obj_get o k = Some v -> obj_set o k v = o.
Proof.
  unfold obj_wf. induction o as [|[k0 v0] o IH]; simpl; [done|].
  intros Hnd. apply NoDup_cons in Hnd as [Hk0 Hnd].
  case_decide; [by intros [= ->]|]. intros Hget. by rewrite IH.
Qed.

Lemma obj_set_set o k v1 v2 : obj_set (obj_set o k v1) k v2 = obj_set o k v2.
Proof.
  induction o as [|[k0 v0] o IH]; simpl; [by rewrite decide_True|].
  destruct (decide (k0 = k)); simpl; [by rewrite decide_True|]. by rewrite decide_False, IH.
Qed.

Lemma obj_fold_set_wf (l : obj V) o : obj_wf o -> obj_wf (fold_left obj_set_entry l o).
Proof.
  intros Ho. apply fold_left_invariant; [done|]. intros acc [k v] _. apply obj_set_wf.
Qed.

(** Setting the entries of [b], in order, onto [o]: when [b]'s keys are
    distinct, each key of [b] ends with [b]'s value, the others keep
    theirs. *)
Lemma obj_get_fold_set (b : obj V) o k :
  obj_wf b ->
  obj_get (fold_left obj_set_entry b o) k =
    match obj_get b k with Some v => Some v | None => obj_get o k end.
Proof.
  unfold obj_wf. revert o. induction b as [|[k0 v0] b IH]; intros o Hnd; simpl; [done|].
  apply NoDup_cons in Hnd as [Hk0 Hnd]. rewrite IH by done. unfold obj_set_entry; simpl.
  rewrite obj_get_set. destruct (decide (k0 = k)) as [->|]; [|done].
  by rewrite (proj2 (obj_get_None_keys b k)).
Qed.

Lemma obj_set_fresh o k v : k ∉ obj_keys o -> obj_set o k v = o ++ [(k, v)].
Proof.
  induction o as [|[k0 v0] o IH]; simpl; [done|].
  intros Hk. rewrite decide_False by set_solver. rewrite IH; [done|set_solver].
Qed.

Lemma obj_fold_set_fresh (b : obj V) acc :
  obj_wf b -> (∀ k, k ∈ obj_keys b -> k ∉ obj_keys acc) ->
  fold_left obj_set_entry b acc = acc ++ b.
Proof.
  unfold obj_wf. revert acc. induction b as [|[k v] b IH]; intros acc Hnd Hdis; simpl; [by rewrite app_nil_r|].
  apply NoDup_cons in Hnd as [Hk Hnd]. unfold obj_set_entry at 2; simpl.
  rewrite obj_set_fresh by (apply Hdis; by left).
  rewrite IH; [by rewrite <- app_assoc|done|].
  intros k' Hk'. unfold obj_keys. rewrite map_app. simpl. rewrite elem_of_app, list_elem_of_singleton.
  intros [Hin| ->]; [|done]. by apply (Hdis k'); [right|].
Qed.

(** [{...a}] of a well-formed object is the object itself. *)
Lemma obj_copy_id a : obj_wf a -> obj_copy a = a.
Proof. intros Hwf. unfold obj_copy. rewrite obj_fold_set_fresh; [done|done|set_solver]. Qed.

Lemma obj_copy_wf a : obj_wf (obj_copy a).
Proof. apply obj_fold_set_wf, NoDup_nil_2. Qed.

Lemma obj_with_wf a k v : obj_wf (obj_with a k v).
Proof. apply obj_set_wf, obj_copy_wf. Qed.

Lemma obj_spread_wf a b : obj_wf (obj_spread a b).
Proof. apply obj_fold_set_wf, obj_copy_wf. Qed.

Lemma obj_with_get a k k' v :
  obj_wf a -> obj_get (obj_with a k v) k' = if decide (k = k') then Some v else obj_get a k'.
Proof. intros Ha. unfold obj_with. by rewrite obj_copy_id, obj_get_set. Qed.

Lemma obj_spread_get a b k :
  obj_wf a -> obj_wf b ->
  obj_get (obj_spread a b) k = match obj_get b k with Some v => Some v | None => obj_get a k end.
Proof. intros Ha Hb. unfold obj_spread. by rewrite obj_copy_id, obj_get_fold_set. Qed.

(** Setting entries that the object already holds changes nothing. *)
Lemma obj_fold_set_noop (b : obj V) o :
  obj_wf o -> obj_wf b -> (∀ k v, obj_get b k = Some v -> obj_get o k = Some v) ->
  fold_left obj_set_entry b o = o.
Proof.
  unfold obj_wf at 2. intros Ho. induction b as [|[k0 v0] b IH]; intros Hnd Hin; simpl; [done|].
  apply NoDup_cons in Hnd as [Hk0 Hnd]. unfold obj_set_entry at 2; simpl.
  rewrite obj_set_get_same by (done || (apply Hin; simpl; by rewrite decide_True)).
  apply IH; [done|]. intros k v Hk. apply Hin. simpl. rewrite decide_False; [done|].
  intros ->. apply Hk0. by eapply obj_get_Some_keys.
Qed.

(** The two literals are idempotent: a repeated [{...prev, [k]: v}] or
    [{...prev, ...data}] is no change. *)
Lemma obj_with_idem a k v : obj_with (obj_with a k v) k v = obj_with a k v.
Proof.
  unfold obj_with at 1. rewrite obj_copy_id by apply obj_with_wf.
  apply obj_set_get_same; [apply obj_with_wf|]. unfold obj_with. by rewrite obj_get_set, decide_True.
Qed.

Lemma obj_spread_idem a b : obj_wf a -> obj_wf b -> obj_spread (obj_spread a b) b = obj_spread a b.
Proof.
  intros Ha Hb. unfold obj_spread at 1. rewrite obj_copy_id by apply obj_spread_wf.
  apply obj_fold_set_noop; [apply obj_spread_wf|done|]. intros k v Hk. by rewrite obj_spread_get, Hk.
Qed.

(** ** Refinement of gmap *)

Lemma lookup_obj_to_map o k : obj_to_map o !! k = obj_get o k.
Proof.
  unfold obj_to_map. induction o as [|[k0 v0] o IH]; simpl; [done|].
  rewrite lookup_insert. by case_decide.
Qed.

Lemma obj_to_map_set o k v : obj_to_map (obj_set o k v) = <[k:=v]> (obj_to_map o).
Proof.
  apply map_eq. intros k'. by rewrite lookup_insert, !lookup_obj_to_map, obj_get_set.
Qed.

Lemma obj_to_map_with a k v : obj_wf a -> obj_to_map (obj_with a k v) = <[k:=v]> (obj_to_map a).
Proof. intros Ha. unfold obj_with. by rewrite obj_copy_id, obj_to_map_set. Qed.


(** ** The setoid of objects up to property order *)

#[global] Instance obj_equiv_equivalence : Equivalence (@obj_equiv V).
Proof.
  split; [by intros ? k|intros a b H k; by rewrite H|intros a b c H1 H2 k; by rewrite H1, H2].
Qed.

Lemma obj_equiv_map a b : a ≡ₒ b <-> obj_to_map a = obj_to_map b.
Proof.
  split.
  - intros H. apply map_eq. intros k. by rewrite !lookup_obj_to_map.
  - intros H k. by rewrite <- !lookup_obj_to_map, H.
Qed.

#[global] Instance obj_get_proper : Proper (obj_equiv ==> eq ==> eq) (@obj_get V).
Proof. intros a b H k ? <-. apply H. Qed.

#[global] Instance obj_set_proper : Proper (obj_equiv ==> eq ==> eq ==> obj_equiv) (@obj_set V).
Proof. intros a b H k ? <- v ? <- k'. by rewrite !obj_get_set, H. Qed.

#[global] Instance obj_to_map_proper : Proper (obj_equiv ==> eq) (@obj_to_map V).
Proof. intros a b H. by apply obj_equiv_map. Qed.

(** Assignments of two different keys commute up to property order. *)
Lemma obj_set_comm o k1 k2 v1 v2 :
  k1 ≠ k2 -> obj_set (obj_set o k1 v1) k2 v2 ≡ₒ obj_set (obj_set o k2 v2) k1 v1.
Proof.
  intros Hne k. rewrite !obj_get_set.
  destruct (decide (k2 = k)), (decide (k1 = k)); congruence.
Qed.

End Laws.

Lemma obj_wf_nil {V} : obj_wf (@nil (string * V)).
Proof. apply NoDup_nil_2. Qed.

#[export] Hint Resolve obj_set_wf obj_copy_wf obj_with_wf obj_spread_wf obj_wf_nil : askm.

(** ** Indexing a stream of records by a key

    [setX(prev => ({...prev, [key e]: e}))] applied to every record [e] of
    a stream: the object the listener of [response_update] builds. *)

Section Index.
Context {V : Type} (key : V -> string).

Definition obj_index (es : list V) (o : obj V) : obj V :=
  fold_left (fun acc e => obj_with acc (key e) e) es o.

Lemma obj_index_wf es o : obj_wf o -> obj_wf (obj_index es o).
Proof. intros Ho. unfold obj_index. apply fold_left_invariant; [done|]. intros. apply obj_with_wf. Qed.

(** The value under [k] is the last record of the stream with key [k],
    or the initial one when the stream has none. *)
Lemma obj_index_get es o k :
  obj_wf o ->
  obj_get (obj_index es o) k =
    match last (filter (fun e => key e = k) es) with Some e => Some e | None => obj_get o k end.
Proof.
  unfold obj_index. revert o. induction es as [|e es IH]; intros o Ho; simpl; [done|].
  rewrite IH by apply obj_with_wf. rewrite obj_with_get by done.
  destruct (decide (key e = k)) as [He|He].
  - rewrite filter_cons_True, last_cons by done. by destruct (last _).
  - rewrite filter_cons_False by done. done.
Qed.

End Index.

(** ** Witnesses *)


