(* ===== verification/JsKeys.v ===== *)
(** * The order of an object's own property keys

    [Object.keys], [Object.entries] and the spread copy enumerate the own
    properties of an ordinary object in the order of the abstract
    operation OrdinaryOwnPropertyKeys: first the keys that are array
    indices, in ascending numeric order, then the other string keys in
    the order they were created.  An array index is a canonical numeric
    string ("0", "7", "42", never "07" or "-1") whose value is below
    [2^32 - 1].

    [JsObject] keeps an object as the list of its properties in creation
    order; [own_keys] computes the enumeration order from it and
    [obj_entries] is [Object.entries].  The decimal parser
    [decimal_go] makes [array_index] executable; its round trip with
    stdpp's [pretty] on [N] shows that [array_index k = Some n] exactly
    when [k] is the decimal numeral of [n] and [n] is in range.

    The client enumerates [responses] (the response cards) and
    [categorizedModels] (the category sections) with [Object.entries]:
    model or category names that are array indices are shown first. *)

From S2P Require Import Prelude JsObject.
From stdpp Require Import pretty sorting.
From Stdlib Require Import Ascii.

(** ** Array indices *)

(** The value of a decimal digit, from its character code ('0' is 48). *)
Definition digit_value (c : ascii) : option N :=
  let code := N_of_ascii c in
  if decide (48 <= code < 58)%N then Some (code - 48)%N else None.

(** The value of a string of decimal digits, read left to right. *)
Fixpoint decimal_go (s : string) (acc : N) : option N :=
  match s with
  | EmptyString => Some acc
  | String c s' => d ← digit_value c; decimal_go s' (acc * 10 + d)%N
  end.

(** [2^32 - 1]: array indices are below it. *)
Definition max_array_index : N := 4294967295.

(** The numeric value of [k] when [k] is an array index. *)
Definition array_index (k : string) : option N :=
  n ← decimal_go k 0;
  if decide (pretty n = k /\ (n < max_array_index)%N) then Some n else None.

(** ** The enumeration order *)

Definition index_le (a b : N * string) : Prop := (a.1 <= b.1)%N.

#[global] Instance index_le_dec : RelDecision index_le.
Proof. intros a b. unfold index_le. apply _. Defined.

(** OrdinaryOwnPropertyKeys on the keys in creation order. *)
Definition own_keys (ks : list string) : list string :=
  (snd <$> merge_sort index_le (omap (fun k => (fun n => (n, k)) <$> array_index k) ks)) ++
  filter (fun k => array_index k = None) ks.

Section Entries.
Context {V : Type}.
Implicit Types (o : obj V).

(** [Object.entries(o)]. *)
Definition obj_entries o : list (string * V) :=
  omap (fun k => pair k <$> obj_get o k) (own_keys (obj_keys o)).

End Entries.

(** ** The decimal round trip *)

Lemma string_app_cons c (s1 s2 : string) : String c s1 +:+ s2 = String c (s1 +:+ s2).
Proof. done. Qed.

Lemma string_app_assoc (s1 s2 s3 : string) : (s1 +:+ s2) +:+ s3 = s1 +:+ (s2 +:+ s3).
Proof. induction s1 as [|c s1 IH]; [done|]. by rewrite !string_app_cons, IH. Qed.

Lemma decimal_go_app s1 s2 acc : decimal_go (s1 +:+ s2) acc = decimal_go s1 acc ≫= decimal_go s2.
Proof.
  revert acc. induction s1 as [|c s1 IH]; intros acc; [done|]. rewrite string_app_cons. simpl.
  destruct (digit_value c); simpl; [apply IH|done].
Qed.

Lemma digit_value_pretty d : (d < 10)%N -> digit_value (pretty_N_char d) = Some d.
Proof.
  intros Hd. assert (d = 0 \/ d = 1 \/ d = 2 \/ d = 3 \/ d = 4 \/ d = 5 \/ d = 6 \/ d = 7 \/ d = 8 \/ d = 9)%N
    as Hcases by lia.
  by repeat destruct Hcases as [->|Hcases]; [..|subst].
Qed.

Lemma pretty_N_go_app x s : pretty_N_go x s = pretty_N_go x "" +:+ s.
Proof.
  revert s. induction (N.lt_wf_0 x) as [x _ IH]; intros s.
  destruct (decide (x = 0%N)) as [->|Hx]; [done|].
  assert (Hlt : (x `div` 10 < x)%N) by (apply N.div_lt; lia).
  rewrite !(pretty_N_go_step x) by lia.
  rewrite (IH _ Hlt), (IH _ Hlt (String _ "")). by rewrite string_app_assoc.
Qed.

Lemma decimal_go_pretty_N x : decimal_go (pretty_N_go x "") 0 = Some x.
Proof.
  induction (N.lt_wf_0 x) as [x _ IH].
  destruct (decide (x = 0%N)) as [->|Hx]; [done|].
  rewrite pretty_N_go_step, pretty_N_go_app, decimal_go_app by lia.
  rewrite IH by (apply N.div_lt; lia). simpl.
  rewrite digit_value_pretty by (apply N.mod_lt; lia). simpl.
  f_equal. pose proof (N.div_mod x 10). lia.
Qed.

(** Parsing the numeral of [n] gives [n] back. *)
Lemma decimal_go_pretty n : decimal_go (pretty n) 0 = Some n.
Proof.
  unfold pretty, pretty_N. case_decide as Hn; [by subst|]. apply decimal_go_pretty_N.
Qed.

(** The round trip: [k] is an array index of value [n] exactly when it is
    the numeral of [n] and [n] is below [2^32 - 1]. *)
Lemma array_index_spec k n : array_index k = Some n <-> k = pretty n /\ (n < max_array_index)%N.
Proof.
  unfold array_index. split.
  - destruct (decimal_go k 0) as [m|]; simpl; [|done]. case_decide; [|done].
    intros [= <-]. naive_solver.
  - intros [-> Hn]. rewrite decimal_go_pretty. simpl. by rewrite decide_True.
Qed.

Lemma array_index_pretty n : (n < max_array_index)%N -> array_index (pretty n) = Some n.
Proof. intros Hn. by apply array_index_spec. Qed.

(** ** The enumeration order *)

Implicit Types (ks : list string) (k : string) (n : N).

#[global] Instance index_le_total : Total index_le.
Proof. intros a b. unfold index_le. lia. Qed.

#[global] Instance index_le_trans : Transitive index_le.
Proof. intros a b c. unfold index_le. lia. Qed.

Lemma omap_index_snd ks :
  snd <$> omap (fun k => (fun n => (n, k)) <$> array_index k) ks = filter (fun k => is_Some (array_index k)) ks.
Proof.
  induction ks as [|k ks IH]; simpl; [done|].
  destruct (array_index k) eqn:E; simpl.
  - rewrite filter_cons_True by (rewrite E; eauto). simpl. f_equal. exact IH.
  - rewrite filter_cons_False by (rewrite E; apply is_Some_None). exact IH.
Qed.

(** The enumeration lists every own key once. *)
Lemma own_keys_Permutation ks : own_keys ks ≡ₚ ks.
Proof.
  unfold own_keys. rewrite (merge_sort_Permutation index_le _). rewrite omap_index_snd.
  rewrite <- (filter_app_complement (fun k => is_Some (array_index k)) ks) at 3.
  f_equiv. apply reflexive_eq, list_filter_iff. intros k. rewrite <- not_eq_None_Some. destruct (array_index k); naive_solver.
Qed.

Lemma omap_index_none ks :
  Forall (fun k => array_index k = None) ks -> omap (fun k => (fun n => (n, k)) <$> array_index k) ks = [].
Proof. induction 1 as [|k ks Hk _ IH]; simpl; [done|]. by rewrite Hk. Qed.

(** An object without array-index keys is enumerated in creation order. *)
Lemma own_keys_no_index ks : Forall (fun k => array_index k = None) ks -> own_keys ks = ks.
Proof.
  intros Hks. unfold own_keys. rewrite omap_index_none by done. simpl.
  apply filter_all_true. intros k Hk. by apply (proj1 (Forall_forall _ _) Hks).
Qed.

(** A new key that is not an array index is enumerated last. *)
Lemma own_keys_snoc_string ks k : array_index k = None -> own_keys (ks ++ [k]) = own_keys ks ++ [k].
Proof.
  intros Hk. unfold own_keys. rewrite omap_app, filter_app. simpl. rewrite Hk, app_nil_r.
  rewrite filter_cons_True by done. simpl. by rewrite app_assoc.
Qed.

(** A new array-index key added to an object whose keys are not array
    indices is enumerated first. *)
Lemma own_keys_snoc_index ks k n :
  Forall (fun k => array_index k = None) ks -> array_index k = Some n -> own_keys (ks ++ [k]) = k :: ks.
Proof.
  intros Hks Hk. unfold own_keys. rewrite omap_app, filter_app, omap_index_none by done. simpl.
  rewrite Hk. simpl. rewrite filter_cons_False by (by rewrite Hk). rewrite app_nil_r.
  by rewrite (filter_all_true _ ks) by (intros k' Hk'; by apply (proj1 (Forall_forall _ _) Hks)).
Qed.

(** The array-index keys come first, in ascending numeric order. *)
Lemma own_keys_sorted ks :
  ∃ ixs, own_keys ks = (snd <$> ixs) ++ filter (fun k => array_index k = None) ks /\
    StronglySorted index_le ixs /\ Forall (fun nk => array_index nk.2 = Some nk.1) ixs.
Proof.
  eexists. split; [done|]. split; [apply StronglySorted_merge_sort; apply _|].
  rewrite (merge_sort_Permutation index_le). apply Forall_forall. intros [n k].
  rewrite list_elem_of_omap. intros (k' & _ & Hk'). destruct (array_index k') eqn:E; simplify_eq/=. done.
Qed.

Section EntriesLaws.
Context {V : Type}.
Implicit Types (o : obj V).

(** [Object.entries(o)] lists the own keys in enumeration order. *)
Lemma obj_entries_keys o : fst <$> obj_entries o = own_keys (obj_keys o).
Proof.
  unfold obj_entries. assert (Hsub : ∀ k, k ∈ own_keys (obj_keys o) -> k ∈ obj_keys o)
    by (intros k; by rewrite own_keys_Permutation).
  induction (own_keys (obj_keys o)) as [|k ks IH]; simpl; [done|].
  destruct (obj_get o k) eqn:E; simpl.
  - f_equal. apply IH. intros k' Hk'. apply Hsub. by right.
  - exfalso. apply obj_get_None_keys in E. apply E, Hsub. by left.
Qed.

Lemma obj_entries_get o k v : (k, v) ∈ obj_entries o <-> obj_get o k = Some v.
Proof.
  unfold obj_entries. rewrite list_elem_of_omap. split.
  - intros (k' & _ & Hk'). destruct (obj_get o k') eqn:E; simplify_eq/=. done.
  - intros Hk. exists k. rewrite Hk. split; [|done]. rewrite own_keys_Permutation.
    by eapply obj_get_Some_keys.
Qed.

End EntriesLaws.
