(* ===== verification/JsString.v ===== *)
(** * [String.prototype.trim] and the blank-input guards

    [handleSubmitQuery] and [handleStartDebate] return early on
    [!question.trim()] and [!debateTopic.trim()], and the submit buttons are
    disabled on the same test.  [trim] removes the leading and trailing
    white space of a string; on the 8-bit characters of the model the JS
    white space and line terminators are TAB, LF, VT, FF, CR, SPACE and
    NO-BREAK SPACE (0xA0).  The theorems characterise [trim] (the string
    is the trimmed one between two runs of white space, and the trimmed
    one neither starts nor ends with white space), prove it idempotent and
    show that the guard [!s.trim()] holds exactly of the strings made of
    white space only. *)

From S2P Require Import Prelude.
From Stdlib Require Import Ascii String.

Module JsString.

Definition js_space_chars : list ascii :=
  ["009"; "010"; "011"; "012"; "013"; " "; "160"]%char.

Definition js_space (c : ascii) : bool := bool_decide (c ∈ js_space_chars).

(** Drop the white space at the front. *)
Fixpoint drop_space (l : list ascii) : list ascii :=
  match l with
  | [] => []
  | c :: l' => if js_space c then drop_space l' else l
  end.

Definition trim_chars (l : list ascii) : list ascii := rev (drop_space (rev (drop_space l))).

(** [s.trim()]. *)
Definition trim (s : string) : string :=
  string_of_list_ascii (trim_chars (list_ascii_of_string s)).

(** [!s.trim()]: the trimmed string is the falsy [""]. *)
Definition blank (s : string) : bool := negb (truthy (trim s)).

Definition all_space (l : list ascii) : Prop := Forall (fun c => js_space c = true) l.

(** Neither end is white space. *)
Definition trimmed (l : list ascii) : Prop :=
  (∀ c, head l = Some c -> js_space c = false) /\ (∀ c, last l = Some c -> js_space c = false).

(** ** Lemmas *)

Lemma drop_space_spec l :
  ∃ p, l = p ++ drop_space l /\ all_space p /\ ∀ c, head (drop_space l) = Some c -> js_space c = false.
Proof.
  induction l as [|c l (p & Hl & Hp & Hh)]; simpl.
  - exists []. repeat split; [constructor|done].
  - destruct (js_space c) eqn:Hc.
    + exists (c :: p). split; [simpl; by f_equal|]. split; [by constructor|done].
    + exists []. split; [done|]. split; [constructor|]. simpl. by intros ? [= <-].
Qed.

Lemma drop_space_all l : all_space l -> drop_space l = [].
Proof. induction 1 as [|c l Hc _ IH]; simpl; [done|]. by rewrite Hc. Qed.

Lemma drop_space_head l : (∀ c, head l = Some c -> js_space c = false) -> drop_space l = l.
Proof. destruct l as [|c l]; simpl; [done|]. intros H. by rewrite (H c). Qed.

Lemma head_rev {A} (l : list A) : head (rev l) = last l.
Proof.
  induction l as [|x l IH] using rev_ind; [done|]. by rewrite rev_unit, last_snoc.
Qed.

Lemma all_space_rev l : all_space l -> all_space (rev l).
Proof. unfold all_space. intros H. by apply Forall_rev. Qed.

(** ** Theorems *)

Lemma trim_chars_spec l :
  ∃ p q, l = p ++ trim_chars l ++ q /\ all_space p /\ all_space q /\ trimmed (trim_chars l).
Proof.
  destruct (drop_space_spec l) as (p & Hl & Hp & Hh).
  set (m := drop_space l) in *.
  destruct (drop_space_spec (rev m)) as (q & Hm & Hq & Hh').
  unfold trim_chars. fold m. set (r := drop_space (rev m)) in *.
  assert (Hm' : m = rev r ++ rev q) by (rewrite <- rev_app_distr, <- Hm; by rewrite rev_involutive).
  exists p, (rev q). split; [by rewrite Hl, Hm' at 1|]. split; [done|]. split; [by apply all_space_rev|].
  split.
  - intros c Hc. apply Hh. rewrite Hm'. destruct (rev r); [done|]. done.
  - intros c Hc. apply Hh'. by rewrite <- head_rev, rev_involutive in Hc.
Qed.

Lemma trimmed_trim_chars l : trimmed l -> trim_chars l = l.
Proof.
  intros [Hh Hl]. unfold trim_chars. rewrite (drop_space_head l Hh).
  rewrite drop_space_head; [apply rev_involutive|]. intros c. rewrite head_rev. apply Hl.
Qed.

(** [s.trim()] is [s] without a leading and a trailing run of white space,
    and it starts and ends with a character that is not white space. *)
Theorem trim_spec s :
  ∃ p q, list_ascii_of_string s = p ++ list_ascii_of_string (trim s) ++ q /\
         all_space p /\ all_space q /\ trimmed (list_ascii_of_string (trim s)).
Proof. unfold trim. rewrite list_ascii_of_string_of_list_ascii. apply trim_chars_spec. Qed.

Theorem trim_idempotent s : trim (trim s) = trim s.
Proof.
  unfold trim. rewrite list_ascii_of_string_of_list_ascii. f_equal.
  apply trimmed_trim_chars. by destruct (trim_chars_spec (list_ascii_of_string s)) as (? & ? & _ & _ & _ & ?).
Qed.

Lemma trim_empty_iff s : trim s = EmptyString <-> all_space (list_ascii_of_string s).
Proof.
  split.
  - intros Ht. destruct (trim_chars_spec (list_ascii_of_string s)) as (p & q & Hs & Hp & Hq & _).
    unfold trim in Ht. apply (f_equal list_ascii_of_string) in Ht.
    rewrite list_ascii_of_string_of_list_ascii in Ht. rewrite Ht in Hs. simpl in Hs.
    rewrite Hs. unfold all_space. by apply Forall_app.
  - intros Hall. unfold trim, trim_chars. rewrite (drop_space_all _ Hall). reflexivity.
Qed.

(** C18: The guard [!s.trim()] holds exactly of the strings that are empty or
    made of white space only. *)
Theorem blank_iff s : blank s = true <-> all_space (list_ascii_of_string s).
Proof.
  rewrite <- trim_empty_iff. unfold blank.
  destruct (trim s); simpl; split; done.
Qed.

End JsString.
