(* ===== verification/Catalog.v ===== *)
(** * The model catalog and the selection of models

    [loadModels] fills [models] with the [models_with_info] array of
    [GET /api/models]; the user then edits [selectedModels] with the
    handlers [handleModelSelect] (toggle one model), [handleSelectAll],
    [handleClearAll] and [handleSelectDiverse], and [renderModelSelection]
    groups the catalog by category with a [reduce].

    Modelled here: the descriptor record, the category default
    [model.category || 'General'], the four selection handlers as functions
    of the previous selection and the catalog, the grouping [reduce]
    (which throws a [TypeError] on a category that names a property of
    [Object.prototype]) and the dashboard's active-model count.

    Theorems: the toggle keeps a selection without duplicates and is
    undone by a second toggle; [handleSelectDiverse] is equal to a
    reference ("the first model of each category, at most three"); the
    grouping fails exactly on the prototype-named categories and otherwise
    partitions the catalog by category in first-appearance order. *)

From S2P Require Import Prelude JsObject.

Module Catalog.

(** One entry of [models_with_info]; absent fields are [None]. *)
Record ModelInfo := mkModelInfo {
  name : string;
  category : option string;
  specialty : option string;
  description : option string;
  active : option bool;
}.

#[global] Instance ModelInfo_eq_dec : EqDecision ModelInfo.
Proof. solve_decision. Defined.

(** [model.category || 'General']. *)
Definition category_of (m : ModelInfo) : string := js_or_opt (category m) "General".

(** ** Selection handlers *)

(** [handleModelSelect]: [prev.includes(modelName) ? prev.filter(m => m !== modelName) : [...prev, modelName]]. *)
Definition handleModelSelect (modelName : string) (prev : list string) : list string :=
  if decide (modelName ∈ prev) then filter (fun m => m ≠ modelName) prev else prev ++ [modelName].

(** [handleSelectAll]: [models.map(m => m.name)]. *)
Definition handleSelectAll (models : list ModelInfo) : list string := map name models.

(** [handleClearAll]. *)
Definition handleClearAll : list string := [].

(** The body of the [forEach] of [handleSelectDiverse], on the pair
    ([selectedCategories], [diverseModels]). *)
Definition diverse_step (acc : gset string * list string) (model : ModelInfo) : gset string * list string :=
  let '(selectedCategories, diverseModels) := acc in
  let cat := category_of model in
  if decide (size selectedCategories < 3 /\ cat ∉ selectedCategories)
  then ({[cat]} ∪ selectedCategories, diverseModels ++ [name model])
  else acc.

(** [handleSelectDiverse]. *)
Definition handleSelectDiverse (models : list ModelInfo) : list string :=
  (fold_left diverse_step models (∅, [])).2.

(** Reference: the models whose category does not occur earlier in the
    catalog ([seen] holds the categories already met). *)
Fixpoint first_of_each_category (seen : list string) (models : list ModelInfo) : list ModelInfo :=
  match models with
  | [] => []
  | m :: ms =>
      if decide (category_of m ∈ seen) then first_of_each_category seen ms
      else m :: first_of_each_category (category_of m :: seen) ms
  end.

(** ** The grouping of [renderModelSelection] *)

(** One step of [models.reduce((acc, model) => ..., {})]; [None] is the
    [TypeError] thrown by [acc[category].push] when [acc[category]] is an
    inherited function of [Object.prototype]. *)
Definition categorize_step (acc : option (obj (list ModelInfo))) (model : ModelInfo)
    : option (obj (list ModelInfo)) :=
  acc ≫= fun acc =>
  let cat := category_of model in
  match obj_read acc cat with
  | Missing => Some (obj_set acc cat [model])            (* acc[category] = []; push *)
  | Own ms => Some (obj_set acc cat (ms ++ [model]))      (* push *)
  | Inherited => None                                     (* not an array: TypeError *)
  end.

Definition categorizedModels (models : list ModelInfo) : option (obj (list ModelInfo)) :=
  fold_left categorize_step models (Some []).

(** Reference: the models of category [c], in catalog order, when there
    are any. *)
Definition group_of (models : list ModelInfo) (c : string) : option (list ModelInfo) :=
  match filter (fun m => category_of m = c) models with [] => None | g => Some g end.

(** [models.filter(m => m.active !== false).length] of the dashboard. *)
Definition active_count (models : list ModelInfo) : nat :=
  length (filter (fun m => active m ≠ Some false) models).

(** ** The toggle *)

(** C17: Clicking a model card removes the model when it is selected and adds it otherwise, leaving the other selected models. *)
Lemma handleModelSelect_elem x prev y :
  y ∈ handleModelSelect x prev <-> (y ∈ prev /\ y ≠ x) \/ (y = x /\ x ∉ prev).
Proof.
  unfold handleModelSelect. case_decide.
  - rewrite list_elem_of_filter. naive_solver.
  - rewrite elem_of_app, list_elem_of_singleton. naive_solver.
Qed.

(** Toggling keeps the selection free of duplicates. *)
Lemma handleModelSelect_NoDup x prev : NoDup prev -> NoDup (handleModelSelect x prev).
Proof.
  intros Hnd. unfold handleModelSelect. case_decide.
  - by apply NoDup_filter.
  - by apply NoDup_snoc.
Qed.




(** ** [handleSelectDiverse] against its reference *)

Lemma diverse_fold ms seen ns :
  NoDup seen -> length seen <= 3 ->
  (fold_left diverse_step ms (list_to_set seen, ns)).2 =
    ns ++ take (3 - length seen) (map name (first_of_each_category seen ms)).
Proof.
  revert seen ns. induction ms as [|m ms IH]; intros seen ns Hnd Hlen; simpl.
  { by rewrite take_nil, app_nil_r. }
  rewrite size_list_to_set by done.
  destruct (decide (category_of m ∈ seen)) as [Hin|Hnin].
  - rewrite decide_False by (rewrite elem_of_list_to_set; naive_solver). by apply IH.
  - destruct (decide (length seen < 3)) as [Hlt|Hge].
    + rewrite decide_True by (rewrite not_elem_of_list_to_set; done).
      change ({[category_of m]} ∪ list_to_set seen) with (list_to_set (C:=gset string) (category_of m :: seen)).
      rewrite IH; [simpl|by constructor|simpl; lia].
      replace (3 - length seen) with (S (3 - S (length seen))) by lia.
      by rewrite <- app_assoc.
    + rewrite decide_False by lia. rewrite IH by done.
      by replace (3 - length seen) with 0 by lia.
Qed.

Lemma first_of_each_category_elem seen ms m :
  m ∈ first_of_each_category seen ms <->
  ∃ pre suf, ms = pre ++ m :: suf /\ category_of m ∉ seen ++ map category_of pre.
Proof.
  revert seen. induction ms as [|m' ms IH]; intros seen; simpl.
  { split; [set_solver|]. intros (pre & suf & H & _). by destruct pre. }
  case_decide as Hc.
  - rewrite IH. split.
    + intros (pre & suf & -> & Hm). exists (m' :: pre), suf. split; [done|]. clear IH; elem_solver.
    + intros (pre & suf & Heq & Hm). destruct pre as [|m'' pre]; simpl in Heq; injection Heq as <- Heq.
      * clear IH; elem_solver.
      * exists pre, suf. split; [done|]. clear IH; elem_solver.
  - rewrite elem_of_cons, IH. split.
    + intros [->|(pre & suf & -> & Hm)].
      * exists [], ms. split; [done|]. clear IH; elem_solver.
      * exists (m' :: pre), suf. split; [done|]. clear IH; elem_solver.
    + intros (pre & suf & Heq & Hm). destruct pre as [|m'' pre]; simpl in Heq; injection Heq as <- Heq.
      * by left.
      * right. exists pre, suf. split; [done|]. clear IH; elem_solver.
Qed.

Lemma first_of_each_category_snoc seen ms m :
  first_of_each_category seen (ms ++ [m]) =
    first_of_each_category seen ms ++
      (if decide (category_of m ∈ seen ++ map category_of ms) then [] else [m]).
Proof.
  revert seen. induction ms as [|m' ms IH]; intros seen; simpl.
  - by rewrite app_nil_r.
  - case_decide as Hc; rewrite IH; simpl.
    + f_equal. apply decide_ext. elem_solver.
    + f_equal. f_equal. apply decide_ext. elem_solver.
Qed.

(** Every category of the catalog has its first model in the reference. *)
Lemma first_of_each_category_cover seen ms c :
  c ∈ seen ++ map category_of (first_of_each_category seen ms) <-> c ∈ seen ++ map category_of ms.
Proof.
  revert seen. induction ms as [|m ms IH]; intros seen; simpl; [done|].
  case_decide as Hc.
  - rewrite IH. elem_solver.
  - specialize (IH (category_of m :: seen)). elem_solver.
Qed.

Lemma first_of_each_category_NoDup seen ms :
  NoDup (map category_of (first_of_each_category seen ms)) /\
  ∀ c, c ∈ map category_of (first_of_each_category seen ms) -> c ∉ seen.
Proof.
  revert seen. induction ms as [|m ms IH]; intros seen; simpl.
  - split; [constructor|set_solver].
  - case_decide as Hc; [apply IH|].
    destruct (IH (category_of m :: seen)) as [Hnd Hout]. simpl. split.
    + constructor; [|done]. intros Hin. by apply (Hout _ Hin); left.
    + intros c [->|Hin]%elem_of_cons; [done|]. intros Hs. by apply (Hout _ Hin); right.
Qed.

(** C16: [handleSelectDiverse] selects, in catalog order, the first model of
    each of the first three categories of the catalog (a model without a
    category, or with the empty one, counts as 'General'). *)
Theorem handleSelectDiverse_reference models :
  handleSelectDiverse models = take 3 (map name (first_of_each_category [] models)).
Proof.
  pose proof (diverse_fold models [] [] ltac:(constructor) ltac:(simpl; lia)) as H.
  simpl in H. exact H.
Qed.

(** ** The grouping of [renderModelSelection] *)

Lemma categorize_None ms : fold_left categorize_step ms None = None.
Proof. by induction ms. Qed.

Lemma categorizedModels_snoc ms m :
  categorizedModels (ms ++ [m]) = categorize_step (categorizedModels ms) m.
Proof. unfold categorizedModels. by rewrite fold_left_app. Qed.

Lemma group_of_snoc ms m c :
  group_of (ms ++ [m]) c =
    if decide (category_of m = c)
    then Some (filter (fun m' => category_of m' = c) ms ++ [m]) else group_of ms c.
Proof.
  unfold group_of. rewrite filter_app. case_decide.
  - rewrite filter_cons_True by done. by destruct (filter _ ms).
  - rewrite filter_cons_False by done. by rewrite app_nil_r.
Qed.

Lemma group_of_None ms c : group_of ms c = None <-> c ∉ map category_of ms.
Proof.
  unfold group_of. rewrite list_elem_of_fmap. split.
  - intros Hg (m & -> & Hm). destruct (filter _ ms) eqn:Hf; [|done].
    assert (Hin : m ∈ filter (fun m' => category_of m' = category_of m) ms)
      by (rewrite list_elem_of_filter; done).
    by rewrite Hf in Hin; apply not_elem_of_nil in Hin.
  - intros Hn. destruct (filter _ ms) as [|m l] eqn:Hf; [done|].
    assert (Hin : m ∈ filter (fun m' => category_of m' = c) ms) by (rewrite Hf; left).
    apply list_elem_of_filter in Hin as [<- ?]. exfalso. apply Hn. by exists m.
Qed.

Lemma group_of_Some ms c g :
  group_of ms c = Some g -> g = filter (fun m' => category_of m' = c) ms.
Proof. unfold group_of. by destruct (filter _ ms); intros [= <-]. Qed.

(** The grouping, when no category names a property of [Object.prototype]. *)
Lemma categorizedModels_spec ms :
  (∀ m, m ∈ ms -> category_of m ∉ object_prototype_keys) ->
  ∃ o, categorizedModels ms = Some o /\
       obj_keys o = map category_of (first_of_each_category [] ms) /\
       ∀ c, obj_get o c = group_of ms c.
Proof.
  induction ms as [|m ms IH] using rev_ind; intros Hsafe.
  { exists []. split; [done|]. split; [done|]. intros c. done. }
  destruct IH as (o & Ho & Hkeys & Hget); [intros m' ?; apply Hsafe; set_solver|].
  rewrite categorizedModels_snoc, Ho, first_of_each_category_snoc. simpl.
  unfold obj_read. rewrite Hget. set (c := category_of m).
  destruct (group_of ms c) as [g|] eqn:Hg.
  - eexists. split; [done|]. split.
    + rewrite obj_keys_set, decide_True by (apply (obj_get_Some_keys _ _ g); by rewrite Hget).
      rewrite decide_True, app_nil_r; [done|].
      destruct (decide (c ∈ map category_of ms)) as [|Hn]; [done|].
      by apply group_of_None in Hn; rewrite Hn in Hg.
    + intros c'. rewrite obj_get_set, group_of_snoc, Hget. fold c.
      case_decide; [subst c'; by rewrite (group_of_Some _ _ _ Hg)|done].
  - rewrite decide_False by (apply Hsafe; set_solver).
    eexists. split; [done|]. split.
    + rewrite obj_keys_set, decide_False by (apply obj_get_None_keys; by rewrite Hget).
      apply group_of_None in Hg. rewrite decide_False by done. by rewrite map_app, Hkeys.
    + intros c'. rewrite obj_get_set, group_of_snoc, Hget. fold c.
      case_decide; [|done]. subst c'. unfold group_of in Hg.
      by destruct (filter _ ms).
Qed.

(** C15: When no category names a property of [Object.prototype], the
    [reduce] succeeds: its keys are the categories in order of first
    appearance and each holds the models of that category in catalog
    order. *)
Theorem categorizedModels_groups ms :
  (∀ m, m ∈ ms -> category_of m ∉ object_prototype_keys) ->
  ∃ o, categorizedModels ms = Some o /\
       obj_keys o = map category_of (first_of_each_category [] ms) /\
       ∀ c, obj_get o c = group_of ms c.
Proof. apply categorizedModels_spec. Qed.

(** The keys the [reduce] creates are never [Object.prototype]'s. *)
Lemma categorize_keys_safe ms o :
  categorizedModels ms = Some o -> ∀ k, k ∈ obj_keys o -> k ∉ object_prototype_keys.
Proof.
  unfold categorizedModels. revert o.
  apply (fold_left_invariant (fun acc => ∀ o, acc = Some o -> ∀ k, k ∈ obj_keys o -> k ∉ object_prototype_keys)).
  { intros o [= <-]. set_solver. }
  intros [acc|] m _ Hacc o; simpl; [|done]. unfold obj_read.
  specialize (Hacc acc eq_refl). destruct (obj_get acc (category_of m)) as [g|] eqn:Hg.
  - intros [= <-] k. rewrite obj_keys_set, decide_True by by apply (obj_get_Some_keys _ _ g). apply Hacc.
  - case_decide as Hp; [done|]. intros [= <-] k. rewrite obj_keys_set.
    case_decide; [apply Hacc|]. rewrite elem_of_app, list_elem_of_singleton. intros [| ->]; [by apply Hacc|done].
Qed.

Lemma categorizedModels_safe ms :
  (∀ m, m ∈ ms -> category_of m ∉ object_prototype_keys) -> categorizedModels ms ≠ None.
Proof.
  induction ms as [|m ms IH] using rev_ind; intros Hsafe; [done|].
  rewrite categorizedModels_snoc.
  destruct (categorizedModels ms) as [o|]; [|exfalso; apply IH; [intros m' ?; apply Hsafe; set_solver|done]].
  simpl. unfold obj_read. destruct (obj_get o (category_of m)); [done|].
  by rewrite decide_False by (apply Hsafe; set_solver).
Qed.

(** C13: The [reduce] of [renderModelSelection] throws exactly when some model
    has a category (after the 'General' default) that names a property of
    [Object.prototype], such as "constructor" or "toString": [acc[category]]
    is then an inherited function and [acc[category].push] a [TypeError]. *)
Theorem categorizedModels_TypeError ms :
  categorizedModels ms = None <-> ∃ m, m ∈ ms /\ category_of m ∈ object_prototype_keys.
Proof.
  split.
  - intros Hn. destruct (decide (Exists (fun m => category_of m ∈ object_prototype_keys) ms)) as [He|He].
    + by apply Exists_exists in He.
    + exfalso. apply (categorizedModels_safe ms); [|done].
      intros m Hm Hp. apply He, Exists_exists. by exists m.
  - intros (m & Hm & Hp). apply list_elem_of_split in Hm as (pre & suf & ->).
    unfold categorizedModels. rewrite fold_left_app. simpl.
    destruct (fold_left categorize_step pre (Some [])) as [o|] eqn:Ho; simpl; [|apply categorize_None].
    unfold obj_read. rewrite (proj2 (obj_get_None_keys o (category_of m))).
    + rewrite decide_True by done. apply categorize_None.
    + intros Hk. by apply (categorize_keys_safe pre o Ho _ Hk).
Qed.

Lemma first_of_each_category_incl seen ms m : m ∈ first_of_each_category seen ms -> m ∈ ms.
Proof. rewrite first_of_each_category_elem. intros (pre & suf & -> & _). elem_solver. Qed.

Lemma first_of_each_category_names_NoDup seen ms :
  NoDup (map name ms) -> NoDup (map name (first_of_each_category seen ms)).
Proof.
  revert seen. induction ms as [|m ms IH]; intros seen Hnd; simpl in *; [constructor|].
  apply NoDup_cons in Hnd as [Hm Hnd]. case_decide; [by apply IH|]. simpl. constructor; [|by apply IH].
  intros (m' & Hn & Hin)%list_elem_of_fmap. apply Hm, list_elem_of_fmap.
  exists m'. split; [done|]. by apply (first_of_each_category_incl (category_of m :: seen)).
Qed.


(** [handleSelectDiverse] selects no model twice when the catalog has no
    two models of the same name. *)
Lemma handleSelectDiverse_NoDup models :
  NoDup (map name models) -> NoDup (handleSelectDiverse models).
Proof.
  intros Hnd. unfold handleSelectDiverse.
  pose proof (diverse_fold models [] [] ltac:(constructor) ltac:(simpl; lia)) as E.
  simpl in E. rewrite E.
  eapply sublist_NoDup; [|apply sublist_take]. by apply first_of_each_category_names_NoDup.
Qed.

(** ** Witnesses *)

Definition sample_catalog : list ModelInfo :=
  [mkModelInfo "codellama" (Some "Coding") None None None;
   mkModelInfo "llama2" None None None (Some false);
   mkModelInfo "deepseek-coder" (Some "Coding") None None (Some true);
   mkModelInfo "mistral" (Some "") None None None].

Lemma handleModelSelect_NoDup_witness :
  NoDup ["llama2"; "mistral"]%string /\ NoDup (handleModelSelect "mistral" ["llama2"; "mistral"]%string).
Proof.
  assert (H : NoDup ["llama2"; "mistral"]%string) by decide_by_eval.
  split; [exact H|]. apply (handleModelSelect_NoDup "mistral" _ H).
Defined.

Lemma categorizedModels_groups_witness :
  (∀ m, m ∈ sample_catalog -> category_of m ∉ object_prototype_keys) /\
  ∃ o, categorizedModels sample_catalog = Some o /\
       obj_keys o = map category_of (first_of_each_category [] sample_catalog) /\
       ∀ c, obj_get o c = group_of sample_catalog c.
Proof.
  assert (H : ∀ m, m ∈ sample_catalog -> category_of m ∉ object_prototype_keys)
    by (intros m Hm; repeat (apply elem_of_cons in Hm as [->|Hm]); [decide_by_eval..|by apply not_elem_of_nil in Hm]).
  split; [exact H|]. apply (categorizedModels_groups _ H).
Defined.


End Catalog.
