(* ===== verification/Client.v ===== *)
(** * The state of [App] and its handlers

    [App] keeps its state in thirteen [useState] hooks and a ref to the
    socket.  Here that state is the record [AppState], and each handler of
    the component is a function from the state to the next state and the
    effects it starts ([Effect]: a fetch, a socket emit).  A handler that
    awaits a fetch is split in two: the synchronous part up to the [await]
    ([handleSubmitQuery]) and the continuation run when the fetch settles
    ([handleSubmitQuery_resume]), which the event loop ([ClientLoop])
    interleaves with the other events.

    The payloads are the wire shapes of spec.md section 6: a
    [response_update] carries a whole record that [responses] stores under
    its model name; a [debate_update] carries an object whose properties
    ([current_round], [total_rounds], [participants], [round_N]) are
    spread over [debateState].  JS numbers are rationals ([Q]); a missing
    property is [None].  [error] is a string, and an [error] event without
    [message] stores [""]: the only use of [error] is the truthiness test
    of the render, for which [undefined] and [""] agree. *)

From S2P Require Import Prelude JsObject JsString Catalog.
From Stdlib Require Import QArith.
Local Close Scope Q_scope.

Module Client.
Import Catalog.

(** ** Payloads *)

(** [response_update]: [{model, status, content?, time?, error?}]. *)
Record ResponseUpdate := mkResponseUpdate {
  ru_model : string;
  ru_status : string;
  ru_content : option string;
  ru_time : option Q;
  ru_error : option string;
}.

(** One model's statement in a [round_N] object: [{content, time}]. *)
Record RoundEntry := mkRoundEntry {
  re_content : option string;
  re_time : option Q;
}.

(** A property value of a [debate_update] payload. *)
Inductive DebateValue :=
  | DNum (n : Q)                   (** [current_round], [total_rounds] *)
  | DList (l : list string)         (** [participants] *)
  | DRound (r : obj RoundEntry)    (** [round_N] *)
  | DOther.                        (** any other JSON value *)

(** The events the socket delivers to the listeners of [useEffect]. *)
Inductive ServerEvent :=
  | EvResponseUpdate (data : ResponseUpdate)
  | EvDebateUpdate (data : obj DebateValue)
  | EvQueryComplete
  | EvDebateComplete
  | EvError (message : option string).

(** [GET /api/models]: [{success, models_with_info?}]. *)
Record ModelsResponse := mkModelsResponse {
  mr_success : bool;
  mr_models_with_info : option (list ModelInfo);
}.

(** The acknowledgement of [POST /api/query] and [/api/debate/start]. *)
Record AckResponse := mkAckResponse {
  ack_success : bool;
  ack_error : option string;
}.

(** A settled [fetch(...).then(r => r.json())]: the parsed body, or a
    rejection (network failure or a body that is not JSON). *)
Inductive FetchOutcome (A : Type) :=
  | FetchOk (body : A)
  | FetchFailed.
Arguments FetchOk {A}.
Arguments FetchFailed {A}.

(** The requests of the component. *)
Inductive Request :=
  | GetModels
  | PostQuery (question : string) (qtype : string) (streaming : bool)
              (selected_models : list string) (session_id : string)
  | PostDebate (topic : string) (selected_models : list string)
               (debate_rounds : nat) (session_id : string).

Inductive Effect :=
  | Fetch (r : Request)
  | EmitCancelQuery (session_id : string)
  | EmitCancelDebate (session_id : string).

(** ** State *)

Record AppState := mkAppState {
  models : list ModelInfo;
  selectedModels : list string;
  currentMode : string;
  question : string;
  questionType : string;
  debateTopic : string;
  debateRounds : nat;
  responses : obj ResponseUpdate;
  debateState : obj DebateValue;
  isQuerying : bool;
  isDebating : bool;
  loading : bool;
  error : string;
  sessionId : string;
  socketConnected : bool;   (** [socketRef.current] is set *)
}.

(** The [useState] initial values; [sessionId] is the random string drawn
    once by the lazy initialiser. *)
Definition initial_state (sid : string) : AppState :=
  mkAppState [] [] "qa" "" "general" "" 3 [] [] false false false "" sid false.

(** ** Setters *)

Definition setModels v s := let '(mkAppState _ a b c d e f g h i j k l m n) := s in mkAppState v a b c d e f g h i j k l m n.
Definition setSelectedModels v s := let '(mkAppState x _ b c d e f g h i j k l m n) := s in mkAppState x v b c d e f g h i j k l m n.
Definition setCurrentMode v s := let '(mkAppState x a _ c d e f g h i j k l m n) := s in mkAppState x a v c d e f g h i j k l m n.
Definition setQuestion v s := let '(mkAppState x a b _ d e f g h i j k l m n) := s in mkAppState x a b v d e f g h i j k l m n.
Definition setQuestionType v s := let '(mkAppState x a b c _ e f g h i j k l m n) := s in mkAppState x a b c v e f g h i j k l m n.
Definition setDebateTopic v s := let '(mkAppState x a b c d _ f g h i j k l m n) := s in mkAppState x a b c d v f g h i j k l m n.
Definition setDebateRounds v s := let '(mkAppState x a b c d e _ g h i j k l m n) := s in mkAppState x a b c d e v g h i j k l m n.
Definition setResponses v s := let '(mkAppState x a b c d e f _ h i j k l m n) := s in mkAppState x a b c d e f v h i j k l m n.
Definition setDebateState v s := let '(mkAppState x a b c d e f g _ i j k l m n) := s in mkAppState x a b c d e f g v i j k l m n.
Definition setIsQuerying v s := let '(mkAppState x a b c d e f g h _ j k l m n) := s in mkAppState x a b c d e f g h v j k l m n.
Definition setIsDebating v s := let '(mkAppState x a b c d e f g h i _ k l m n) := s in mkAppState x a b c d e f g h i v k l m n.
Definition setLoading v s := let '(mkAppState x a b c d e f g h i j _ l m n) := s in mkAppState x a b c d e f g h i j v l m n.
Definition setError v s := let '(mkAppState x a b c d e f g h i j k _ m n) := s in mkAppState x a b c d e f g h i j k v m n.
Definition setSocket v s := let '(mkAppState x a b c d e f g h i j k l m _) := s in mkAppState x a b c d e f g h i j k l m v.

(** ** Handlers *)

Abbreviation Result := (AppState * list Effect)%type.

(** [loadModels], up to its [await]. *)
Definition loadModels (st : AppState) : Result :=
  (setLoading true st, [Fetch GetModels]).

(** [loadModels] after the fetch settles: the [try] body or the [catch],
    then the [finally]. *)
Definition loadModels_resume (res : FetchOutcome ModelsResponse) (st : AppState) : AppState :=
  let st' :=
    match res with
    | FetchOk data =>
        if mr_success data then setModels (js_or_opt (mr_models_with_info data) []) st else st
    | FetchFailed => setError "Failed to load models" st
    end in
  setLoading false st'.

(** The [useEffect] of the mount: connect, register the listeners, and
    call [loadModels]. *)
Definition mount (st : AppState) : Result := loadModels (setSocket true st).

(** The socket listeners. *)
Definition on_response_update (data : ResponseUpdate) (st : AppState) : AppState :=
  setResponses (obj_with (responses st) (ru_model data) data) st.

Definition on_debate_update (data : obj DebateValue) (st : AppState) : AppState :=
  setDebateState (obj_spread (debateState st) data) st.

Definition on_query_complete (st : AppState) : AppState := setIsQuerying false st.

Definition on_debate_complete (st : AppState) : AppState := setIsDebating false st.

Definition on_error (message : option string) (st : AppState) : AppState :=
  setIsDebating false (setIsQuerying false (setError (from_option id "" message) st)).

Definition on_event (ev : ServerEvent) (st : AppState) : AppState :=
  match ev with
  | EvResponseUpdate data => on_response_update data st
  | EvDebateUpdate data => on_debate_update data st
  | EvQueryComplete => on_query_complete st
  | EvDebateComplete => on_debate_complete st
  | EvError m => on_error m st
  end.

(** The selection handlers on the state. *)
Definition onModelSelect (modelName : string) (st : AppState) : AppState :=
  setSelectedModels (handleModelSelect modelName (selectedModels st)) st.
Definition onSelectAll (st : AppState) : AppState := setSelectedModels (handleSelectAll (models st)) st.
Definition onClearAll (st : AppState) : AppState := setSelectedModels handleClearAll st.
Definition onSelectDiverse (st : AppState) : AppState :=
  setSelectedModels (handleSelectDiverse (models st)) st.

(** [handleSubmitQuery], up to its [await]. *)
Definition handleSubmitQuery (st : AppState) : Result :=
  if JsString.blank (question st) || bool_decide (length (selectedModels st) = 0) then (st, [])
  else (setError "" (setResponses [] (setIsQuerying true st)),
        [Fetch (PostQuery (question st) (questionType st) true (selectedModels st) (sessionId st))]).

(** [handleSubmitQuery] after the fetch settles. *)
Definition handleSubmitQuery_resume (res : FetchOutcome AckResponse) (st : AppState) : AppState :=
  match res with
  | FetchOk data =>
      if ack_success data then st
      else setIsQuerying false (setError (js_or_opt (ack_error data) "Query failed") st)
  | FetchFailed => setIsQuerying false (setError "Failed to submit query" st)
  end.

(** The participant limit hard-coded in [handleStartDebate]. *)
Definition max_debate_models : nat := 6.

(** [handleStartDebate], up to its [await]. *)
Definition handleStartDebate (st : AppState) : Result :=
  if JsString.blank (debateTopic st) || bool_decide (length (selectedModels st) = 0) then (st, [])
  else if bool_decide (max_debate_models < length (selectedModels st))
  then (setError "Please select no more than 6 models for optimal debate quality" st, [])
  else (setError "" (setDebateState [] (setIsDebating true st)),
        [Fetch (PostDebate (debateTopic st) (selectedModels st) (debateRounds st) (sessionId st))]).

(** [handleStartDebate] after the fetch settles. *)
Definition handleStartDebate_resume (res : FetchOutcome AckResponse) (st : AppState) : AppState :=
  match res with
  | FetchOk data =>
      if ack_success data then st
      else setIsDebating false (setError (js_or_opt (ack_error data) "Debate failed to start") st)
  | FetchFailed => setIsDebating false (setError "Failed to start debate" st)
  end.

(** [handleCancelQuery] and [handleCancelDebate]. *)
Definition handleCancelQuery (st : AppState) : Result :=
  (setResponses [] (setIsQuerying false st),
   if socketConnected st then [EmitCancelQuery (sessionId st)] else []).

Definition handleCancelDebate (st : AppState) : Result :=
  (setDebateState [] (setIsDebating false st),
   if socketConnected st then [EmitCancelDebate (sessionId st)] else []).

(** ** Behaviour of the handlers *)

Lemma blank_false_iff s : JsString.blank s = false <-> ¬ JsString.all_space (String.list_ascii_of_string s).
Proof.
  rewrite <- JsString.trim_empty_iff. unfold JsString.blank.
  destruct (JsString.trim s); simpl; naive_solver.
Qed.

Lemma blank_true_of s : JsString.all_space (String.list_ascii_of_string s) -> JsString.blank s = true.
Proof. rewrite <- JsString.trim_empty_iff. unfold JsString.blank. by intros ->. Qed.

(** C4: [handleSubmitQuery] posts a query exactly when the question has a
    character that is not white space and at least one model is selected;
    the request carries the untrimmed question, the selection and the
    session id, and the state then shows a running query with no responses
    and no error. *)
Theorem handleSubmitQuery_spec st :
  (¬ JsString.all_space (String.list_ascii_of_string (question st)) /\ selectedModels st ≠ [] ->
   handleSubmitQuery st =
     (setError "" (setResponses [] (setIsQuerying true st)),
      [Fetch (PostQuery (question st) (questionType st) true (selectedModels st) (sessionId st))])) /\
  (JsString.all_space (String.list_ascii_of_string (question st)) \/ selectedModels st = [] ->
   handleSubmitQuery st = (st, [])).
Proof.
  unfold handleSubmitQuery. split.
  - intros [Hq Hs]. rewrite (proj2 (blank_false_iff _) Hq), bool_decide_false; [done|].
    by intros ?%nil_length_inv.
  - intros [Hq|Hs].
    + by rewrite (blank_true_of _ Hq).
    + rewrite Hs, bool_decide_true by done. by destruct (JsString.blank _).
Qed.

Lemma handleSubmitQuery_state st :
  JsString.blank (question st) = false -> selectedModels st ≠ [] ->
  let st' := (handleSubmitQuery st).1 in
  isQuerying st' = true /\ responses st' = [] /\ error st' = "" /\
  selectedModels st' = selectedModels st /\ isDebating st' = isDebating st /\
  debateState st' = debateState st /\ loading st' = loading st.
Proof.
  intros Hq Hs. unfold handleSubmitQuery. rewrite Hq, bool_decide_false by (by intros ?%nil_length_inv).
  by destruct st.
Qed.

(** C5: [handleStartDebate] has three outcomes: nothing for a blank topic or
    an empty selection; the error "Please select no more than 6 models"
    and no request for more than six models; otherwise the debate request
    and a state with a running, empty debate. *)
Theorem handleStartDebate_spec st :
  (JsString.all_space (String.list_ascii_of_string (debateTopic st)) \/ selectedModels st = [] ->
   handleStartDebate st = (st, [])) /\
  (¬ JsString.all_space (String.list_ascii_of_string (debateTopic st)) -> max_debate_models < length (selectedModels st) ->
   handleStartDebate st = (setError "Please select no more than 6 models for optimal debate quality" st, [])) /\
  (¬ JsString.all_space (String.list_ascii_of_string (debateTopic st)) -> selectedModels st ≠ [] ->
   length (selectedModels st) <= max_debate_models ->
   handleStartDebate st =
     (setError "" (setDebateState [] (setIsDebating true st)),
      [Fetch (PostDebate (debateTopic st) (selectedModels st) (debateRounds st) (sessionId st))])).
Proof.
  unfold handleStartDebate. split; [|split].
  - intros [Hq|Hs].
    + by rewrite (blank_true_of _ Hq).
    + rewrite Hs, bool_decide_true by done. by destruct (JsString.blank _).
  - intros Hq Hn. rewrite (proj2 (blank_false_iff _) Hq), bool_decide_false by (unfold max_debate_models in Hn; lia).
    by rewrite bool_decide_true.
  - intros Hq Hs Hn. rewrite (proj2 (blank_false_iff _) Hq), bool_decide_false by (by intros ?%nil_length_inv).
    by rewrite bool_decide_false by lia.
Qed.

Lemma js_or_opt_truthy_default {A} `{Truthy A} (o : option A) (d : A) :
  truthy d = true -> truthy (js_or_opt o d) = true.
Proof. destruct o as [x|]; simpl; [|done]. unfold js_or. by destruct (truthy x) eqn:?. Qed.

(** C9: When the acknowledgement of a query is not a success, the query is
    no longer shown as running and a non-empty error message is shown:
    the server's [error], or "Query failed", or "Failed to submit query"
    when the fetch itself failed. *)
Theorem handleSubmitQuery_resume_failure res st :
  (∀ data, res = FetchOk data -> ack_success data = false) ->
  let st' := handleSubmitQuery_resume res st in
  isQuerying st' = false /\ truthy (error st') = true.
Proof.
  intros Hres. unfold handleSubmitQuery_resume. destruct res as [data|].
  - rewrite (Hres data eq_refl). destruct st. simpl. split; [done|].
    by apply js_or_opt_truthy_default.
  - by destruct st.
Qed.

Lemma handleSubmitQuery_resume_success data st :
  ack_success data = true -> handleSubmitQuery_resume (FetchOk data) st = st.
Proof. intros H. unfold handleSubmitQuery_resume. by rewrite H. Qed.

(** C6: [handleCancelQuery] clears the responses and the running flag at once
    and emits [cancel_query] with the session id when the socket is
    connected. *)
Theorem handleCancelQuery_spec st :
  let '(st', effs) := handleCancelQuery st in
  isQuerying st' = false /\ responses st' = [] /\
  effs = (if socketConnected st then [EmitCancelQuery (sessionId st)] else []) /\
  isDebating st' = isDebating st /\ debateState st' = debateState st /\ selectedModels st' = selectedModels st.
Proof. by destruct st. Qed.

(** ** The views merged from the event stream *)

Lemma responses_on_response_update e st :
  responses (on_response_update e st) = obj_with (responses st) (ru_model e) e.
Proof. by destruct st. Qed.

Lemma responses_fold_updates es st :
  responses (fold_left (fun s e => on_response_update e s) es st) = obj_index ru_model es (responses st).
Proof.
  unfold obj_index. revert st. induction es as [|e es IH]; intros st; simpl; [done|].
  rewrite IH, responses_on_response_update. done.
Qed.

(** C1: After any stream of [response_update] events, the card of model [k]
    shows the last event about [k] (whatever the interleaving with the
    other models' events), or what it showed before when there was none. *)
Theorem responses_after_updates st es k :
  obj_wf (responses st) ->
  obj_get (responses (fold_left (fun s e => on_response_update e s) es st)) k =
    match last (filter (fun e => ru_model e = k) es) with
    | Some e => Some e
    | None => obj_get (responses st) k
    end.
Proof. intros Hwf. rewrite responses_fold_updates. by apply obj_index_get. Qed.

(** C2: A [debate_update] replaces the properties it carries and keeps all
    the others: a round sent in an earlier update stays in [debateState]
    until an update carries the same [round_N] key. *)
Theorem debateState_after_update st data k :
  obj_wf (debateState st) -> obj_wf data ->
  obj_get (debateState (on_debate_update data st)) k =
    match obj_get data k with Some v => Some v | None => obj_get (debateState st) k end.
Proof. intros Hs Hd. destruct st. by apply obj_spread_get. Qed.

(** ** Witnesses *)

Definition sample_state : AppState :=
  setSelectedModels ["llama2"; "mistral"]%string (setQuestion "Why?" (initial_state "s1")).

Definition sample_update (m st : string) : ResponseUpdate := mkResponseUpdate m st None None None.

Lemma responses_after_updates_witness :
  obj_wf (responses sample_state) /\
  obj_get (responses (fold_left (fun s e => on_response_update e s)
             [sample_update "llama2" "processing"; sample_update "mistral" "processing";
              sample_update "llama2" "completed"] sample_state)) "llama2" =
    match last (filter (fun e => ru_model e = "llama2")
             [sample_update "llama2" "processing"; sample_update "mistral" "processing";
              sample_update "llama2" "completed"]) with
    | Some e => Some e
    | None => obj_get (responses sample_state) "llama2"
    end.
Proof.
  assert (H : obj_wf (responses sample_state)) by apply obj_wf_nil.
  split; [exact H|]. apply (responses_after_updates _ _ _ H).
Defined.

Definition sample_round : obj DebateValue :=
  [("current_round", DNum 1); ("round_1", DRound [("llama2", mkRoundEntry (Some "Yes") None)])].

Lemma debateState_after_update_witness :
  obj_wf (debateState (on_debate_update sample_round sample_state)) /\
  obj_wf [("current_round", DNum 2)] /\
  obj_get (debateState (on_debate_update [("current_round", DNum 2)] (on_debate_update sample_round sample_state))) "round_1" =
    match obj_get [("current_round", DNum 2)] "round_1" with
    | Some v => Some v
    | None => obj_get (debateState (on_debate_update sample_round sample_state)) "round_1"
    end.
Proof.
  assert (H1 : obj_wf (debateState (on_debate_update sample_round sample_state))) by decide_by_eval.
  assert (H2 : obj_wf [("current_round", DNum 2)]) by decide_by_eval.
  split; [exact H1|]. split; [exact H2|]. apply (debateState_after_update _ _ _ H1 H2).
Defined.

Lemma handleSubmitQuery_resume_failure_witness :
  (∀ data, FetchOk (mkAckResponse false None) = FetchOk data -> ack_success data = false) /\
  isQuerying (handleSubmitQuery_resume (FetchOk (mkAckResponse false None)) sample_state) = false /\
  truthy (error (handleSubmitQuery_resume (FetchOk (mkAckResponse false None)) sample_state)) = true.
Proof.
  assert (H : ∀ data, FetchOk (mkAckResponse false None) = FetchOk data -> ack_success data = false)
    by (intros data [= <-]; reflexivity).
  split; [exact H|]. apply (handleSubmitQuery_resume_failure _ _ H).
Defined.

End Client.
