(* ===== verification/View.v ===== *)
(** * Views derived by the render functions

    [renderQAInterface] and [renderDebateInterface] read the state and
    compute what is shown: the response cards (one per property of
    [responses], in property order, with a body chosen by [status]), the
    debate progress bar and its caption, and the list of rounds with the
    statements of each.  These computations are modelled as functions of
    [AppState]; the markup around them is not.

    JS arithmetic on [debateState.current_round || 1] and
    [debateState.total_rounds || debateRounds] is modelled on [Q]: a
    number [0] is falsy and replaced by the default; a missing property
    gives the default; an array, an object or another JSON value makes
    the arithmetic [NaN], modelled as [None].

    Theorems: the progress bar stays in [0, 100) while the current round is
    within the total and is left unchanged by [debate_complete], so it
    never shows a finished debate; the rounds displayed are [1..n] for the
    current round [n]; a model's card keeps its place when its record is
    updated and a new model's card is added last, unless its name is an
    array index, which [Object.entries] lists first. *)

From S2P Require Import Prelude JsObject JsKeys Client.
From stdpp Require Import pretty.
From Stdlib Require Import QArith Qround Lqa.

Module View.
Import Client.

(** ** The debate display *)

(** [x || d] followed by arithmetic, for a property of [debateState]. *)
Definition num_or (o : option DebateValue) (d : Q) : option Q :=
  match o with
  | None => Some d
  | Some (DNum n) => Some (if Qeq_bool n 0 then d else n)
  | Some _ => None
  end.

(** [debateState.current_round || 1]. *)
Definition current_round (s : AppState) : option Q :=
  num_or (obj_get (debateState s) "current_round") 1.

(** [debateState.total_rounds || debateRounds]. *)
Definition total_rounds (s : AppState) : option Q :=
  num_or (obj_get (debateState s) "total_rounds") (inject_Z (Z.of_nat (debateRounds s))).

(** The [width] of [progress-fill], in percent:
    [((current_round || 1) - 1) / (total_rounds || debateRounds) * 100]. *)
Definition progress_width (s : AppState) : option Q :=
  c ← current_round s; t ← total_rounds s; Some ((c - 1) / t * 100)%Q.

(** [Array.from({length: current_round || 1}, (_, i) => i + 1)]; the
    length of a non-number is [0]. *)
Definition rounds_shown (s : AppState) : list nat :=
  match current_round s with
  | Some c => seq 1 (Z.to_nat (Qfloor c))
  | None => []
  end.

(** The statements shown for round [n]:
    [debateState[`round_${n}`] && Object.entries(debateState[`round_${n}`])]. *)
Definition round_view (s : AppState) (n : nat) : obj RoundEntry :=
  match obj_get (debateState s) ("round_" +:+ pretty n) with
  | Some (DRound r) => r
  | _ => []
  end.

Definition debate_rounds_view (s : AppState) : list (nat * obj RoundEntry) :=
  map (fun n => (n, round_view s n)) (rounds_shown s).

(** [Object.keys(debateState).length > 0]: the live debate display is
    rendered. *)
Definition debate_display_shown (s : AppState) : bool := bool_decide (obj_keys (debateState s) ≠ []).

(** ** The response cards *)

(** [response.time?.toFixed(2) || 0]: a number is printed with two
    decimals (a non-empty, truthy string, also for [0]); a missing time
    prints [0]. *)
Inductive TimeShown := ShowFixed (t : Q) | ShowZero.

Inductive CardBody :=
  | BodyCompleted (time : TimeShown) (content : option string)
  | BodyError (message : string)
  | BodyProcessing
  | BodyNone.

(** The body of a card, by [response.status]. *)
Definition response_card (r : ResponseUpdate) : CardBody :=
  if decide (ru_status r = "completed") then
    BodyCompleted (match ru_time r with Some t => ShowFixed t | None => ShowZero end) (ru_content r)
  else if decide (ru_status r = "error") then BodyError (js_or_opt (ru_error r) "Unknown error")
  else if decide (ru_status r = "processing") then BodyProcessing
  else BodyNone.

(** [Object.entries(responses).map(...)]: one card per model, in the
    enumeration order of the object's keys. *)
Definition response_cards (s : AppState) : list (string * CardBody) :=
  map (fun kv => (kv.1, response_card kv.2)) (obj_entries (responses s)).

(** ** The progress bar *)

Lemma percent_bounds (a t : Q) : 0 <= a -> a < t -> 0 <= a / t * 100 /\ a / t * 100 < 100.
Proof.
  intros Ha Hat. assert (Ht : 0 < t) by lra.
  assert (H0 : 0 <= a / t) by (apply Qle_shift_div_l; lra).
  assert (H1 : a / t < 1) by (apply Qlt_shift_div_r; lra).
  remember (a / t) as x. lra.
Qed.

(** C33: While the current round is between 1 and the total, the progress bar
    is filled to at least 0% and less than 100%: on the last round it
    shows [(n-1)/n]. *)
Theorem progress_width_bounds s c t :
  current_round s = Some c -> total_rounds s = Some t -> 1 <= c -> c <= t ->
  ∃ w, progress_width s = Some w /\ 0 <= w /\ w < 100.
Proof.
  intros Hc Ht H1 H2. unfold progress_width. rewrite Hc, Ht. simpl.
  eexists. split; [reflexivity|]. apply percent_bounds; lra.
Qed.

(** [debate_complete] changes neither the progress bar nor the rounds
    shown: a finished debate keeps the bar of its last round. *)
Theorem debate_complete_keeps_view s :
  progress_width (on_debate_complete s) = progress_width s /\
  rounds_shown (on_debate_complete s) = rounds_shown s /\
  isDebating (on_debate_complete s) = false.
Proof. by destruct s. Qed.

(** ** The rounds displayed *)

(** With [current_round = n] for a positive whole [n], the rounds
    [1..n] are displayed. *)
Theorem rounds_shown_current s n :
  obj_get (debateState s) "current_round" = Some (DNum (inject_Z (Z.of_nat (S n)))) ->
  rounds_shown s = seq 1 (S n).
Proof.
  intros H. unfold rounds_shown, current_round, num_or. rewrite H.
  replace (Qeq_bool (inject_Z (Z.of_nat (S n))) 0) with false.
  - by rewrite Qfloor_Z, Nat2Z.id.
  - symmetry. apply not_true_is_false. intros Heq%Qeq_bool_eq.
    unfold Qeq in Heq. simpl in Heq. lia.
Qed.

(** Before any [current_round] arrives, round 1 is displayed. *)
Lemma rounds_shown_default s :
  obj_get (debateState s) "current_round" = None -> rounds_shown s = [1%nat].
Proof. intros H. unfold rounds_shown, current_round, num_or. by rewrite H. Qed.

(** ** The response cards *)

Lemma response_cards_keys s : map fst (response_cards s) = own_keys (obj_keys (responses s)).
Proof. unfold response_cards. rewrite map_map, <- obj_entries_keys. by apply map_ext. Qed.

Lemma response_cards_keys_update s e :
  obj_wf (responses s) ->
  obj_keys (responses (on_response_update e s)) =
    if decide (ru_model e ∈ obj_keys (responses s)) then obj_keys (responses s)
    else obj_keys (responses s) ++ [ru_model e].
Proof. intros Hwf. rewrite responses_on_response_update. unfold obj_with. by rewrite obj_copy_id, obj_keys_set. Qed.

(** C35: A [response_update] for a model whose name is not an array index
    keeps the order of the cards: the card of a model already shown stays
    in place, the card of a new model is added last. *)
Theorem response_cards_order s e :
  obj_wf (responses s) -> array_index (ru_model e) = None ->
  map fst (response_cards (on_response_update e s)) =
    if decide (ru_model e ∈ map fst (response_cards s))
    then map fst (response_cards s) else map fst (response_cards s) ++ [ru_model e].
Proof.
  intros Hwf Hk. rewrite !response_cards_keys, response_cards_keys_update by done.
  assert (Hin : ru_model e ∈ own_keys (obj_keys (responses s)) <-> ru_model e ∈ obj_keys (responses s))
    by (by rewrite own_keys_Permutation).
  do 2 case_decide; try tauto; first [done | by apply own_keys_snoc_string].
Qed.


(** A card has a body only for the statuses [completed], [error] and
    [processing]: a record that is [pending] or [cancelled] (statuses of
    spec.md section 3) is shown as a bare card with the model name. *)
Theorem response_card_none r :
  response_card r = BodyNone <-> ru_status r ∉ ["completed"; "error"; "processing"]%string.
Proof.
  unfold response_card. rewrite !elem_of_cons, elem_of_nil.
  repeat case_decide; split; try done; naive_solver.
Qed.

(** ** Witnesses *)

Definition debate_state_r3 : AppState :=
  on_debate_update [("current_round", DNum 3); ("total_rounds", DNum 3)] (initial_state "s1").

Lemma progress_width_bounds_witness :
  current_round debate_state_r3 = Some 3 /\ total_rounds debate_state_r3 = Some 3 /\
  1 <= 3 /\ 3 <= 3 /\
  ∃ w, progress_width debate_state_r3 = Some w /\ 0 <= w /\ w < 100.
Proof.
  assert (Hc : current_round debate_state_r3 = Some 3) by reflexivity.
  assert (Ht : total_rounds debate_state_r3 = Some 3) by reflexivity.
  assert (H1 : 1 <= 3) by lra. assert (H2 : 3 <= 3) by lra.
  do 4 (split; [assumption|]). apply (progress_width_bounds _ _ _ Hc Ht H1 H2).
Defined.

Lemma response_cards_order_witness :
  let s := on_response_update (mkResponseUpdate "llama2" "processing" None None None) (initial_state "s1") in
  let e := mkResponseUpdate "mistral" "completed" (Some "42") (Some 1) None in
  obj_wf (responses s) /\ array_index (ru_model e) = None /\
  map fst (response_cards (on_response_update e s)) =
    if decide (ru_model e ∈ map fst (response_cards s))
    then map fst (response_cards s) else map fst (response_cards s) ++ [ru_model e].
Proof.
  intros s e.
  assert (H : obj_wf (responses s)) by decide_by_eval.
  assert (Hk : array_index (ru_model e) = None) by reflexivity.
  split; [exact H|]. split; [exact Hk|]. apply (response_cards_order s e H Hk).
Defined.


End View.
