(* ===== verification/ModelPanel.v ===== *)
(** * The model selection panel of [renderModelSelection]

    The panel groups the catalog with the [reduce] of [Catalog] and then
    renders [Object.entries(categorizedModels)]: one section per
    category, headed by the category and its number of models, with one
    card per model of the category; a card is marked [selected] when its
    name is in [selectedModels] and shows the specialty, with the default
    ['General Purpose'], and the description.  Below the sections the
    summary reads [Selected: n model] or [Selected: n models].

    Theorem: when the [reduce] does not throw, the sections come in the
    enumeration order of the categories (the [JsKeys] order), each holds
    exactly the models of its category in catalog order with the right
    count, and every model of the catalog is shown on exactly one card. *)

From S2P Require Import Prelude JsObject JsKeys Catalog Client.
From stdpp Require Import pretty.

Module ModelPanel.
Import Catalog Client.

(** One [model-card]. *)
Record ModelCard := mkModelCard {
  card_name : string;
  card_selected : bool;                 (** [selectedModels.includes(model.name)] *)
  card_specialty : string;              (** [model.specialty || 'General Purpose'] *)
  card_description : option string;     (** [model.description] *)
}.

(** One [model-category]: the header [category (n models)] and the grid. *)
Record CategorySection := mkSection {
  sec_category : string;
  sec_count : nat;
  sec_cards : list ModelCard;
}.

Definition model_card (selected : list string) (m : ModelInfo) : ModelCard :=
  mkModelCard (name m) (bool_decide (name m ∈ selected)) (js_or_opt (specialty m) "General Purpose")
    (description m).

Definition category_section (selected : list string) (entry : string * list ModelInfo) : CategorySection :=
  mkSection entry.1 (length entry.2) (map (model_card selected) entry.2).

(** The sections of the panel; [None] when the [reduce] throws. *)
Definition model_sections (s : AppState) : option (list CategorySection) :=
  o ← categorizedModels (models s);
  Some (map (category_section (selectedModels s)) (obj_entries o)).

(** [Selected: {n} model{n !== 1 ? 's' : ''}]. *)
Definition selection_summary (s : AppState) : string :=
  let n := length (selectedModels s) in
  "Selected: " +:+ pretty n +:+ " model" +:+ (if decide (n = 1) then "" else "s").

(** ** The sections partition the catalog *)

Section Partition.
Context (ms : list ModelInfo) (o : obj (list ModelInfo)).
Hypothesis Hkeys : obj_keys o = map category_of (first_of_each_category [] ms).
Hypothesis Hget : ∀ c, obj_get o c = group_of ms c.

Lemma categorized_entries :
  obj_entries o = map (fun c => (c, filter (fun m => category_of m = c) ms)) (own_keys (obj_keys o)).
Proof.
  unfold obj_entries. assert (Hin : ∀ c, c ∈ own_keys (obj_keys o) -> c ∈ map category_of ms).
  { intros c. rewrite own_keys_Permutation, Hkeys. intros Hc.
    by apply (first_of_each_category_cover [] ms c). }
  induction (own_keys (obj_keys o)) as [|c cs IH]; [done|]. simpl.
  rewrite Hget. destruct (group_of ms c) as [g|] eqn:Hg.
  - rewrite (group_of_Some _ _ _ Hg). simpl. f_equal. apply IH. intros c' ?. apply Hin. by right.
  - exfalso. apply group_of_None in Hg. apply Hg, Hin. by left.
Qed.

Lemma categorized_cover :
  concat (map (fun c => filter (fun m => category_of m = c) ms) (own_keys (obj_keys o))) ≡ₚ ms.
Proof.
  rewrite concat_filter_groups.
  - rewrite filter_all_true; [done|]. intros m Hm. rewrite own_keys_Permutation, Hkeys.
    apply (first_of_each_category_cover [] ms). simpl. by apply list_elem_of_fmap_2.
  - rewrite own_keys_Permutation, Hkeys. apply first_of_each_category_NoDup.
Qed.

End Partition.

(** C40: When no category names a property of [Object.prototype], the
    panel shows one section per category, in the enumeration order of
    the category names; each section lists the models of its category in
    catalog order and its header counts them; and every model of the
    catalog appears on exactly one card, marked selected when its name is
    in the selection. *)
Theorem model_sections_partition s :
  (∀ m, m ∈ models s -> category_of m ∉ object_prototype_keys) ->
  ∃ secs, model_sections s = Some secs /\
    map sec_category secs = own_keys (map category_of (first_of_each_category [] (models s))) /\
    (∀ sec, sec ∈ secs -> sec_count sec = length (sec_cards sec) /\
       sec_cards sec = map (model_card (selectedModels s))
                         (filter (fun m => category_of m = sec_category sec) (models s))) /\
    concat (map sec_cards secs) ≡ₚ map (model_card (selectedModels s)) (models s).
Proof.
  intros Hsafe. destruct (categorizedModels_spec (models s) Hsafe) as (o & Ho & Hkeys & Hget).
  unfold model_sections. rewrite Ho. simpl. eexists. split; [done|].
  rewrite (categorized_entries _ _ Hkeys Hget), !map_map. split; [|split].
  - rewrite <- Hkeys. by apply map_id.
  - intros sec (c & -> & _)%list_elem_of_fmap. simpl. by rewrite length_map.
  - rewrite <- (categorized_cover _ o Hkeys). rewrite concat_map, map_map. done.
Qed.

(** ** Witnesses *)

(** A catalog with a category named by a numeral: its section comes first. *)
Definition numbered_catalog : list ModelInfo :=
  [mkModelInfo "codellama" (Some "Coding") None None None;
   mkModelInfo "llama2" None (Some "Chat") None None;
   mkModelInfo "phi" (Some "2") None None None;
   mkModelInfo "deepseek-coder" (Some "Coding") None None None].

Definition panel_state : AppState :=
  setSelectedModels ["llama2"] (setModels numbered_catalog (initial_state "s1")).

Example panel_state_sections :
  option_map (map (fun sec => (sec_category sec, sec_count sec))) (model_sections panel_state) =
    Some [("2", 1); ("Coding", 2); ("General", 1)] /\
  selection_summary panel_state = "Selected: 1 model".
Proof. split; vm_compute; reflexivity. Qed.

Lemma model_sections_partition_witness :
  (∀ m, m ∈ models panel_state -> category_of m ∉ object_prototype_keys) /\
  ∃ secs, model_sections panel_state = Some secs /\
    map sec_category secs = own_keys (map category_of (first_of_each_category [] (models panel_state))) /\
    (∀ sec, sec ∈ secs -> sec_count sec = length (sec_cards sec) /\
       sec_cards sec = map (model_card (selectedModels panel_state))
                         (filter (fun m => category_of m = sec_category sec) (models panel_state))) /\
    concat (map sec_cards secs) ≡ₚ map (model_card (selectedModels panel_state)) (models panel_state).
Proof.
  assert (H : ∀ m, m ∈ models panel_state -> category_of m ∉ object_prototype_keys).
  { apply (proj1 (Forall_forall _ _)). decide_by_eval. }
  split; [exact H|]. exact (model_sections_partition panel_state H).
Defined.

End ModelPanel.
