(* ===== verification/QueryRun.v ===== *)
(** * The server's query run (modelled from spec.md)

    The orchestration core is not part of src/: this file models it from
    spec.md sections 3, 4.1 and 4.2, and every definition here is marked
    as modelled from the spec in the manifest.

    A run maps each selected backend to a [ResponseRecord] whose status
    goes [Pending -> Processing -> terminal] and never back; [Completed],
    [Errored] and [Cancelled] are terminal and absorbing.  [q_start]
    rejects an empty selection ([InvalidRequest]) and marks every backend
    [Processing]; [q_resolve] applies a backend's outcome when its record
    is [Processing] and the run is not cancelled, and discards it
    otherwise (sticky cancellation, duplicate or late results);
    [q_cancel] flips every non-terminal record to [Cancelled] at once.
    Each change of a record emits the record, and the first time every
    record is terminal the run emits one [RunComplete].

    The run's events become the client's socket events ([to_update],
    [to_server_event], spec section 6) and [observe] feeds them to
    [Client.on_event] in delivery order.

    Theorems: terminal statuses are absorbing; a cancel flips exactly the
    records in flight and no result is accepted afterwards; every run
    whose backends all answer, in any order, completes; the completion
    event is emitted once and last; the events agree with the run (the
    last record about each backend is its record in the run), so the
    client's response cards always show the server's records, and the
    client shows a running query exactly until the run completes. *)

From S2P Require Import Prelude JsObject Client.
From Stdlib Require Import QArith.
Local Close Scope Q_scope.

Module QueryRun.

Inductive Status := Pending | Processing | Completed | Errored | Cancelled.

#[global] Instance Status_eq_dec : EqDecision Status.
Proof. solve_decision. Defined.

Definition terminal (s : Status) : bool :=
  match s with Completed | Errored | Cancelled => true | _ => false end.

(** The order of the legal path [Pending -> Processing -> terminal]. *)
Definition rank (s : Status) : nat :=
  match s with Pending => 0 | Processing => 1 | _ => 2 end.

Record ResponseRecord := mkRecord {
  rr_model : string;
  rr_status : Status;
  rr_text : option string;      (** present iff completed *)
  rr_duration : option Q;       (** present iff completed *)
  rr_error : option string;     (** present iff error *)
}.

(** What a backend invocation ends with (spec 4.1). *)
Inductive Outcome := Success (text : string) (duration : Q) | Failure (message : string).

Inductive Event := EvRecord (r : ResponseRecord) | RunComplete.

Inductive StartError := InvalidRequest.

Record Run := mkRun {
  records : gmap string ResponseRecord;
  cancelled : bool;    (** the session's cancellation flag *)
  completed : bool;    (** the run-level completion event was emitted *)
}.

(** ** Records *)

Definition pending_record (m : string) : ResponseRecord := mkRecord m Pending None None None.

Definition mark_processing (r : ResponseRecord) : ResponseRecord :=
  match rr_status r with
  | Pending => mkRecord (rr_model r) Processing None None None
  | _ => r
  end.

(** A resolution applies to a record in flight only. *)
Definition resolve_record (o : Outcome) (r : ResponseRecord) : ResponseRecord :=
  match rr_status r, o with
  | Processing, Success t d => mkRecord (rr_model r) Completed (Some t) (Some d) None
  | Processing, Failure e => mkRecord (rr_model r) Errored None None (Some e)
  | _, _ => r
  end.

Definition cancel_record (r : ResponseRecord) : ResponseRecord :=
  if terminal (rr_status r) then r else mkRecord (rr_model r) Cancelled None None None.

(** The fields agree with the status (spec section 3). *)
Definition record_wf (r : ResponseRecord) : Prop :=
  (is_Some (rr_text r) <-> rr_status r = Completed) /\
  (is_Some (rr_duration r) <-> rr_status r = Completed) /\
  (is_Some (rr_error r) <-> rr_status r = Errored).

(** ** The run *)

Definition all_terminal (m : gmap string ResponseRecord) : bool :=
  bool_decide (map_Forall (fun _ r => terminal (rr_status r) = true) m).

(** Emit [RunComplete] the first time every record is terminal. *)
Definition close (run : Run) (evs : list Event) : Run * list Event :=
  if negb (completed run) && all_terminal (records run)
  then (mkRun (records run) (cancelled run) true, evs ++ [RunComplete])
  else (run, evs).

(** [start]: one record per distinct backend, marked [Processing], with
    one status event each. *)
Definition q_start (backends : list string) : StartError + (Run * list Event) :=
  match backends with
  | [] => inl InvalidRequest
  | _ =>
      let ms := remove_dups backends in
      let recs := (fun m => mark_processing (pending_record m)) <$> ms in
      inr (mkRun (list_to_map ((fun r => (rr_model r, r)) <$> recs)) false false, EvRecord <$> recs)
  end.

(** A backend's result. *)
Definition q_resolve (m : string) (o : Outcome) (run : Run) : Run * list Event :=
  if cancelled run then (run, []) else
  match records run !! m with
  | Some r =>
      if decide (rr_status r = Processing) then
        let r' := resolve_record o r in
        close (mkRun (<[m:=r']> (records run)) (cancelled run) (completed run)) [EvRecord r']
      else (run, [])
  | None => (run, [])
  end.

(** [cancel(session)]. *)
Definition q_cancel (run : Run) : Run * list Event :=
  let flipped := filter (fun r => terminal (rr_status r) = false) (snd <$> map_to_list (records run)) in
  close (mkRun (cancel_record <$> records run) true (completed run)) ((fun r => EvRecord (cancel_record r)) <$> flipped).

(** Operations on a started run, in the order they happen. *)
Inductive Op := OResolve (m : string) (o : Outcome) | OCancel.

Definition q_op (op : Op) (run : Run) : Run * list Event :=
  match op with OResolve m o => q_resolve m o run | OCancel => q_cancel run end.

Fixpoint exec (ops : list Op) (run : Run) : Run * list Event :=
  match ops with
  | [] => (run, [])
  | op :: ops' =>
      let '(run1, evs1) := q_op op run in
      let '(run2, evs2) := exec ops' run1 in
      (run2, evs1 ++ evs2)
  end.

Definition is_complete_event (e : Event) : bool :=
  match e with RunComplete => true | _ => false end.

Definition count_complete (evs : list Event) : nat := length (filter (fun e => is_complete_event e = true) evs).

(** The records carried by a stream of events, in order. *)
Fixpoint record_events (evs : list Event) : list ResponseRecord :=
  match evs with
  | [] => []
  | EvRecord r :: evs' => r :: record_events evs'
  | RunComplete :: evs' => record_events evs'
  end.

(** The last record about backend [m] in a stream: what an observer that
    keeps the last record per backend shows for [m]. *)
Definition last_record (m : string) (evs : list Event) : option ResponseRecord :=
  last (filter (fun r => rr_model r = m) (record_events evs)).

(** Every record is stored under its own backend's name. *)
Definition keys_wf (run : Run) : Prop := ∀ m r, records run !! m = Some r -> rr_model r = m.

(** The stream agrees with the run: for every backend, the last record
    emitted about it is its record in the run. *)
Definition agrees (evs : list Event) (run : Run) : Prop := ∀ m, last_record m evs = records run !! m.

(** ** What the client receives (spec section 6) *)

(** The wire name of a status. *)
Definition status_wire (s : Status) : string :=
  match s with
  | Pending => "pending" | Processing => "processing" | Completed => "completed"
  | Errored => "error" | Cancelled => "cancelled"
  end.

(** [response_update {model, status, content?, time?, error?}]. *)
Definition to_update (r : ResponseRecord) : Client.ResponseUpdate :=
  Client.mkResponseUpdate (rr_model r) (status_wire (rr_status r)) (rr_text r) (rr_duration r) (rr_error r).

(** A record event is a [response_update]; the run-level completion of a
    query is [query_complete]. *)
Definition to_server_event (e : Event) : Client.ServerEvent :=
  match e with
  | EvRecord r => Client.EvResponseUpdate (to_update r)
  | RunComplete => Client.EvQueryComplete
  end.

(** The client's socket listeners applied to a session's events in the
    order they are delivered. *)
Definition observe (evs : list Event) (st : Client.AppState) : Client.AppState :=
  fold_left (fun s e => Client.on_event (to_server_event e) s) evs st.

(** ** Records *)

(** A terminal record is left as it is by a late result and by a
    cancel. *)
Lemma terminal_absorbing r o :
  terminal (rr_status r) = true -> resolve_record o r = r /\ cancel_record r = r /\ mark_processing r = r.
Proof.
  destruct r as [m [] t d e]; simpl; intros H; try discriminate; repeat split; destruct o; done.
Qed.

(** No operation moves a record backwards on [Pending -> Processing ->
    terminal], and a terminal record keeps its status. *)
Theorem record_transitions_monotone r o :
  rank (rr_status r) <= rank (rr_status (mark_processing r)) /\
  rank (rr_status r) <= rank (rr_status (resolve_record o r)) /\
  rank (rr_status r) <= rank (rr_status (cancel_record r)) /\
  (terminal (rr_status r) = true ->
     rr_status (resolve_record o r) = rr_status r /\ rr_status (cancel_record r) = rr_status r).
Proof.
  destruct r as [m [] t d e]; destruct o; unfold cancel_record; simpl; repeat split; try lia; done.
Qed.

Lemma record_wf_transitions r o :
  record_wf r ->
  record_wf (mark_processing r) /\ record_wf (resolve_record o r) /\ record_wf (cancel_record r).
Proof.
  unfold record_wf. destruct r as [m [] t d e]; destruct o; unfold cancel_record; simpl;
    intros H; repeat split; try done; intuition (try discriminate; try done).
Qed.

(** ** The run *)

Lemma all_terminal_spec recs :
  all_terminal recs = true <-> ∀ m r, recs !! m = Some r -> terminal (rr_status r) = true.
Proof. unfold all_terminal. rewrite bool_decide_eq_true. done. Qed.

Lemma close_spec run evs :
  let '(run', evs') := close run evs in
  records run' = records run /\ cancelled run' = cancelled run /\
  completed run' = completed run || all_terminal (records run) /\
  evs' = evs ++ (if negb (completed run) && all_terminal (records run) then [RunComplete] else []).
Proof.
  unfold close. destruct (completed run) eqn:E1, (all_terminal (records run)) eqn:E2; simpl;
    rewrite ?app_nil_r; rewrite ?E1; naive_solver.
Qed.

Lemma count_complete_app e1 e2 : count_complete (e1 ++ e2) = count_complete e1 + count_complete e2.
Proof. unfold count_complete. by rewrite filter_app, length_app. Qed.

Lemma record_events_app e1 e2 : record_events (e1 ++ e2) = record_events e1 ++ record_events e2.
Proof. induction e1 as [|[] e1 IH]; simpl; by rewrite ?IH. Qed.

Lemma count_complete_records {A} (f : A -> ResponseRecord) (rs : list A) :
  count_complete ((fun r => EvRecord (f r)) <$> rs) = 0.
Proof. induction rs; simpl; [done|]. unfold count_complete in *. by rewrite filter_cons_False. Qed.

Lemma close_complete run evs :
  count_complete evs = 0 ->
  let '(run', evs') := close run evs in
  (completed run = true -> completed run' = true) /\
  count_complete evs' = (if completed run then 0 else if completed run' then 1 else 0).
Proof.
  intros H0. pose proof (close_spec run evs) as Hc. destruct (close run evs) as [run' evs'].
  destruct Hc as (_ & _ & -> & ->). rewrite count_complete_app, H0.
  destruct (completed run), (all_terminal _); simpl; split; done.
Qed.

(** One operation emits [RunComplete] exactly when it sets [completed],
    and [completed] is never reset. *)
Lemma q_op_complete op run :
  let '(run', evs) := q_op op run in
  (completed run = true -> completed run' = true) /\
  count_complete evs = (if completed run then 0 else if completed run' then 1 else 0).
Proof.
  destruct op as [m o|]; simpl.
  - unfold q_resolve. destruct (cancelled run); [by destruct (completed run)|].
    destruct (records run !! m) as [r|]; [|by destruct (completed run)].
    case_decide; [|by destruct (completed run)].
    by apply (close_complete (mkRun _ _ (completed run))).
  - unfold q_cancel. apply (close_complete (mkRun _ _ (completed run))), count_complete_records.
Qed.

(** Over any sequence of operations, the run emits [RunComplete] at most
    once: exactly once when it goes from running to completed. *)
Theorem exec_complete_once ops run :
  let '(run', evs) := exec ops run in
  (completed run = true -> completed run' = true) /\
  count_complete evs = (if completed run then 0 else if completed run' then 1 else 0).
Proof.
  revert run. induction ops as [|op ops IH]; intros run; simpl; [by destruct (completed run)|].
  pose proof (q_op_complete op run) as Hop. destruct (q_op op run) as [run1 evs1].
  specialize (IH run1). destruct (exec ops run1) as [run2 evs2].
  destruct Hop as [Hm1 Hc1], IH as [Hm2 Hc2]. rewrite count_complete_app, Hc1, Hc2.
  destruct (completed run) eqn:E0; [rewrite (Hm1 eq_refl) in Hc2 |- *; split; auto|].
  destruct (completed run1) eqn:E1; [rewrite (Hm2 eq_refl); split; auto|].
  split; [done|]. by destruct (completed run2).
Qed.

(** ** Cancellation *)

Lemma cancel_record_terminal r : terminal (rr_status (cancel_record r)) = true.
Proof. unfold cancel_record. by destruct (terminal (rr_status r)) eqn:E. Qed.

Lemma fmap_cancel_all_terminal recs : all_terminal (cancel_record <$> recs) = true.
Proof.
  apply all_terminal_spec. intros m r. rewrite lookup_fmap.
  destruct (recs !! m); simpl; [intros [= <-]; apply cancel_record_terminal|done].
Qed.

Lemma fmap_cancel_id recs : all_terminal recs = true -> cancel_record <$> recs = recs.
Proof.
  rewrite all_terminal_spec. intros H. apply map_eq. intros m. rewrite lookup_fmap.
  destruct (recs !! m) as [r|] eqn:E; simpl; [|done]. f_equal.
  by destruct (terminal_absorbing r (Failure "") (H m r E)) as (_ & Hc & _).
Qed.

(** A cancel of a completed run with every record terminal only sets the
    cancellation flag. *)
Lemma q_cancel_quiet run :
  completed run = true -> all_terminal (records run) = true ->
  q_cancel run = (mkRun (records run) true true, []).
Proof.
  intros Hd Ht. unfold q_cancel. rewrite (fmap_cancel_id _ Ht).
  replace (filter _ _) with (@nil ResponseRecord).
  - unfold close. simpl. by rewrite Hd.
  - symmetry. apply filter_all_false. intros r Hr Hf.
    apply list_elem_of_fmap in Hr as ([m r'] & -> & Hin%elem_of_map_to_list).
    apply all_terminal_spec with (m := m) (r := r') in Ht; [simpl in Hf; congruence|done].
Qed.

(** Once a run is completed with every record terminal, no operation
    emits anything or undoes the completion. *)
Lemma q_op_quiet op run :
  completed run = true -> all_terminal (records run) = true ->
  (q_op op run).2 = [] /\ completed (q_op op run).1 = true /\ all_terminal (records (q_op op run).1) = true.
Proof.
  intros Hd Ht. destruct op as [m o|]; simpl; [|by rewrite q_cancel_quiet].
  unfold q_resolve. destruct (cancelled run); [done|].
  destruct (records run !! m) as [r|] eqn:Er; [|done]. case_decide as Hp; [|done].
  apply all_terminal_spec with (m := m) (r := r) in Ht; [|done]. by rewrite Hp in Ht.
Qed.

Lemma exec_quiet ops run :
  completed run = true -> all_terminal (records run) = true ->
  (exec ops run).2 = [] /\ completed (exec ops run).1 = true /\ all_terminal (records (exec ops run).1) = true.
Proof.
  revert run. induction ops as [|op ops IH]; intros run Hd Ht; simpl; [done|].
  destruct (q_op_quiet op run Hd Ht) as (He & Hd1 & Ht1). destruct (q_op op run) as [run1 evs1]. simpl in *.
  destruct (IH run1 Hd1 Ht1) as (He2 & Hd2 & Ht2). destruct (exec ops run1) as [run2 evs2]. simpl in *.
  by subst.
Qed.

(** A cancelled, completed run with every record terminal: no operation
    changes it or emits anything. *)
Lemma exec_frozen ops run :
  cancelled run = true -> completed run = true -> all_terminal (records run) = true ->
  exec ops run = (run, []).
Proof.
  intros Hc Hd Ht. induction ops as [|op ops IH]; simpl; [done|].
  assert (Hop : q_op op run = (run, [])).
  { destruct op as [m o|]; simpl; [unfold q_resolve; by rewrite Hc|].
    rewrite q_cancel_quiet by done. destruct run; simpl in *; by subst. }
  rewrite Hop, IH. done.
Qed.

(** The operation that completes a run ends its events with
    [RunComplete], and leaves every record terminal. *)
Lemma close_flip run evs :
  completed run = false -> completed (close run evs).1 = true ->
  last (close run evs).2 = Some RunComplete /\ all_terminal (records (close run evs).1) = true.
Proof.
  unfold close. intros Hc. rewrite Hc. simpl.
  destruct (all_terminal (records run)) eqn:E; simpl; [|congruence].
  intros _. by rewrite last_snoc.
Qed.

Lemma q_op_flip op run :
  completed run = false -> completed (q_op op run).1 = true ->
  last (q_op op run).2 = Some RunComplete /\ all_terminal (records (q_op op run).1) = true.
Proof.
  intros Hc. destruct op as [m o|]; simpl; [|by apply close_flip].
  unfold q_resolve. destruct (cancelled run); [simpl; congruence|].
  destruct (records run !! m); [|simpl; congruence]. case_decide; [|simpl; congruence].
  by apply close_flip.
Qed.

Lemma exec_last ops run :
  completed run = false -> completed (exec ops run).1 = true -> last (exec ops run).2 = Some RunComplete.
Proof.
  revert run. induction ops as [|op ops IH]; intros run Hc; simpl; [congruence|].
  pose proof (q_op_flip op run Hc) as Hf. destruct (q_op op run) as [run1 evs1]. simpl in *.
  destruct (completed run1) eqn:E1.
  - destruct (Hf eq_refl) as [Hl Ht]. destruct (exec_quiet ops run1 E1 Ht) as (He & _).
    destruct (exec ops run1) as [run2 evs2]. simpl in *. subst. by rewrite app_nil_r.
  - specialize (IH run1 E1). destruct (exec ops run1) as [run2 evs2]. simpl in *.
    intros Hd. by rewrite last_app, (IH Hd).
Qed.

(** [cancel(session)] flips exactly the records in flight to
    [Cancelled] and leaves the terminal ones, emits one record event per
    flipped record and the run-level completion (unless it was already
    emitted); afterwards no operation (a late success or error of a
    cancelled invocation, another cancel) changes the run or emits
    anything. *)
Theorem q_cancel_spec run :
  let '(run', evs) := q_cancel run in
  (∀ m, records run' !! m = cancel_record <$> records run !! m) /\
  length (filter (fun e => is_complete_event e = false) evs) =
    length (filter (fun r => terminal (rr_status r) = false) (snd <$> map_to_list (records run))) /\
  count_complete evs = (if completed run then 0 else 1) /\
  ∀ ops, exec ops run' = (run', []).
Proof.
  unfold q_cancel.
  set (flipped := filter (fun r => terminal (rr_status r) = false) (snd <$> map_to_list (records run))).
  pose proof (close_spec (mkRun (cancel_record <$> records run) true (completed run))
                ((fun r => EvRecord (cancel_record r)) <$> flipped)) as Hc.
  destruct (close _ _) as [run' evs]. simpl in Hc.
  rewrite fmap_cancel_all_terminal, orb_true_r in Hc. destruct Hc as (Hr & Hcan & Hcomp & ->).
  split; [intros m; by rewrite Hr, lookup_fmap|]. split; [|split].
  - rewrite andb_true_r, filter_app.
    rewrite (filter_all_false _ (if negb (completed run) then [RunComplete] else [])).
    + rewrite app_nil_r, filter_all_true; [apply length_fmap|].
      intros e (r & -> & _)%list_elem_of_fmap. done.
    + destruct (completed run); simpl; [set_solver|]. intros e ->%list_elem_of_singleton. done.
  - rewrite count_complete_app, count_complete_records. by destruct (completed run).
  - intros ops. apply exec_frozen; [done|done|]. rewrite Hr. apply fmap_cancel_all_terminal.
Qed.

(** ** Completion of a run whose backends all answer *)

Section Liveness.
Variable backends : list string.

(** The run invariant while no cancel happens. *)
Definition live_inv (run : Run) : Prop :=
  cancelled run = false /\
  (∀ m, is_Some (records run !! m) <-> m ∈ backends) /\
  (∀ m r, records run !! m = Some r -> rr_status r = Processing \/ terminal (rr_status r) = true) /\
  (all_terminal (records run) = true -> completed run = true).

Definition answered (run : Run) (m : string) : Prop :=
  ∃ r, records run !! m = Some r /\ terminal (rr_status r) = true.

Lemma lookup_list_to_map_graph (f : string -> ResponseRecord) (l : list string) m :
  (list_to_map ((fun k => (k, f k)) <$> l) : gmap string ResponseRecord) !! m =
    if decide (m ∈ l) then Some (f m) else None.
Proof.
  induction l as [|k l IH]; [done|]. rewrite fmap_cons, list_to_map_cons, lookup_insert, IH.
  destruct (decide (k = m)) as [->|Hne]; [by rewrite decide_True by (by left)|].
  destruct (decide (m ∈ l)); [by rewrite decide_True by (by right)|].
  rewrite decide_False; [done|]. intros [?|?]%elem_of_cons; congruence.
Qed.

Lemma q_start_lookup run0 evs0 m :
  q_start backends = inr (run0, evs0) ->
  records run0 !! m = if decide (m ∈ backends) then Some (mkRecord m Processing None None None) else None.
Proof.
  unfold q_start. destruct backends as [|b bs] eqn:Hb; [done|]. rewrite <- Hb. intros [= <- <-]. simpl.
  rewrite <- list_fmap_compose. unfold compose. simpl.
  rewrite (lookup_list_to_map_graph (fun k => mkRecord k Processing None None None)).
  by rewrite (decide_ext (m ∈ remove_dups backends) (m ∈ backends)) by apply elem_of_remove_dups.
Qed.

Lemma q_start_flags run0 evs0 :
  q_start backends = inr (run0, evs0) ->
  cancelled run0 = false /\ completed run0 = false /\ count_complete evs0 = 0 /\ backends ≠ [].
Proof.
  unfold q_start. destruct backends; [done|]. intros [= <- <-].
  split; [done|]. split; [done|]. split; [apply count_complete_records|done].
Qed.

Lemma q_start_inv run0 evs0 :
  q_start backends = inr (run0, evs0) -> live_inv run0.
Proof.
  intros Hs. destruct (q_start_flags _ _ Hs) as (Hc & _ & _ & Hne).
  pose proof (fun m => q_start_lookup run0 evs0 m Hs) as Hl.
  split; [done|]. split; [|split].
  - intros m. rewrite Hl. case_decide; split; try done; by intros [? ?].
  - intros m r. rewrite Hl. case_decide; [intros [= <-]; by left|done].
  - intros Ht. exfalso. rewrite all_terminal_spec in Ht.
    assert (Hb : ∃ b, b ∈ backends) by (clear -Hne; destruct backends as [|b ?]; [done|exists b; left]).
    destruct Hb as [b Hb]. specialize (Ht b). rewrite Hl, decide_True in Ht by done.
    by specialize (Ht _ eq_refl).
Qed.

Lemma resolve_record_terminal o r :
  rr_status r = Processing -> terminal (rr_status (resolve_record o r)) = true.
Proof. destruct r as [? [] ? ? ?], o; simpl; congruence. Qed.

(** A result either leaves the run as it is or resolves the record in
    flight of its backend. *)
Lemma q_resolve_cases m o run :
  cancelled run = false ->
  (q_resolve m o run = (run, []) /\ ∀ r, records run !! m = Some r -> rr_status r ≠ Processing) \/
  ∃ r, records run !! m = Some r /\ rr_status r = Processing /\
    let R := <[m:=resolve_record o r]> (records run) in
    records (q_resolve m o run).1 = R /\ cancelled (q_resolve m o run).1 = false /\
    completed (q_resolve m o run).1 = completed run || all_terminal R /\
    record_events (q_resolve m o run).2 = [resolve_record o r].
Proof.
  intros Hc. unfold q_resolve. rewrite Hc.
  destruct (records run !! m) as [r|] eqn:Er; [|by left].
  case_decide as Hp; [right|left; naive_solver]. exists r. split; [done|]. split; [done|].
  pose proof (close_spec (mkRun (<[m:=resolve_record o r]> (records run)) false (completed run))
                [EvRecord (resolve_record o r)]) as Hcl.
  destruct (close _ _) as [run' evs]. simpl in *. destruct Hcl as (? & ? & ? & ->).
  destruct (_ && _); simpl; naive_solver.
Qed.

Lemma q_resolve_inv m o run : live_inv run -> live_inv (q_resolve m o run).1.
Proof.
  intros Hinv. pose proof Hinv as (Hc & Hdom & Hst & Hcomp).
  destruct (q_resolve_cases m o run Hc) as [[-> _]|(r & Er & Hp & Hr & Hc' & Hcomp' & _)]; [done|].
  split; [done|]. rewrite Hr. split; [|split].
  - intros m'. rewrite lookup_insert. case_decide as E; [subst m'|done].
    rewrite <- Hdom, Er. done.
  - intros m' r'. rewrite lookup_insert. case_decide; [intros [= <-]|apply Hst].
    right. by apply resolve_record_terminal.
  - intros Ht. by rewrite Hcomp', Ht, orb_true_r.
Qed.

Lemma q_resolve_answered m o run :
  live_inv run -> m ∈ backends -> answered (q_resolve m o run).1 m.
Proof.
  intros Hinv Hm. pose proof Hinv as (Hc & Hdom & Hst & _).
  destruct (q_resolve_cases m o run Hc) as [[-> Hn]|(r & Er & Hp & Hr & _)].
  - apply Hdom in Hm as [r Er]. exists r. split; [done|].
    destruct (Hst m r Er) as [Hp|]; [|done]. by destruct (Hn r Er).
  - exists (resolve_record o r). rewrite Hr, lookup_insert, decide_True by done.
    split; [done|]. by apply resolve_record_terminal.
Qed.

Lemma q_resolve_answered_persist m m' o run :
  live_inv run -> answered run m' -> answered (q_resolve m o run).1 m'.
Proof.
  intros (Hc & _) [r' [Er' Ht]].
  destruct (q_resolve_cases m o run Hc) as [[-> _]|(r & Er & Hp & Hr & _)]; [by exists r'|].
  exists r'. rewrite Hr, lookup_insert, decide_False; [done|].
  intros ->. rewrite Er in Er'. injection Er' as <-. by rewrite Hp in Ht.
Qed.

(** The results of the backends, in the order they arrive. *)
Definition answers_ops (answers : list (string * Outcome)) : list Op :=
  (fun a => OResolve a.1 a.2) <$> answers.

Lemma exec_answers answers run :
  live_inv run ->
  live_inv (exec (answers_ops answers) run).1 /\
  ∀ m, m ∈ backends -> answered run m \/ m ∈ answers.*1 -> answered (exec (answers_ops answers) run).1 m.
Proof.
  revert run. induction answers as [|[m o] answers IH]; intros run Hinv; simpl.
  { split; [done|]. intros m _ [?|?%elem_of_nil]; done. }
  pose proof (q_resolve_inv m o run Hinv) as Hinv1.
  pose proof (q_resolve_answered m o run Hinv) as Hnew.
  pose proof (fun m' => q_resolve_answered_persist m m' o run Hinv) as Hold.
  destruct (q_resolve m o run) as [run1 evs1]. simpl in *.
  destruct (IH run1 Hinv1) as [Hinv2 Hans]. destruct (exec _ run1) as [run2 evs2]. simpl in *.
  split; [done|]. intros m' Hm' Hor. apply Hans; [done|].
  rewrite elem_of_cons in Hor. destruct Hor as [Ha|[->|Hl]]; [left; by apply Hold|left; by apply Hnew|by right].
Qed.

End Liveness.

(** Spec 4.1 and 8: a started run in which every backend returns a
    result, in any order, possibly with duplicate and late results,
    completes: every record is terminal, [completed] is set, and the
    start events together with the events of the results hold exactly one
    [RunComplete]. *)
Theorem q_run_completes backends answers run0 evs0 :
  q_start backends = inr (run0, evs0) ->
  backends ⊆ answers.*1 ->
  let '(run', evs) := exec (answers_ops answers) run0 in
  completed run' = true /\ count_complete (evs0 ++ evs) = 1 /\
  ∀ m, m ∈ backends -> answered run' m.
Proof.
  intros Hs Hsub. pose proof (q_start_inv backends _ _ Hs) as Hinv.
  destruct (q_start_flags backends _ _ Hs) as (_ & Hc0 & Hcnt0 & _).
  pose proof (exec_answers backends answers run0 Hinv) as [Hinv' Hans].
  pose proof (exec_complete_once (answers_ops answers) run0) as Honce.
  destruct (exec _ run0) as [run' evs]. simpl in *.
  assert (Hall : ∀ m, m ∈ backends -> answered run' m) by (intros m Hm; apply Hans; [done|right; by apply Hsub]).
  destruct Hinv' as (_ & Hdom & _ & Hcomp).
  assert (Hdone : completed run' = true).
  { apply Hcomp, all_terminal_spec. intros m r Er.
    destruct (Hall m) as [r' [Er' Ht]]; [apply Hdom; by rewrite Er|]. congruence. }
  split; [done|]. split; [|done].
  destruct Honce as [_ Hcnt]. by rewrite count_complete_app, Hcnt0, Hcnt, Hc0, Hdone.
Qed.


(** Spec 4.2 step 4 and section 6: over any sequence of results and
    cancels applied to a started run, the run-level completion event is
    emitted exactly when the run is completed, at most once, and nothing
    is emitted after it. *)
Theorem run_complete_last backends ops run0 evs0 :
  q_start backends = inr (run0, evs0) ->
  let '(run', evs) := exec ops run0 in
  count_complete (evs0 ++ evs) = (if completed run' then 1 else 0) /\
  (completed run' = true -> last (evs0 ++ evs) = Some RunComplete).
Proof.
  intros Hs. destruct (q_start_flags backends _ _ Hs) as (_ & Hc0 & Hcnt0 & _).
  pose proof (exec_complete_once ops run0) as Honce. pose proof (exec_last ops run0 Hc0) as Hl.
  destruct (exec ops run0) as [run' evs]. simpl in *. rewrite Hc0 in Honce. destruct Honce as [_ Hcnt].
  rewrite count_complete_app, Hcnt0, Hcnt. split; [done|]. intros Hd. by rewrite last_app, (Hl Hd).
Qed.

(** ** The event stream agrees with the run *)

Lemma resolve_record_model o r : rr_model (resolve_record o r) = rr_model r.
Proof. by destruct r as [? [] ? ? ?], o. Qed.

Lemma cancel_record_model r : rr_model (cancel_record r) = rr_model r.
Proof. unfold cancel_record. by destruct (terminal _). Qed.

Lemma record_events_records (rs : list ResponseRecord) : record_events (EvRecord <$> rs) = rs.
Proof. induction rs; simpl; by f_equal. Qed.

Lemma last_record_app m e1 e2 :
  last_record m (e1 ++ e2) = match last_record m e2 with Some r => Some r | None => last_record m e1 end.
Proof. unfold last_record. by rewrite record_events_app, filter_app, last_app. Qed.

Lemma q_start_agrees backends run0 evs0 :
  q_start backends = inr (run0, evs0) -> keys_wf run0 /\ agrees evs0 run0.
Proof.
  intros Hs. pose proof (fun m => q_start_lookup backends run0 evs0 m Hs) as Hl. split.
  { intros m r. rewrite Hl. case_decide; [by intros [= <-]|done]. }
  assert (He : record_events evs0 = (fun k => mkRecord k Processing None None None) <$> remove_dups backends).
  { revert Hs. unfold q_start. destruct backends; [done|]. intros [= <- <-].
    by rewrite record_events_records. }
  intros m. unfold last_record. rewrite He, Hl.
  assert (Hel : ∀ x, x ∈ filter (fun r => rr_model r = m) ((fun k => mkRecord k Processing None None None) <$> remove_dups backends)
                  <-> x = mkRecord m Processing None None None /\ m ∈ backends).
  { intros x. rewrite list_elem_of_filter, list_elem_of_fmap.
    setoid_rewrite elem_of_remove_dups. naive_solver. }
  case_decide as Hm; [apply last_const; naive_solver|apply last_empty; naive_solver].
Qed.

Lemma q_resolve_agrees m o run evs :
  keys_wf run -> agrees evs run ->
  keys_wf (q_resolve m o run).1 /\ agrees (evs ++ (q_resolve m o run).2) (q_resolve m o run).1.
Proof.
  intros Hk Ha. destruct (cancelled run) eqn:Hc.
  { unfold q_resolve. rewrite Hc. simpl. by rewrite app_nil_r. }
  destruct (q_resolve_cases m o run Hc) as [[-> _]|(r & Er & _ & Hr & _ & _ & He)];
    [simpl; by rewrite app_nil_r|].
  pose proof (Hk m r Er) as Hmr. unfold keys_wf, agrees. rewrite Hr. split.
  - intros m' r'. rewrite lookup_insert. case_decide; [intros [= <-]|apply Hk].
    rewrite resolve_record_model. congruence.
  - intros m'. rewrite last_record_app, lookup_insert, <- Ha. unfold last_record at 1. rewrite He.
    destruct (decide (m = m')) as [<-|Hne].
    + rewrite filter_cons_True by (by rewrite resolve_record_model). done.
    + rewrite filter_cons_False by (rewrite resolve_record_model; congruence). done.
Qed.

(** The last record about [m] among the events of a cancel: the flipped
    record of [m] when [m] was in flight, nothing otherwise. *)
Lemma cancel_flipped_last run m :
  keys_wf run ->
  last (filter (fun r => rr_model r = m)
          (cancel_record <$> filter (fun r => terminal (rr_status r) = false) (snd <$> map_to_list (records run)))) =
  match records run !! m with
  | Some r => if terminal (rr_status r) then None else Some (cancel_record r)
  | None => None
  end.
Proof.
  intros Hk.
  assert (Hel : ∀ x, x ∈ filter (fun r => rr_model r = m)
                  (cancel_record <$> filter (fun r => terminal (rr_status r) = false) (snd <$> map_to_list (records run)))
                <-> ∃ r, records run !! m = Some r /\ terminal (rr_status r) = false /\ x = cancel_record r).
  { intros x. rewrite list_elem_of_filter, list_elem_of_fmap. split.
    - intros [Hm (r & -> & Hr)]. apply list_elem_of_filter in Hr as [Ht Hr].
      apply list_elem_of_fmap in Hr as ([k r'] & -> & Hkr%elem_of_map_to_list). simpl in *.
      rewrite cancel_record_model in Hm. rewrite <- Hm, (Hk _ _ Hkr). eauto.
    - intros (r & Er & Ht & ->). rewrite cancel_record_model, (Hk _ _ Er).
      split; [done|]. exists r. split; [done|]. apply list_elem_of_filter. split; [done|].
      apply list_elem_of_fmap. exists (m, r). split; [done|]. by apply elem_of_map_to_list. }
  destruct (records run !! m) as [r|] eqn:Er; [destruct (terminal (rr_status r)) eqn:Et|].
  - apply last_empty. intros x (r' & Er' & Ht & _)%Hel. congruence.
  - apply last_const; [intros x (r' & Er' & _ & ->)%Hel; congruence|]. apply Hel. eauto.
  - apply last_empty. intros x (r' & Er' & _)%Hel. congruence.
Qed.

Lemma q_cancel_agrees run evs :
  keys_wf run -> agrees evs run ->
  keys_wf (q_cancel run).1 /\ agrees (evs ++ (q_cancel run).2) (q_cancel run).1.
Proof.
  intros Hk Ha. unfold q_cancel.
  pose proof (close_spec (mkRun (cancel_record <$> records run) true (completed run))
                ((fun r => EvRecord (cancel_record r)) <$> filter (fun r => terminal (rr_status r) = false)
                   (snd <$> map_to_list (records run)))) as Hc.
  destruct (close _ _) as [run' evs']. simpl in Hc |- *. destruct Hc as (Hr & _ & _ & ->). split.
  - intros m r. rewrite Hr, lookup_fmap. destruct (records run !! m) as [r0|] eqn:E; [|done].
    intros [= <-]. rewrite cancel_record_model. by apply Hk.
  - intros m. rewrite last_record_app, Hr, lookup_fmap. unfold last_record at 1.
    rewrite record_events_app, (list_fmap_compose cancel_record EvRecord), record_events_records.
    replace (record_events (if negb (completed run) && all_terminal (cancel_record <$> records run)
                            then [RunComplete] else [])) with (@nil ResponseRecord) by (by destruct (_ && _)).
    rewrite app_nil_r, cancel_flipped_last by done. rewrite Ha.
    destruct (records run !! m) as [r|]; simpl; [|done]. unfold cancel_record.
    by destruct (terminal (rr_status r)).
Qed.

(** Over any sequence of results and cancels, the events emitted agree
    with the run. *)
Lemma exec_agrees ops run evs :
  keys_wf run -> agrees evs run ->
  keys_wf (exec ops run).1 /\ agrees (evs ++ (exec ops run).2) (exec ops run).1.
Proof.
  revert run evs. induction ops as [|op ops IH]; intros run evs Hk Ha; simpl; [by rewrite app_nil_r|].
  assert (Hop : keys_wf (q_op op run).1 /\ agrees (evs ++ (q_op op run).2) (q_op op run).1)
    by (destruct op; [by apply q_resolve_agrees|by apply q_cancel_agrees]).
  destruct (q_op op run) as [run1 evs1]. simpl in Hop. destruct Hop as [Hk1 Ha1].
  specialize (IH run1 (evs ++ evs1) Hk1 Ha1). destruct (exec ops run1) as [run2 evs2].
  simpl in *. by rewrite app_assoc.
Qed.

Lemma exec_app o1 o2 run :
  exec (o1 ++ o2) run =
    let '(run1, evs1) := exec o1 run in let '(run2, evs2) := exec o2 run1 in (run2, evs1 ++ evs2).
Proof.
  revert run. induction o1 as [|op o1 IH]; intros run; simpl.
  - by destruct (exec o2 run).
  - destruct (q_op op run) as [r1 e1]. rewrite IH. destruct (exec o1 r1) as [r2 e2].
    destruct (exec o2 r2) as [r3 e3]. by rewrite app_assoc.
Qed.

Lemma close_records run evs : records (close run evs).1 = records run.
Proof. unfold close. by destruct (_ && _). Qed.

(** No operation adds or removes a backend of the run. *)
Lemma q_op_dom op run m : is_Some (records (q_op op run).1 !! m) <-> is_Some (records run !! m).
Proof.
  destruct op as [m' o|]; simpl.
  - unfold q_resolve. destruct (cancelled run); [done|].
    destruct (records run !! m') as [r|] eqn:Er; [|done]. case_decide; [|done].
    rewrite close_records. simpl. rewrite lookup_insert. case_decide; [subst; by rewrite Er|done].
  - unfold q_cancel. rewrite close_records. simpl. by rewrite lookup_fmap, fmap_is_Some.
Qed.

Lemma exec_dom ops run m : is_Some (records (exec ops run).1 !! m) <-> is_Some (records run !! m).
Proof.
  revert run. induction ops as [|op ops IH]; intros run; simpl; [done|].
  pose proof (q_op_dom op run m) as Hd. destruct (q_op op run) as [run1 evs1].
  specialize (IH run1). destruct (exec ops run1) as [run2 evs2]. simpl in *. by rewrite IH.
Qed.

(** ** What the client shows of a run *)

Lemma count_complete_cons e evs :
  count_complete (e :: evs) = (if is_complete_event e then 1 else 0) + count_complete evs.
Proof.
  unfold count_complete. destruct e; [rewrite filter_cons_False|rewrite filter_cons_True]; done.
Qed.

Lemma responses_observe evs st :
  Client.responses (observe evs st) = obj_index Client.ru_model (to_update <$> record_events evs) (Client.responses st).
Proof.
  revert st. induction evs as [|[r|] evs IH]; intros st; simpl; [done| |].
  - rewrite IH, Client.responses_on_response_update. done.
  - rewrite IH. by destruct st.
Qed.

Lemma last_updates k rs :
  last (filter (fun u => Client.ru_model u = k) (to_update <$> rs)) =
    to_update <$> last (filter (fun r => rr_model r = k) rs).
Proof.
  induction rs as [|r rs IH]; [done|]. rewrite fmap_cons, !filter_cons. simpl.
  case_decide; rewrite ?last_cons, IH; [|done].
  by destruct (last (filter (fun r => rr_model r = k) rs)).
Qed.

(** The client shows, for each backend, the last record the stream
    carried about it, and what it showed before otherwise. *)
Lemma observe_get evs st k :
  obj_wf (Client.responses st) ->
  obj_get (Client.responses (observe evs st)) k =
    match last_record k evs with Some r => Some (to_update r) | None => obj_get (Client.responses st) k end.
Proof.
  intros Hwf. rewrite responses_observe, obj_index_get by done. unfold last_record.
  rewrite last_updates. by destruct (last _).
Qed.

(** The client shows a running query until it receives [query_complete]. *)
Lemma isQuerying_observe evs st :
  Client.isQuerying (observe evs st) = Client.isQuerying st && bool_decide (count_complete evs = 0).
Proof.
  revert st. induction evs as [|e evs IH]; intros st; [by rewrite andb_true_r|].
  rewrite count_complete_cons. destruct e as [r|]; simpl; rewrite IH; [by destruct st|].
  destruct st. simpl. by rewrite andb_false_r.
Qed.

Lemma q_cancel_completes run :
  completed (q_cancel run).1 = true /\ all_terminal (records (q_cancel run).1) = true.
Proof.
  unfold q_cancel. pose proof (close_spec (mkRun (cancel_record <$> records run) true (completed run))
    ((fun r => EvRecord (cancel_record r)) <$> filter (fun r => terminal (rr_status r) = false)
       (snd <$> map_to_list (records run)))) as Hc.
  destruct (close _ _) as [run' evs]. simpl in *. destruct Hc as (-> & _ & -> & _).
  by rewrite fmap_cancel_all_terminal, orb_true_r.
Qed.

(** ** The client's view of a run *)

(** C22: Spec sections 4.1, 4.2 and 8, seen by the client: when every backend of
    a started query returns a result, in any order and with duplicates,
    the run emits exactly one completion, and the client that receives
    the run's events stops showing a running query and shows, for every
    backend, the backend's terminal record. *)
Theorem observed_query_completes backends answers run0 evs0 st :
  q_start backends = inr (run0, evs0) -> backends ⊆ answers.*1 -> obj_wf (Client.responses st) ->
  let '(run', evs) := exec (answers_ops answers) run0 in
  count_complete (evs0 ++ evs) = 1 /\ Client.isQuerying (observe (evs0 ++ evs) st) = false /\
  ∀ m, m ∈ backends -> ∃ r, records run' !! m = Some r /\ terminal (rr_status r) = true /\
    obj_get (Client.responses (observe (evs0 ++ evs) st)) m = Some (to_update r).
Proof.
  intros Hs Hsub Hwf. pose proof (q_run_completes backends answers run0 evs0 Hs Hsub) as Hrun.
  destruct (q_start_agrees backends run0 evs0 Hs) as [Hk Ha].
  pose proof (exec_agrees (answers_ops answers) run0 evs0 Hk Ha) as [_ Ha'].
  destruct (exec _ run0) as [run' evs]. simpl in *. destruct Hrun as (_ & Hcnt & Hans).
  split; [done|]. split; [by rewrite isQuerying_observe, Hcnt, andb_false_r|].
  intros m Hm. destruct (Hans m Hm) as (r & Er & Ht). exists r.
  split; [done|]. split; [done|]. by rewrite observe_get, Ha', Er.
Qed.

(** C23: Spec section 1, "a consistent view": after any sequence of results
    and cancels, the card the client shows for each backend of the run is
    the backend's record in the server's run; the cards of other models
    are left as they were. *)
Theorem observed_view_agrees backends ops run0 evs0 st :
  q_start backends = inr (run0, evs0) -> obj_wf (Client.responses st) ->
  let '(run', evs) := exec ops run0 in
  ∀ m, obj_get (Client.responses (observe (evs0 ++ evs) st)) m =
    match records run' !! m with Some r => Some (to_update r) | None => obj_get (Client.responses st) m end.
Proof.
  intros Hs Hwf. destruct (q_start_agrees backends run0 evs0 Hs) as [Hk Ha].
  pose proof (exec_agrees ops run0 evs0 Hk Ha) as [_ Ha'].
  destruct (exec ops run0) as [run' evs]. intros m. by rewrite observe_get, Ha'.
Qed.

(** C24: Spec 4.2 step 5 and section 6, seen by the client: a cancel after any
    sequence of operations flips exactly the records in flight, the client
    shows each backend's record after the cancel and no running query, and
    no operation after the cancel emits anything. *)
Theorem observed_cancel backends ops ops' run0 evs0 st :
  q_start backends = inr (run0, evs0) -> obj_wf (Client.responses st) ->
  let '(run1, evs1) := exec ops run0 in
  let '(run2, evs2) := q_cancel run1 in
  exec (ops ++ OCancel :: ops') run0 = (run2, evs1 ++ evs2) /\
  Client.isQuerying (observe (evs0 ++ evs1 ++ evs2) st) = false /\
  ∀ m, m ∈ backends -> ∃ r1, records run1 !! m = Some r1 /\ records run2 !! m = Some (cancel_record r1) /\
    obj_get (Client.responses (observe (evs0 ++ evs1 ++ evs2) st)) m = Some (to_update (cancel_record r1)).
Proof.
  intros Hs Hwf. destruct (q_start_agrees backends run0 evs0 Hs) as [Hk Ha].
  pose proof (run_complete_last backends (ops ++ [OCancel]) run0 evs0 Hs) as Hlast.
  pose proof (exec_agrees (ops ++ [OCancel]) run0 evs0 Hk Ha) as [_ Ha'].
  pose proof (fun m => exec_dom ops run0 m) as Hdom. rewrite exec_app in Hlast, Ha' |- *.
  destruct (exec ops run0) as [run1 evs1]. simpl in *.
  pose proof (q_cancel_spec run1) as Hspec. pose proof (q_cancel_completes run1) as [Hc _].
  destruct (q_cancel run1) as [run2 evs2]. destruct Hspec as (Hr & _ & _ & Hfrozen). simpl in *.
  rewrite !app_nil_r in Hlast, Ha'. rewrite Hfrozen, app_nil_r. split; [done|].
  split; [rewrite isQuerying_observe, (proj1 Hlast), Hc; apply andb_false_r|].
  intros m Hm. destruct (proj2 (Hdom m)) as [r1 E1].
  { rewrite (q_start_lookup backends run0 evs0 m Hs), decide_True by done. eauto. }
  exists r1. rewrite Hr, E1. split; [done|]. split; [done|]. by rewrite observe_get, Ha', Hr, E1.
Qed.

(** C25: Spec 4.2 step 4, seen by the client: whatever results and cancels
    arrive, the client shows the query running exactly until the run is
    completed, and the completion is the last event it receives. *)
Theorem observed_running_until_complete backends ops run0 evs0 st :
  q_start backends = inr (run0, evs0) ->
  let '(run', evs) := exec ops run0 in
  Client.isQuerying (observe (evs0 ++ evs) st) = Client.isQuerying st && negb (completed run') /\
  (completed run' = true -> last (evs0 ++ evs) = Some RunComplete).
Proof.
  intros Hs. pose proof (run_complete_last backends ops run0 evs0 Hs) as Hlast.
  destruct (exec ops run0) as [run' evs]. destruct Hlast as [Hcnt Hl].
  split; [|done]. rewrite isQuerying_observe, Hcnt. by destruct (completed run').
Qed.

(** ** Scenarios *)

Definition three_backends : list string := ["llama2"; "mistral"; "phi"].

(** Spec section 8: three backends, one of which fails, the others
    answering out of order, with a duplicate late result. *)
Definition three_answers : list (string * Outcome) :=
  [("mistral", Success "4" 1); ("llama2", Failure "timeout"); ("mistral", Success "5" 2);
   ("phi", Success "four" 3)].

Definition event_status (e : Event) : option Status :=
  match e with EvRecord r => Some (rr_status r) | RunComplete => None end.

(** The events of the scenario: three [Processing] records, then the three
    terminal records in arrival order (the duplicate discarded), then one
    [RunComplete]. *)
Example three_backends_events :
  match q_start three_backends with
  | inr (run0, evs0) => event_status <$> (evs0 ++ (exec (answers_ops three_answers) run0).2)
  | inl _ => []
  end =
  [Some Processing; Some Processing; Some Processing;
   Some Completed; Some Errored; Some Completed; None].
Proof. vm_compute. reflexivity. Qed.

(** A cancel after the first result: the two records in flight are
    flipped, the completion event follows them, and the late result of a
    cancelled backend emits nothing. *)
Definition cancel_ops : list Op :=
  [OResolve "mistral" (Success "4" 1); OCancel; OResolve "phi" (Success "four" 3); OCancel].

Example cancel_scenario_events :
  match q_start three_backends with
  | inr (run0, evs0) => event_status <$> (evs0 ++ (exec cancel_ops run0).2)
  | inl _ => []
  end =
  [Some Processing; Some Processing; Some Processing;
   Some Completed; Some Cancelled; Some Cancelled; None].
Proof. vm_compute. reflexivity. Qed.

(** A client that has just submitted the query. *)
Definition submitted_state : Client.AppState :=
  (Client.handleSubmitQuery (Client.setSelectedModels three_backends
     (Client.setQuestion "What is 2+2?" (Client.initial_state "s1")))).1.

Lemma observed_query_completes_witness :
  ∃ run0 evs0, q_start three_backends = inr (run0, evs0) /\ three_backends ⊆ three_answers.*1 /\
  obj_wf (Client.responses submitted_state) /\
  let '(run', evs) := exec (answers_ops three_answers) run0 in
  count_complete (evs0 ++ evs) = 1 /\ Client.isQuerying (observe (evs0 ++ evs) submitted_state) = false /\
  ∀ m, m ∈ three_backends -> ∃ r, records run' !! m = Some r /\ terminal (rr_status r) = true /\
    obj_get (Client.responses (observe (evs0 ++ evs) submitted_state)) m = Some (to_update r).
Proof.
  destruct (q_start three_backends) as [e|[run0 evs0]] eqn:Hs; [discriminate|].
  assert (Hsub : three_backends ⊆ three_answers.*1) by decide_by_eval.
  assert (Hwf : obj_wf (Client.responses submitted_state)) by decide_by_eval.
  exists run0, evs0. split; [done|]. split; [exact Hsub|]. split; [exact Hwf|].
  exact (observed_query_completes three_backends three_answers run0 evs0 submitted_state Hs Hsub Hwf).
Defined.

Lemma observed_view_agrees_witness :
  ∃ run0 evs0, q_start three_backends = inr (run0, evs0) /\ obj_wf (Client.responses submitted_state) /\
  let '(run', evs) := exec cancel_ops run0 in
  ∀ m, obj_get (Client.responses (observe (evs0 ++ evs) submitted_state)) m =
    match records run' !! m with Some r => Some (to_update r) | None => obj_get (Client.responses submitted_state) m end.
Proof.
  destruct (q_start three_backends) as [e|[run0 evs0]] eqn:Hs; [discriminate|].
  assert (Hwf : obj_wf (Client.responses submitted_state)) by decide_by_eval.
  exists run0, evs0. split; [done|]. split; [exact Hwf|].
  exact (observed_view_agrees three_backends cancel_ops run0 evs0 submitted_state Hs Hwf).
Defined.

Lemma observed_cancel_witness :
  ∃ run0 evs0, q_start three_backends = inr (run0, evs0) /\ obj_wf (Client.responses submitted_state) /\
  let ops := [OResolve "mistral" (Success "4" 1)] in
  let ops' := [OResolve "phi" (Success "four" 3)] in
  let '(run1, evs1) := exec ops run0 in
  let '(run2, evs2) := q_cancel run1 in
  exec (ops ++ OCancel :: ops') run0 = (run2, evs1 ++ evs2) /\
  Client.isQuerying (observe (evs0 ++ evs1 ++ evs2) submitted_state) = false /\
  ∀ m, m ∈ three_backends -> ∃ r1, records run1 !! m = Some r1 /\ records run2 !! m = Some (cancel_record r1) /\
    obj_get (Client.responses (observe (evs0 ++ evs1 ++ evs2) submitted_state)) m = Some (to_update (cancel_record r1)).
Proof.
  destruct (q_start three_backends) as [e|[run0 evs0]] eqn:Hs; [discriminate|].
  assert (Hwf : obj_wf (Client.responses submitted_state)) by decide_by_eval.
  exists run0, evs0. split; [done|]. split; [exact Hwf|].
  exact (observed_cancel three_backends _ _ run0 evs0 submitted_state Hs Hwf).
Defined.

Lemma observed_running_until_complete_witness :
  ∃ run0 evs0, q_start three_backends = inr (run0, evs0) /\
  let '(run', evs) := exec cancel_ops run0 in
  Client.isQuerying (observe (evs0 ++ evs) submitted_state) = Client.isQuerying submitted_state && negb (completed run') /\
  (completed run' = true -> last (evs0 ++ evs) = Some RunComplete).
Proof.
  destruct (q_start three_backends) as [e|[run0 evs0]] eqn:Hs; [discriminate|].
  exists run0, evs0. split; [done|].
  exact (observed_running_until_complete three_backends cancel_ops run0 evs0 submitted_state Hs).
Defined.

End QueryRun.
