(* ===== verification/EventSink.v ===== *)
(** * The event sink: at-least-once delivery to the client (modelled from spec.md)

    The EventSink of spec.md (sections 2 and 9) delivers a session's
    notifications at least once, in order per record and in any order
    across records.  It is not part of src/; this file models its two
    delivery disciplines as functions and relations on event lists:

    - [deliver ns evs]: the events in their order, the [i]-th one
      delivered [1 + ns !! i] times in a row (ordered, at-least-once);
    - [per_record_delivery]: for every model, the deliveries of that
      model's [response_update]s are such a redelivery of the emitted
      ones, with the models interleaved arbitrarily.

    Theorems: every listener of the client is idempotent, so an ordered
    at-least-once delivery leaves the client in exactly the state of a
    single delivery (for any stream, and so for the events of a query
    run); and under per-record delivery the [responses] object holds the
    same record for every model (it is equal up to property order) as
    under the emitted order.  The client's merge is last-writer-wins per
    model: it needs the per-record order that the sink guarantees. *)

From S2P Require Import Prelude JsObject Client QueryRun.
From Stdlib Require Import QArith.
Local Close Scope Q_scope.

Module EventSink.
Import Client.

(** ** Delivery *)

(** Ordered, at-least-once: the [i]-th event delivered [1 + ns !! i] times. *)
Fixpoint deliver {A} (ns : list nat) (evs : list A) : list A :=
  match evs with
  | [] => []
  | e :: evs' =>
      match ns with
      | [] => e :: deliver [] evs'
      | n :: ns' => replicate (S n) e ++ deliver ns' evs'
      end
  end.

(** Per record, in order and at least once; across records, any order. *)
Definition per_record_delivery (emitted delivered : list ResponseUpdate) : Prop :=
  ∀ k, ∃ ns, filter (fun e => ru_model e = k) delivered = deliver ns (filter (fun e => ru_model e = k) emitted).

(** The payload of a [debate_update] is a JS object: its keys are distinct. *)
Definition event_wf (e : ServerEvent) : Prop :=
  match e with EvDebateUpdate d => obj_wf d | _ => True end.

(** The client state the listeners receive: its two objects are objects. *)
Definition client_wf (st : AppState) : Prop := obj_wf (responses st) /\ obj_wf (debateState st).

Definition listen (evs : list ServerEvent) (st : AppState) : AppState :=
  fold_left (fun s e => on_event e s) evs st.

(** ** Lemmas *)

Lemma deliver_map {A B} (f : A -> B) ns evs : f <$> deliver ns evs = deliver ns (f <$> evs).
Proof.
  revert ns. induction evs as [|e evs IH]; intros [|n ns]; simpl; rewrite ?IH; [done..|].
  by rewrite fmap_app, fmap_replicate, IH.
Qed.

Lemma last_deliver {A} ns (evs : list A) : last (deliver ns evs) = last evs.
Proof.
  revert ns. induction evs as [|e evs IH]; intros [|n ns]; [done|done| |].
  - simpl. by rewrite !last_cons, IH.
  - change (deliver (n :: ns) (e :: evs)) with (replicate (S n) e ++ deliver ns evs).
    rewrite last_app, IH, last_cons. destruct (last evs); [done|].
    by rewrite replicate_S_end, last_snoc.
Qed.

Lemma on_event_wf e st : event_wf e -> client_wf st -> client_wf (on_event e st).
Proof.
  intros He [Hr Hd]. destruct e; destruct st; unfold client_wf; simpl in *;
    split; try done; first [apply obj_with_wf | apply obj_spread_wf].
Qed.

(** Every listener of the client is idempotent. *)
Lemma on_event_idem e st : event_wf e -> client_wf st -> on_event e (on_event e st) = on_event e st.
Proof.
  intros He [Hr Hd]. destruct e; destruct st; simpl in *; unfold on_response_update, on_debate_update;
    simpl; rewrite ?obj_with_idem, ?obj_spread_idem; done.
Qed.

Lemma listen_app evs1 evs2 st : listen (evs1 ++ evs2) st = listen evs2 (listen evs1 st).
Proof. apply fold_left_app. Qed.

Lemma listen_replicate e n st : event_wf e -> client_wf st -> listen (replicate (S n) e) st = on_event e st.
Proof.
  intros He Hst. induction n as [|n IH]; [done|].
  rewrite replicate_S_end, listen_app, IH. simpl. by apply on_event_idem.
Qed.

Lemma listen_wf evs st : Forall event_wf evs -> client_wf st -> client_wf (listen evs st).
Proof.
  intros Hf. revert st. induction Hf as [|e evs He _ IH]; intros st Hst; simpl; [done|].
  by apply IH, on_event_wf.
Qed.


(** ** Ordered at-least-once delivery *)

(** C19: Spec 2 (EventSink: ordered, at-least-once): whatever event is
    delivered more than once, in order, the client's listeners leave it
    in exactly the state that a single delivery of each event gives:
    responses, debate state, flags and error alike. *)
Theorem listen_at_least_once ns evs st :
  Forall event_wf evs -> client_wf st -> listen (deliver ns evs) st = listen evs st.
Proof.
  intros Hf. revert ns st. induction Hf as [|e evs He _ IH]; intros [|n ns] st Hst; [done..| |].
  - simpl. apply IH. by apply on_event_wf.
  - change (deliver (n :: ns) (e :: evs)) with (replicate (S n) e ++ deliver ns evs).
    rewrite listen_app, listen_replicate by done. apply IH. by apply on_event_wf.
Qed.

Lemma observe_listen evs st : QueryRun.observe evs st = listen (QueryRun.to_server_event <$> evs) st.
Proof. unfold QueryRun.observe, listen. revert st. induction evs as [|e evs IH]; intros st; simpl; auto. Qed.

(** The events of a query run, delivered at least once in order, are
    observed as if delivered once. *)
Lemma observe_at_least_once ns evs st :
  client_wf st -> QueryRun.observe (deliver ns evs) st = QueryRun.observe evs st.
Proof.
  intros Hst. rewrite !observe_listen, deliver_map. apply (listen_at_least_once ns _ st); [|done].
  apply Forall_forall. intros e (e' & -> & _)%list_elem_of_fmap. by destruct e'.
Qed.

(** ** Per-record delivery *)

(** C21: Spec 9 (delivery at least once, ordered per record, unordered
    across records): when the [response_update]s of each model arrive in
    their order, each possibly more than once, and the models interleave
    in any way, the client's [responses] holds for every model the same
    record as under the emitted order; only the order of the properties
    may differ. *)
Theorem responses_per_record emitted delivered st :
  per_record_delivery emitted delivered -> obj_wf (responses st) ->
  responses (fold_left (fun s e => on_response_update e s) delivered st) ≡ₒ
    responses (fold_left (fun s e => on_response_update e s) emitted st).
Proof.
  intros Hd Hwf k. rewrite !responses_fold_updates, !obj_index_get by done.
  destruct (Hd k) as [ns ->]. by rewrite last_deliver.
Qed.

(** ** Witnesses *)

Definition processing (m : string) : ResponseUpdate := mkResponseUpdate m "processing" None None None.
Definition completed (m : string) : ResponseUpdate := mkResponseUpdate m "completed" (Some "42") (Some 1%Q) None.

Lemma listen_at_least_once_witness :
  let evs := [EvResponseUpdate (processing "llama2"); EvResponseUpdate (completed "llama2"); EvQueryComplete] in
  Forall event_wf evs /\ client_wf (initial_state "s1") /\
  listen (deliver [1; 0; 2] evs) (initial_state "s1") = listen evs (initial_state "s1").
Proof.
  intros evs. assert (Hf : Forall event_wf evs) by (repeat constructor).
  assert (Hst : client_wf (initial_state "s1")) by (split; apply obj_wf_nil).
  split; [exact Hf|]. split; [exact Hst|]. exact (listen_at_least_once [1; 0; 2] evs _ Hf Hst).
Defined.

Lemma responses_per_record_witness :
  let emitted := [processing "llama2"; processing "mistral"; completed "llama2"] in
  let delivered := [processing "mistral"; processing "llama2"; processing "llama2";
                    processing "mistral"; completed "llama2"] in
  per_record_delivery emitted delivered /\ obj_wf (responses (initial_state "s1")) /\
  responses (fold_left (fun s e => on_response_update e s) delivered (initial_state "s1")) ≡ₒ
    responses (fold_left (fun s e => on_response_update e s) emitted (initial_state "s1")).
Proof.
  intros emitted delivered.
  assert (Hd : per_record_delivery emitted delivered).
  { intros k. destruct (decide (k = "llama2")) as [->|H1]; [by exists [1; 0]|].
    destruct (decide (k = "mistral")) as [->|H2]; [by exists [1]|].
    exists []. unfold emitted, delivered. rewrite !filter_cons_False by (simpl; congruence). done. }
  assert (Hwf : obj_wf (responses (initial_state "s1"))) by apply obj_wf_nil.
  split; [exact Hd|]. split; [exact Hwf|]. exact (responses_per_record emitted delivered _ Hd Hwf).
Defined.



End EventSink.
