(* ===== verification/Cards.v ===== *)
(** * The response cards of a query run

    Composes the server's query run ([QueryRun]) with the client's card
    rendering ([View.response_card]): the field rules of a
    [ResponseRecord] (spec section 3: text and duration present iff
    completed, error present iff errored) hold of every record of a
    started run, so the card the client renders for a backend is
    determined by the record's status, and a completed card always shows
    the text and the two-decimal time, never the [|| 0] fallback. *)

From S2P Require Import Prelude JsObject Client View QueryRun.
From Stdlib Require Import QArith.
Local Close Scope Q_scope.

Module Cards.
Import QueryRun.

(** Every record of the run obeys the field rules. *)
Definition records_wf (run : Run) : Prop := ∀ m r, records run !! m = Some r -> record_wf r.

(** The card a record is rendered as, by its status. *)
Definition card_of_status (r : ResponseRecord) (body : View.CardBody) : Prop :=
  match rr_status r with
  | Completed => ∃ t d, rr_text r = Some t /\ rr_duration r = Some d /\
                   body = View.BodyCompleted (View.ShowFixed d) (Some t)
  | Errored => ∃ e, rr_error r = Some e /\ body = View.BodyError (js_or_opt (Some e) "Unknown error")
  | Processing => body = View.BodyProcessing
  | Pending | Cancelled => body = View.BodyNone
  end.

Lemma q_start_records_wf backends run0 evs0 : q_start backends = inr (run0, evs0) -> records_wf run0.
Proof.
  intros Hs m r. rewrite (q_start_lookup backends run0 evs0 m Hs).
  case_decide; [intros [= <-]|done]. unfold record_wf. simpl. naive_solver.
Qed.

Lemma q_op_records_wf op run : records_wf run -> records_wf (q_op op run).1.
Proof.
  intros Hwf m r. destruct op as [m' o|]; simpl.
  - unfold q_resolve. destruct (cancelled run); [apply Hwf|].
    destruct (records run !! m') as [x|] eqn:Ex; [|apply Hwf]. case_decide; [|apply Hwf].
    rewrite close_records. simpl. rewrite lookup_insert. case_decide; [|apply Hwf].
    intros [= <-]. apply (record_wf_transitions x o (Hwf _ _ Ex)).
  - unfold q_cancel. rewrite close_records. simpl. rewrite lookup_fmap.
    destruct (records run !! m) as [x|] eqn:Ex; [|done]. intros [= <-].
    apply (record_wf_transitions x (Failure "") (Hwf _ _ Ex)).
Qed.

Lemma exec_records_wf ops run : records_wf run -> records_wf (exec ops run).1.
Proof.
  revert run. induction ops as [|op ops IH]; intros run Hwf; simpl; [done|].
  pose proof (q_op_records_wf op run Hwf) as H1. destruct (q_op op run) as [run1 evs1].
  specialize (IH run1 H1). by destruct (exec ops run1).
Qed.

(** A record that obeys the field rules is rendered by its status. *)
Lemma response_card_to_update r : record_wf r -> card_of_status r (View.response_card (to_update r)).
Proof.
  destruct r as [m [] t d e]; unfold record_wf, card_of_status, View.response_card; simpl; intros (Ht & Hd & He);
    try done.
  - destruct (proj2 Ht eq_refl) as [t' ->]. destruct (proj2 Hd eq_refl) as [d' ->]. by exists t', d'.
  - destruct (proj2 He eq_refl) as [e' ->]. by exists e'.
Qed.

(** C30: Spec section 3 seen on the client's screen: for a started query
    and any sequence of results and cancels, the card the client renders
    for each backend of the run is the card of the backend's record's
    status; a completed card always has the text and the fixed time, an
    error card the server's message, and a pending or cancelled record a
    bare card. *)
Theorem observed_cards_typed backends ops run0 evs0 st :
  q_start backends = inr (run0, evs0) -> obj_wf (Client.responses st) ->
  let '(run', evs) := exec ops run0 in
  ∀ m r, records run' !! m = Some r ->
    ∃ body, View.response_card <$> obj_get (Client.responses (observe (evs0 ++ evs) st)) m = Some body /\
      card_of_status r body.
Proof.
  intros Hs Hwf. destruct (q_start_agrees backends run0 evs0 Hs) as [Hk Ha].
  pose proof (exec_agrees ops run0 evs0 Hk Ha) as [_ Ha'].
  pose proof (exec_records_wf ops run0 (q_start_records_wf _ _ _ Hs)) as Hrw.
  destruct (exec ops run0) as [run' evs]. simpl in *. intros m r Er.
  rewrite observe_get, Ha', Er by done. simpl. eexists. split; [done|].
  by apply response_card_to_update, (Hrw m).
Qed.

Lemma observed_cards_typed_witness :
  ∃ run0 evs0, q_start three_backends = inr (run0, evs0) /\ obj_wf (Client.responses submitted_state) /\
  let '(run', evs) := exec cancel_ops run0 in
  ∀ m r, records run' !! m = Some r ->
    ∃ body, View.response_card <$> obj_get (Client.responses (observe (evs0 ++ evs) submitted_state)) m = Some body /\
      card_of_status r body.
Proof.
  destruct (q_start three_backends) as [e|[run0 evs0]] eqn:Hs; [discriminate|].
  assert (Hwf : obj_wf (Client.responses submitted_state)) by decide_by_eval.
  exists run0, evs0. split; [done|]. split; [exact Hwf|].
  exact (observed_cards_typed three_backends cancel_ops run0 evs0 submitted_state Hs Hwf).
Defined.

End Cards.
