(* ===== verification/DebateRun.v ===== *)
(** * The server's debate run (modelled from spec.md)

    The debate orchestrator is not part of src/: this file models it from
    spec.md sections 4.3, 5, 6 and 8, and marks its definitions as
    modelled from the spec in the manifest.

    A debate runs [d_total] rounds over its participants.  Round [r] is
    dispatched with a prompt composed from the topic and the statements
    of rounds [1..r-1]; its records resolve as in a query run; when every
    record of the round is terminal the run is at the barrier
    ([RoundBarrier r]), and only then does [d_advance] record the round
    and dispatch round [r+1] or complete.  A cancel flips the round in
    flight and stops the debate.

    Policy for the open question of spec section 9: a participant whose
    record errored is dispatched again in every later round, and the
    transcript holds the statements of completed records only.

    Each terminal transition emits a progress event carrying the current
    round, the total and the round's records; the client receives it as a
    [debate_update] whose [round_N] property is the round's snapshot.

    Theorems: the barrier invariant over any sequence of operations, the
    agreement of the client's view with the run, completion after exactly
    the requested rounds, and a bound on the [debate_update] events by a
    potential that every update lowers. *)

From S2P Require Import Prelude JsObject JsString Client View QueryRun.
From stdpp Require Import pretty.
From Stdlib Require Import QArith.
Local Close Scope Q_scope.

Module DebateRun.
Import QueryRun.

Inductive Phase := Idle | RoundInFlight (r : nat) | RoundBarrier (r : nat) | DCompleted | DCancelled.

#[global] Instance Phase_eq_dec : EqDecision Phase.
Proof. solve_decision. Defined.

(** The prompt of an invocation: the topic and the transcript of the
    prior rounds as (round, participant, statement). *)
Record Prompt := mkPrompt {
  pr_topic : string;
  pr_transcript : list (nat * string * string);
}.

Record Debate := mkDebate {
  d_topic : string;
  d_participants : list string;
  d_total : nat;                                  (** roundCount *)
  d_phase : Phase;
  d_past : list (gmap string ResponseRecord);     (** RoundRecords of the closed rounds, in order *)
  d_current : gmap string ResponseRecord;         (** RoundRecord of the round in flight *)
  d_dispatched : list (nat * string * Prompt);    (** invocations, in dispatch order *)
}.

Inductive DEvent :=
  | DProgress (current total : nat) (round : gmap string ResponseRecord)
  | DebateComplete.

(** The configured limits of [start] (spec 4.3: a policy value, not
    hard-coded). *)
Record DebateConfig := mkConfig { max_participants : nat; max_rounds : nat }.

Inductive DStartError := DInvalidRequest | TooManyParticipants.

(** ** Prompt composition *)

(** The statements of round [i], in participant order. *)
Definition round_statements (ps : list string) (i : nat) (rec : gmap string ResponseRecord)
    : list (nat * string * string) :=
  omap (fun m => match rec !! m with
                 | Some x => match rr_status x, rr_text x with Completed, Some t => Some (i, m, t) | _, _ => None end
                 | None => None
                 end) ps.

Fixpoint transcript_from (ps : list string) (i : nat) (rounds : list (gmap string ResponseRecord))
    : list (nat * string * string) :=
  match rounds with
  | [] => []
  | rec :: rs => round_statements ps i rec ++ transcript_from ps (S i) rs
  end.

(** The full transcript of the given rounds, numbered from 1. *)
Definition transcript (ps : list string) (rounds : list (gmap string ResponseRecord)) :=
  transcript_from ps 1 rounds.

(** ** Operations *)

Definition processing_record (m : string) : ResponseRecord := mkRecord m Processing None None None.

Definition fresh_round (ps : list string) : gmap string ResponseRecord :=
  list_to_map ((fun m => (m, processing_record m)) <$> ps).

(** Dispatch the next round: one invocation per participant, all with the
    prompt composed from the closed rounds. *)
Definition dispatch_round (d : Debate) : Debate :=
  let r := S (length (d_past d)) in
  let p := mkPrompt (d_topic d) (transcript (d_participants d) (d_past d)) in
  mkDebate (d_topic d) (d_participants d) (d_total d) (RoundInFlight r) (d_past d)
    (fresh_round (d_participants d)) (d_dispatched d ++ ((fun m => (r, m, p)) <$> d_participants d)).

Definition d_start (cfg : DebateConfig) (topic : string) (backends : list string) (rounds : nat)
    : DStartError + Debate :=
  let ps := remove_dups backends in
  if bool_decide (ps = []) then inl DInvalidRequest
  else if bool_decide (max_participants cfg < length ps) then inl TooManyParticipants
  else if bool_decide (rounds = 0 \/ max_rounds cfg < rounds) then inl DInvalidRequest
  else inr (dispatch_round (mkDebate topic ps rounds Idle [] ∅ [])).

Definition with_current (cur : gmap string ResponseRecord) (ph : Phase) (d : Debate) : Debate :=
  mkDebate (d_topic d) (d_participants d) (d_total d) ph (d_past d) cur (d_dispatched d).

(** The result of participant [m] for round [r]: applied when [r] is the
    round in flight and [m]'s record is processing; the round reaches the
    barrier when its last record becomes terminal. *)
Definition d_resolve (r : nat) (m : string) (o : Outcome) (d : Debate) : Debate * list DEvent :=
  match d_phase d with
  | RoundInFlight r' =>
      if decide (r = r') then
        match d_current d !! m with
        | Some x =>
            if decide (rr_status x = Processing) then
              let cur := <[m:=resolve_record o x]> (d_current d) in
              (with_current cur (if all_terminal cur then RoundBarrier r' else RoundInFlight r') d,
               [DProgress r' (d_total d) cur])
            else (d, [])
        | None => (d, [])
        end
      else (d, [])
  | _ => (d, [])
  end.

(** Close the barrier: record the round, then dispatch the next one or
    complete after the last. *)
Definition close_round (d : Debate) : Debate :=
  mkDebate (d_topic d) (d_participants d) (d_total d) Idle (d_past d ++ [d_current d]) ∅ (d_dispatched d).

Definition d_advance (d : Debate) : Debate * list DEvent :=
  match d_phase d with
  | RoundBarrier r =>
      if decide (r = d_total d) then (with_current ∅ DCompleted (close_round d), [DebateComplete])
      else (dispatch_round (close_round d), [])
  | _ => (d, [])
  end.

(** [cancel(session)] during a round in flight or at its barrier. *)
Definition d_cancel (d : Debate) : Debate * list DEvent :=
  match d_phase d with
  | RoundInFlight r | RoundBarrier r =>
      let cur := cancel_record <$> d_current d in
      (with_current cur DCancelled d, [DProgress r (d_total d) cur; DebateComplete])
  | _ => (d, [])
  end.

Inductive DOp := DResolve (r : nat) (m : string) (o : Outcome) | DAdvance | DCancel.

Definition d_op (op : DOp) (d : Debate) : Debate * list DEvent :=
  match op with
  | DResolve r m o => d_resolve r m o d
  | DAdvance => d_advance d
  | DCancel => d_cancel d
  end.

Definition is_debate_complete (e : DEvent) : bool :=
  match e with DebateComplete => true | _ => false end.

Fixpoint d_exec (ops : list DOp) (d : Debate) : Debate * list DEvent :=
  match ops with
  | [] => (d, [])
  | op :: ops' =>
      let '(d1, evs1) := d_op op d in
      let '(d2, evs2) := d_exec ops' d1 in
      (d2, evs1 ++ evs2)
  end.

(** The operations of a debate in which every participant answers every
    round, then the barrier closes. *)
Definition answer_round (ps : list string) (r : nat) (answer : nat -> string -> Outcome) : list DOp :=
  ((fun m => DResolve r m (answer r m)) <$> ps) ++ [DAdvance].

Definition answer_all (ps : list string) (total : nat) (answer : nat -> string -> Outcome) : list DOp :=
  mbind (fun r => answer_round ps r answer) (seq 1 total).

(** ** What the client receives (spec section 6) *)

Definition round_entry (x : ResponseRecord) : Client.RoundEntry := Client.mkRoundEntry (rr_text x) (rr_duration x).

(** [round_N: {model: {content, time}}]: the terminal records of the
    round, in participant order. *)
Definition round_snapshot (ps : list string) (rec : gmap string ResponseRecord) : obj Client.RoundEntry :=
  omap (fun m => match rec !! m with
                 | Some x => if terminal (rr_status x) then Some (m, round_entry x) else None
                 | None => None
                 end) ps.

Definition round_key (n : nat) : string := "round_" +:+ pretty n.

(** [debate_update {current_round, total_rounds, round_N, participants}]. *)
Definition progress_payload (ps : list string) (r total : nat) (rec : gmap string ResponseRecord)
    : obj Client.DebateValue :=
  [("current_round", Client.DNum (inject_Z (Z.of_nat r)));
   ("total_rounds", Client.DNum (inject_Z (Z.of_nat total)));
   (round_key r, Client.DRound (round_snapshot ps rec));
   ("participants", Client.DList ps)].

Definition to_debate_event (ps : list string) (e : DEvent) : Client.ServerEvent :=
  match e with
  | DProgress r total rec => Client.EvDebateUpdate (progress_payload ps r total rec)
  | DebateComplete => Client.EvDebateComplete
  end.

(** The client's listeners applied to a debate's events in delivery order. *)
Definition observe_debate (ps : list string) (evs : list DEvent) (st : Client.AppState) : Client.AppState :=
  fold_left (fun s e => Client.on_event (to_debate_event ps e) s) evs st.

(** ** The barrier *)

(** The invocations of rounds [1..n] as the barrier rule allows them:
    round [i] with the prompt composed from rounds [1..i-1]. *)
Fixpoint dispatch_log (t : string) (ps : list string) (past : list (gmap string ResponseRecord)) (n : nat)
    : list (nat * string * Prompt) :=
  match n with
  | 0 => []
  | S n' => dispatch_log t ps past n' ++ ((fun m => (n, m, mkPrompt t (transcript ps (take n' past)))) <$> ps)
  end.

Definition rounds_dispatched (d : Debate) : nat :=
  match d_phase d with DCompleted => length (d_past d) | _ => S (length (d_past d)) end.

(** Closed rounds are fully terminal, the round in flight is the one after
    them, the barrier is reached only with every record terminal, and the
    invocations are exactly those of [dispatch_log]. *)
Definition barrier_inv (d : Debate) : Prop :=
  Forall (fun rec => all_terminal rec = true) (d_past d) /\
  (∀ r, d_phase d = RoundInFlight r \/ d_phase d = RoundBarrier r -> r = S (length (d_past d))) /\
  (∀ r, d_phase d = RoundBarrier r -> all_terminal (d_current d) = true) /\
  d_phase d ≠ Idle /\
  d_dispatched d = dispatch_log (d_topic d) (d_participants d) (d_past d) (rounds_dispatched d) /\
  1 <= rounds_dispatched d.

Lemma dispatch_log_snoc t ps past x n :
  n ≤ S (length past) -> dispatch_log t ps (past ++ [x]) n = dispatch_log t ps past n.
Proof.
  induction n as [|n IH]; intros Hn; simpl; [done|].
  rewrite IH by lia. by rewrite take_app_le by lia.
Qed.

Lemma dispatch_round_barrier_inv d :
  Forall (fun rec => all_terminal rec = true) (d_past d) ->
  d_dispatched d = dispatch_log (d_topic d) (d_participants d) (d_past d) (length (d_past d)) ->
  barrier_inv (dispatch_round d).
Proof.
  intros Hp Hd. unfold dispatch_round, barrier_inv, rounds_dispatched; simpl.
  split; [done|]. split; [intros r [[= ->]|?]; done|]. split; [by intros r ?|]. split; [done|].
  split; [|lia]. rewrite Hd. by rewrite take_ge by lia.
Qed.

Lemma d_resolve_barrier_inv r m o d : barrier_inv d -> barrier_inv (d_resolve r m o d).1.
Proof.
  unfold d_resolve. intros Hinv. pose proof Hinv as (Hp & Hr & Hb & Hi & Hd & H1).
  destruct (d_phase d) as [|r'|r'| |] eqn:Ep; try done.
  case_decide; [|done]. destruct (d_current d !! m) as [x|]; [|done]. case_decide; [|done].
  unfold barrier_inv, with_current, rounds_dispatched in *; simpl. rewrite Ep in Hd.
  destruct (all_terminal (<[m:=resolve_record o x]> (d_current d))) eqn:Et; simpl.
  - split_and!; [done| |intros r0 _; done|done|done|lia].
    intros r0 [H2|H2]; try discriminate; injection H2 as <-; apply Hr; by left.
  - split_and!; [done| |intros r0 H2; discriminate|done|done|lia].
    intros r0 [H2|H2]; try discriminate; injection H2 as <-; apply Hr; by left.
Qed.

Lemma d_advance_barrier_inv d : barrier_inv d -> barrier_inv (d_advance d).1.
Proof.
  unfold d_advance. intros Hinv. pose proof Hinv as (Hp & Hr & Hb & Hi & Hd & H1).
  destruct (d_phase d) as [|r|r| |] eqn:Ep; try done.
  assert (Hall : Forall (fun rec => all_terminal rec = true) (d_past d ++ [d_current d]))
    by (apply Forall_app; split; [done|]; constructor; [by apply (Hb r)|done]).
  assert (Hlog : d_dispatched d =
            dispatch_log (d_topic d) (d_participants d) (d_past d ++ [d_current d]) (length (d_past d ++ [d_current d]))).
  { rewrite length_app, Nat.add_1_r, dispatch_log_snoc by lia. unfold rounds_dispatched in Hd. by rewrite Ep in Hd. }
  case_decide.
  - unfold barrier_inv, with_current, rounds_dispatched; simpl.
    split; [done|]. split; [by intros ? [?|?]|]. split; [done|]. split; [done|].
    split; [done|]. rewrite length_app. simpl. lia.
  - by apply dispatch_round_barrier_inv.
Qed.

Lemma d_cancel_barrier_inv d : barrier_inv d -> barrier_inv (d_cancel d).1.
Proof.
  unfold d_cancel. intros Hinv. pose proof Hinv as (Hp & Hr & Hb & Hi & Hd & H1).
  destruct (d_phase d) as [|r|r| |] eqn:Ep; try done;
    unfold barrier_inv, with_current, rounds_dispatched in *; simpl; rewrite Ep in Hd;
    (split; [done|]); (split; [by intros ? [?|?]|]); split_and!; try done; lia.
Qed.

Lemma d_exec_barrier_inv ops d : barrier_inv d -> barrier_inv (d_exec ops d).1.
Proof.
  revert d. induction ops as [|op ops IH]; intros d Hd; simpl; [done|].
  assert (H1 : barrier_inv (d_op op d).1)
    by (destruct op; [by apply d_resolve_barrier_inv|by apply d_advance_barrier_inv|by apply d_cancel_barrier_inv]).
  destruct (d_op op d) as [d1 evs1]. specialize (IH d1 H1). by destruct (d_exec ops d1).
Qed.

Lemma d_start_barrier_inv cfg t bs n d : d_start cfg t bs n = inr d -> barrier_inv d.
Proof.
  unfold d_start. repeat case_bool_decide; try done. intros [= <-].
  by apply dispatch_round_barrier_inv.
Qed.

(** ** The progress events agree with the rounds *)

(** The round record carried by the last progress event about round [n]. *)
Definition last_progress (n : nat) (evs : list DEvent) : option (gmap string ResponseRecord) :=
  last (omap (fun e => match e with
                       | DProgress r _ rec => if decide (r = n) then Some rec else None
                       | DebateComplete => None
                       end) evs).

Definition count_debate_complete (evs : list DEvent) : nat :=
  length (filter (fun e => is_debate_complete e = true) evs).

(** The round [r] is in flight or at its barrier, its record holds one
    record per participant, each processing or terminal, and a round in
    flight has a record in flight. *)
Definition round_inv (d : Debate) (r : nat) : Prop :=
  (d_phase d = RoundInFlight r \/ d_phase d = RoundBarrier r) /\
  (∀ m, is_Some (d_current d !! m) <-> m ∈ d_participants d) /\
  (∀ m x, d_current d !! m = Some x -> rr_status x = Processing \/ terminal (rr_status x) = true) /\
  (d_phase d = RoundInFlight r -> all_terminal (d_current d) = false) /\
  (d_phase d = RoundBarrier r -> all_terminal (d_current d) = true).

Definition answered_in (d : Debate) (m : string) : Prop :=
  ∃ x, d_current d !! m = Some x /\ terminal (rr_status x) = true.

(** The [debate_update] events among what the client receives. *)
Definition is_debate_update (e : Client.ServerEvent) : bool :=
  match e with Client.EvDebateUpdate _ => true | _ => false end.

Definition count_updates (ps : list string) (evs : list DEvent) : nat :=
  length (filter (fun e => is_debate_update (to_debate_event ps e) = true) evs).

(** The records in flight of a round. *)
Definition in_flight (cur : gmap string ResponseRecord) : nat :=
  size (filter (fun kv : string * ResponseRecord => rr_status kv.2 = Processing) cur).

(** What a debate can still emit: one progress event per record in flight
    and per record of the rounds not yet dispatched, and one for a cancel. *)
Definition potential (d : Debate) : nat :=
  match d_phase d with
  | RoundInFlight r | RoundBarrier r => in_flight (d_current d) + length (d_participants d) * (d_total d - r) + 1
  | _ => 0
  end.

(** The round in flight is one of the debate's rounds. *)
Definition phase_bound (d : Debate) : Prop :=
  ∀ r, d_phase d = RoundInFlight r \/ d_phase d = RoundBarrier r -> 1 <= r <= d_total d.

(** The round of the last progress event. *)
Definition last_round (evs : list DEvent) : option nat :=
  last (omap (fun e => match e with DProgress r _ _ => Some r | DebateComplete => None end) evs).

(** The RoundRecord of round [n] (closed or in flight). *)
Definition round_rec (d : Debate) (n : nat) : option (gmap string ResponseRecord) :=
  (d_past d ++ [d_current d]) !! (n - 1).

(** Every dispatched round's record is the one carried by its last progress
    event, or still fresh when no event was emitted for it; no event is
    about a round not yet dispatched. *)
Definition d_agrees (evs : list DEvent) (d : Debate) : Prop :=
  (∀ n, 1 <= n <= rounds_dispatched d ->
     round_rec d n = Some (default (fresh_round (d_participants d)) (last_progress n evs))) /\
  (∀ n, n = 0 \/ rounds_dispatched d < n -> last_progress n evs = None).

Lemma last_progress_app n e1 e2 :
  last_progress n (e1 ++ e2) = match last_progress n e2 with Some x => Some x | None => last_progress n e1 end.
Proof. unfold last_progress. by rewrite omap_app, last_app. Qed.

Lemma last_progress_one n r t rec :
  last_progress n [DProgress r t rec] = if decide (r = n) then Some rec else None.
Proof. unfold last_progress. simpl. by case_decide. Qed.

Lemma last_progress_complete n : last_progress n [DebateComplete] = None.
Proof. done. Qed.

Lemma round_rec_past d n : 1 <= n <= length (d_past d) -> round_rec d n = d_past d !! (n - 1).
Proof. intros Hn. unfold round_rec. apply lookup_app_l. lia. Qed.

Lemma round_rec_current d : round_rec d (S (length (d_past d))) = Some (d_current d).
Proof. unfold round_rec. rewrite lookup_app_r by lia. by replace (S (length (d_past d)) - 1 - length (d_past d)) with 0 by lia. Qed.

Lemma d_start_agrees cfg t bs n d : d_start cfg t bs n = inr d -> d_agrees [] d.
Proof.
  unfold d_start. repeat case_bool_decide; try done. intros [= <-].
  unfold d_agrees, rounds_dispatched, round_rec; simpl. split; [|done].
  intros k Hk. by replace (k - 1) with 0 by lia.
Qed.

(** A new record for the round in flight, announced by a progress event. *)
Lemma agrees_set_current evs d cur ph t :
  d_agrees evs d ->
  rounds_dispatched d = S (length (d_past d)) -> rounds_dispatched (with_current cur ph d) = S (length (d_past d)) ->
  d_agrees (evs ++ [DProgress (S (length (d_past d))) t cur]) (with_current cur ph d).
Proof.
  intros [Hin Hout] Hr Hr'. unfold d_agrees. rewrite Hr'. rewrite Hr in Hin, Hout. split.
  - intros n Hn. rewrite last_progress_app, last_progress_one.
    case_decide as E; [subst n; apply (round_rec_current (with_current cur ph d))|].
    specialize (Hin n ltac:(lia)). unfold round_rec in Hin |- *. simpl.
    rewrite lookup_app_l in Hin |- * by lia. exact Hin.
  - intros n Hn. rewrite last_progress_app, last_progress_one, decide_False by lia. apply Hout. lia.
Qed.

Lemma round_rec_snoc (past : list (gmap string ResponseRecord)) cur x n :
  1 <= n <= S (length past) -> ((past ++ [cur]) ++ [x]) !! (n - 1) = (past ++ [cur]) !! (n - 1).
Proof. intros Hn. apply lookup_app_l. rewrite length_app. simpl. lia. Qed.

Lemma d_resolve_agrees r m o d evs :
  barrier_inv d -> d_agrees evs d -> d_agrees (evs ++ (d_resolve r m o d).2) (d_resolve r m o d).1.
Proof.
  intros (_ & Hr & _) Ha. unfold d_resolve.
  destruct (d_phase d) as [|r'|r'| |] eqn:Ep; simpl; rewrite ?app_nil_r; try done.
  case_decide; simpl; rewrite ?app_nil_r; [|done].
  destruct (d_current d !! m) as [x|]; simpl; rewrite ?app_nil_r; [|done].
  case_decide; simpl; rewrite ?app_nil_r; [|done].
  assert (r' = S (length (d_past d))) as -> by (apply Hr; by left).
  apply agrees_set_current; [done|by unfold rounds_dispatched; rewrite Ep|].
  unfold rounds_dispatched, with_current; simpl. by destruct (all_terminal _).
Qed.

Lemma d_cancel_agrees d evs :
  barrier_inv d -> d_agrees evs d -> d_agrees (evs ++ (d_cancel d).2) (d_cancel d).1.
Proof.
  intros (_ & Hr & _) Ha. unfold d_cancel.
  destruct (d_phase d) as [|r|r| |] eqn:Ep; simpl; rewrite ?app_nil_r; try done;
    assert (r = S (length (d_past d))) as -> by (apply Hr; first [by left|by right]);
    (assert (Hc : d_agrees (evs ++ [DProgress (S (length (d_past d))) (d_total d) (cancel_record <$> d_current d)])
                    (with_current (cancel_record <$> d_current d) DCancelled d))
       by (apply agrees_set_current; [done|by unfold rounds_dispatched; rewrite Ep|done]));
    destruct Hc as [Hin Hout]; split; intros n Hn;
    (replace (evs ++ [DProgress _ _ _; DebateComplete])
       with ((evs ++ [DProgress (S (length (d_past d))) (d_total d) (cancel_record <$> d_current d)]) ++ [DebateComplete])
       by (by rewrite <- app_assoc));
    rewrite last_progress_app; simpl; first [by apply Hin|by apply Hout].
Qed.

Lemma d_advance_agrees d evs :
  barrier_inv d -> d_agrees evs d -> d_agrees (evs ++ (d_advance d).2) (d_advance d).1.
Proof.
  intros (_ & Hr & _) [Hin Hout]. unfold d_advance.
  destruct (d_phase d) as [|r|r| |] eqn:Ep; simpl; rewrite ?app_nil_r; try (split; done).
  assert (r = S (length (d_past d))) as -> by (apply Hr; by right).
  unfold rounds_dispatched in Hin, Hout. rewrite Ep in Hin, Hout.
  case_decide; simpl.
  - unfold d_agrees, rounds_dispatched, round_rec; simpl.
    rewrite length_app. simpl. split; intros n Hn; rewrite last_progress_app, last_progress_complete.
    + rewrite round_rec_snoc by lia. apply Hin. lia.
    + apply Hout. lia.
  - rewrite app_nil_r. unfold d_agrees, rounds_dispatched, round_rec; simpl. rewrite length_app. simpl.
    split; intros n Hn.
    + destruct (decide (n = S (S (length (d_past d))))) as [->|Hne].
      * rewrite Hout by lia. rewrite lookup_app_r by (rewrite length_app; simpl; lia).
        match goal with |- context [?a - 1 - ?b] => replace (a - 1 - b) with 0 by (rewrite ?length_app; simpl; lia) end.
        done.
      * rewrite round_rec_snoc by lia. apply Hin. lia.
    + apply Hout. lia.
Qed.

Lemma d_exec_agrees ops d evs :
  barrier_inv d -> d_agrees evs d -> d_agrees (evs ++ (d_exec ops d).2) (d_exec ops d).1.
Proof.
  revert d evs. induction ops as [|op ops IH]; intros d evs Hb Ha; simpl; [by rewrite app_nil_r|].
  assert (H1 : barrier_inv (d_op op d).1 /\ d_agrees (evs ++ (d_op op d).2) (d_op op d).1).
  { destruct op; simpl.
    - split; [by apply d_resolve_barrier_inv|by apply d_resolve_agrees].
    - split; [by apply d_advance_barrier_inv|by apply d_advance_agrees].
    - split; [by apply d_cancel_barrier_inv|by apply d_cancel_agrees]. }
  destruct (d_op op d) as [d1 evs1]. destruct H1 as [Hb1 Ha1]. specialize (IH d1 (evs ++ evs1) Hb1 Ha1).
  destruct (d_exec ops d1) as [d2 evs2]. simpl in *. by rewrite app_assoc.
Qed.

(** ** What the client shows of a debate *)

Lemma round_key_inj r n : round_key r = round_key n -> r = n.
Proof. unfold round_key. simpl. intros H. simplify_eq. by apply (inj pretty). Qed.

Lemma payload_wf ps r t rec : obj_wf (progress_payload ps r t rec).
Proof.
  unfold obj_wf, obj_keys, progress_payload, round_key. simpl.
  repeat constructor; rewrite ?elem_of_cons, ?elem_of_nil; intros H; repeat destruct H as [H|H]; done.
Qed.

Lemma payload_get_round ps r t rec n :
  obj_get (progress_payload ps r t rec) (round_key n) =
    if decide (r = n) then Some (Client.DRound (round_snapshot ps rec)) else None.
Proof.
  unfold progress_payload. simpl.
  destruct (decide (r = n)) as [->|Hne]; [by rewrite decide_True|].
  rewrite decide_False; [done|]. by intros ?%round_key_inj.
Qed.

Lemma payload_get_current ps r t rec :
  obj_get (progress_payload ps r t rec) "current_round" = Some (Client.DNum (inject_Z (Z.of_nat r))).
Proof. done. Qed.

Lemma observe_debate_cons ps e evs st :
  observe_debate ps (e :: evs) st = observe_debate ps evs (Client.on_event (to_debate_event ps e) st).
Proof. done. Qed.

Lemma debateState_observe_wf ps evs st :
  obj_wf (Client.debateState st) -> obj_wf (Client.debateState (observe_debate ps evs st)).
Proof.
  revert st. induction evs as [|[r t rec|] evs IH]; intros st Hwf; simpl; [done| |]; apply IH.
  - destruct st. simpl in *. apply obj_spread_wf.
  - by destruct st.
Qed.

(** The client's [debateState] holds, for each property, the value carried
    by the last [debate_update] that had it. *)
Lemma debateState_observe_get ps evs st k :
  obj_wf (Client.debateState st) ->
  obj_get (Client.debateState (observe_debate ps evs st)) k =
    match last (omap (fun e => match e with
                               | DProgress r t rec => obj_get (progress_payload ps r t rec) k
                               | DebateComplete => None
                               end) evs) with
    | Some v => Some v
    | None => obj_get (Client.debateState st) k
    end.
Proof.
  revert st. induction evs as [|e evs IH]; intros st Hwf; [done|].
  rewrite observe_debate_cons. change (e :: evs) with ([e] ++ evs). rewrite omap_app, last_app.
  destruct e as [r t rec|]; cbn -[obj_get progress_payload observe_debate].
  - assert (Hs : Client.debateState (Client.on_debate_update (progress_payload ps r t rec) st)
                 = obj_spread (Client.debateState st) (progress_payload ps r t rec)) by (by destruct st).
    rewrite IH by (rewrite Hs; apply obj_spread_wf).
    rewrite Hs, obj_spread_get by (done || apply payload_wf).
    destruct (last (omap _ evs)); [done|]. cbn -[obj_get progress_payload].
    by destruct (obj_get (progress_payload ps r t rec) k).
  - rewrite IH by (by destruct st). destruct (last (omap _ evs)); [done|]. by destruct st.
Qed.

(** The statements the client shows for round [n] are the snapshot of
    the round's last progress event. *)
Lemma round_view_observe ps evs st n :
  obj_wf (Client.debateState st) ->
  View.round_view (observe_debate ps evs st) n =
    match last_progress n evs with
    | Some rec => round_snapshot ps rec
    | None => View.round_view st n
    end.
Proof.
  intros Hwf. unfold View.round_view. fold (round_key n). rewrite debateState_observe_get by done.
  replace (omap _ evs) with (omap (fun e => (fun rec => Client.DRound (round_snapshot ps rec)) <$>
      match e with DProgress r _ rec => if decide (r = n) then Some rec else None | DebateComplete => None end) evs).
  - unfold last_progress. rewrite last_omap_fmap. by destruct (last _).
  - induction evs as [|[r t rec|] evs IHe]; [done| |]; cbn -[obj_get progress_payload round_key].
    + rewrite payload_get_round. case_decide; simpl; by rewrite IHe.
    + exact IHe.
Qed.

Lemma round_snapshot_fresh ps : round_snapshot ps (fresh_round ps) = [].
Proof.
  apply omap_all_None. intros m. unfold fresh_round.
  rewrite (lookup_list_to_map_graph processing_record). by case_decide.
Qed.

(** A client that receives a stream agreeing with the debate shows, for
    every dispatched round, the snapshot of the server's RoundRecord. *)
Lemma observe_round_view_agrees evs d st k :
  d_agrees evs d -> obj_wf (Client.debateState st) -> (∀ n, View.round_view st n = []) ->
  1 <= k <= rounds_dispatched d ->
  ∃ rec, round_rec d k = Some rec /\
    View.round_view (observe_debate (d_participants d) evs st) k = round_snapshot (d_participants d) rec.
Proof.
  intros [Hin _] Hwf Hempty Hk. rewrite round_view_observe by done. specialize (Hin k Hk).
  destruct (last_progress k evs) as [rec|]; simpl in Hin; eexists; (split; [exact Hin|]); [done|].
  by rewrite Hempty, round_snapshot_fresh.
Qed.

Lemma current_round_observe ps evs st :
  obj_wf (Client.debateState st) ->
  obj_get (Client.debateState (observe_debate ps evs st)) "current_round" =
    match last_round evs with
    | Some r => Some (Client.DNum (inject_Z (Z.of_nat r)))
    | None => obj_get (Client.debateState st) "current_round"
    end.
Proof.
  intros Hwf. rewrite debateState_observe_get by done.
  replace (omap _ evs) with (omap (fun e => (fun r => Client.DNum (inject_Z (Z.of_nat r))) <$>
      match e with DProgress r _ _ => Some r | DebateComplete => None end) evs).
  - unfold last_round. rewrite last_omap_fmap. by destruct (last _).
  - induction evs as [|[r t rec|] evs IHe]; [done| |]; cbn -[obj_get progress_payload]; by rewrite IHe.
Qed.

(** The round of the last progress event has a progress event. *)
Lemma last_round_progress evs r : last_round evs = Some r -> is_Some (last_progress r evs).
Proof.
  unfold last_round, last_progress. intros Hl%last_Some_elem_of.
  apply list_elem_of_omap in Hl as ([r' t rec|] & Hin & Hr); simplify_eq.
  apply last_is_Some. intros Hnil. assert (Hrec : rec ∈ omap (fun e => match e with
    | DProgress r0 _ rec0 => if decide (r0 = r) then Some rec0 else None | DebateComplete => None end) evs).
  { apply list_elem_of_omap. exists (DProgress r t rec). split; [done|]. simpl. by rewrite decide_True. }
  rewrite Hnil in Hrec. by apply elem_of_nil in Hrec.
Qed.

Lemma d_op_participants op d : d_participants (d_op op d).1 = d_participants d.
Proof.
  destruct op; simpl; unfold d_resolve, d_advance, d_cancel; repeat (case_match || case_decide); done.
Qed.

Lemma d_exec_participants ops d : d_participants (d_exec ops d).1 = d_participants d.
Proof.
  revert d. induction ops as [|op ops IH]; intros d; simpl; [done|].
  pose proof (d_op_participants op d) as Hp. destruct (d_op op d) as [d1 evs1].
  specialize (IH d1). destruct (d_exec ops d1). simpl in *. congruence.
Qed.

(** The rounds a client that receives a started debate's events lists:
    [1..c] for a round [c] that the server has dispatched. *)
Lemma observe_rounds_shown evs d st :
  barrier_inv d -> d_agrees evs d -> obj_wf (Client.debateState st) ->
  obj_get (Client.debateState st) "current_round" = None ->
  ∃ c, View.rounds_shown (observe_debate (d_participants d) evs st) = seq 1 c /\ 1 <= c <= rounds_dispatched d.
Proof.
  intros Hb [_ Hout] Hwf Hcr. destruct (last_round evs) as [r|] eqn:Elr.
  - pose proof (last_round_progress _ _ Elr) as Hsome.
    assert (Hr : 1 <= r <= rounds_dispatched d).
    { destruct (decide (1 <= r <= rounds_dispatched d)); [done|]. rewrite Hout in Hsome by lia. by destruct Hsome. }
    destruct r as [|r]; [lia|]. exists (S r). split; [|lia].
    apply View.rounds_shown_current. by rewrite current_round_observe, Elr.
  - exists 1. split; [|destruct Hb as (_ & _ & _ & _ & _ & ?); lia].
    apply View.rounds_shown_default. by rewrite current_round_observe, Elr.
Qed.

(** C26: Spec 4.3 (barrier rule, progress reporting) seen by the client: for
    a started debate and any sequence of results, barrier closings and
    cancels, every round the client lists is a round the server has
    dispatched, shown with the snapshot of its RoundRecord; and every
    round listed before the last one is closed on the server with all its
    records terminal. *)
Theorem observed_debate_rounds cfg t bs n d0 ops st :
  d_start cfg t bs n = inr d0 ->
  obj_wf (Client.debateState st) -> (∀ k, View.round_view st k = []) ->
  obj_get (Client.debateState st) "current_round" = None ->
  let '(d, evs) := d_exec ops d0 in
  let st' := observe_debate (d_participants d0) evs st in
  ∀ k, k ∈ View.rounds_shown st' ->
    ∃ rec, round_rec d k = Some rec /\ View.round_view st' k = round_snapshot (d_participants d0) rec /\
      (S k ∈ View.rounds_shown st' -> d_past d !! (k - 1) = Some rec /\ all_terminal rec = true).
Proof.
  intros Hs Hwf Hempty Hcr.
  pose proof (d_start_barrier_inv _ _ _ _ _ Hs) as Hb0. pose proof (d_start_agrees _ _ _ _ _ Hs) as Ha0.
  pose proof (d_exec_barrier_inv ops d0 Hb0) as Hb. pose proof (d_exec_agrees ops d0 [] Hb0 Ha0) as Ha.
  pose proof (d_exec_participants ops d0) as Hps.
  destruct (d_exec ops d0) as [d evs]. simpl in *. rewrite <- Hps.
  destruct (observe_rounds_shown evs d st Hb Ha Hwf Hcr) as (c & Hc & Hcd).
  intros k. rewrite Hc, !elem_of_seq. intros Hk.
  destruct (observe_round_view_agrees evs d st k Ha Hwf Hempty ltac:(lia)) as (rec & Er & Hv).
  exists rec. split; [done|]. split; [done|]. intros Hk1%elem_of_seq.
  assert (Hrd : rounds_dispatched d <= S (length (d_past d))) by (unfold rounds_dispatched; destruct (d_phase d); lia).
  rewrite round_rec_past in Er by lia. split; [done|].
  destruct Hb as (Hp & _). exact (Forall_lookup_1 _ _ _ _ Hp Er).
Qed.

(** ** Completion of a debate whose participants all answer *)

Lemma d_exec_app o1 o2 d :
  d_exec (o1 ++ o2) d = let '(d1, e1) := d_exec o1 d in let '(d2, e2) := d_exec o2 d1 in (d2, e1 ++ e2).
Proof.
  revert d. induction o1 as [|op o1 IH]; intros d; simpl.
  - by destruct (d_exec o2 d).
  - destruct (d_op op d) as [d1 e1]. rewrite IH. destruct (d_exec o1 d1) as [d2 e2].
    destruct (d_exec o2 d2) as [d3 e3]. by rewrite app_assoc.
Qed.

Lemma count_debate_complete_app e1 e2 :
  count_debate_complete (e1 ++ e2) = count_debate_complete e1 + count_debate_complete e2.
Proof. unfold count_debate_complete. by rewrite filter_app, length_app. Qed.

(** A result for the round in flight either changes nothing or resolves a
    record in flight, keeping the rest of the debate. *)
Lemma d_resolve_cases r m o d :
  ((d_resolve r m o d).1 = d /\ (d_resolve r m o d).2 = [] /\
     (d_phase d = RoundInFlight r -> ∀ x, d_current d !! m = Some x -> rr_status x ≠ Processing)) \/
  ∃ x, d_phase d = RoundInFlight r /\ d_current d !! m = Some x /\ rr_status x = Processing /\
    let cur := <[m:=resolve_record o x]> (d_current d) in
    (d_resolve r m o d).1 = with_current cur (if all_terminal cur then RoundBarrier r else RoundInFlight r) d /\
    (d_resolve r m o d).2 = [DProgress r (d_total d) cur].
Proof.
  unfold d_resolve. destruct (d_phase d) as [|r'|r'| |]; try (left; naive_solver).
  case_decide as E; [subst r'|left; naive_solver].
  destruct (d_current d !! m) as [x|] eqn:Ex; [|left; naive_solver].
  case_decide; [right; by exists x|left; naive_solver].
Qed.

Lemma d_resolve_round_inv r m o d : round_inv d r -> round_inv (d_resolve r m o d).1 r.
Proof.
  intros Hinv. pose proof Hinv as (Hph & Hdom & Hst & Hfl & Hbar).
  destruct (d_resolve_cases r m o d) as [(-> & _)|(x & Ep & Ex & Hp & -> & _)]; [done|].
  unfold round_inv, with_current. simpl.
  split; [destruct (all_terminal (<[m:=resolve_record o x]> (d_current d))); [by right|by left]|].
  split; [|split; [|split]].
  - intros m'. rewrite lookup_insert. case_decide; [subst; rewrite <- Hdom, Ex; done|apply Hdom].
  - intros m' x'. rewrite lookup_insert. case_decide; [intros [= <-]; right; by apply resolve_record_terminal|apply Hst].
  - intros H. destruct (all_terminal (<[m:=resolve_record o x]> (d_current d))); congruence.
  - intros H. destruct (all_terminal (<[m:=resolve_record o x]> (d_current d))); congruence.
Qed.

Lemma d_resolve_answered r m o d :
  round_inv d r -> m ∈ d_participants d -> answered_in (d_resolve r m o d).1 m.
Proof.
  intros (Hph & Hdom & Hst & Hfl & Hbar) Hm.
  destruct (d_resolve_cases r m o d) as [(-> & _ & Hn)|(x & Ep & Ex & Hp & -> & _)].
  - apply Hdom in Hm as [x Ex]. exists x. split; [done|]. destruct Hph as [Hph|Hph].
    + destruct (Hst m x Ex) as [Hp|]; [by destruct (Hn Hph x Ex)|done].
    + exact (proj1 (all_terminal_spec _) (Hbar Hph) m x Ex).
  - exists (resolve_record o x). unfold with_current. simpl. rewrite lookup_insert, decide_True by done.
    split; [done|]. by apply resolve_record_terminal.
Qed.

Lemma d_resolve_answered_persist r m m' o d :
  round_inv d r -> answered_in d m' -> answered_in (d_resolve r m o d).1 m'.
Proof.
  intros _ [x' [Ex' Ht]].
  destruct (d_resolve_cases r m o d) as [(-> & _)|(x & _ & Ex & Hp & -> & _)]; [by exists x'|].
  exists x'. unfold with_current. simpl. rewrite lookup_insert, decide_False; [done|].
  intros ->. rewrite Ex in Ex'. injection Ex' as <-. by rewrite Hp in Ht.
Qed.

(** What a result leaves of the debate besides the round's record. *)
Lemma d_resolve_frame r m o d :
  d_past (d_resolve r m o d).1 = d_past d /\ d_total (d_resolve r m o d).1 = d_total d /\
  d_participants (d_resolve r m o d).1 = d_participants d /\ count_debate_complete (d_resolve r m o d).2 = 0.
Proof.
  destruct (d_resolve_cases r m o d) as [(-> & -> & _)|(x & _ & _ & _ & -> & ->)]; done.
Qed.

(** The results of round [r] from the participants [l], in this order. *)
Lemma resolve_round l r answer d :
  round_inv d r ->
  let '(d', evs) := d_exec ((fun m => DResolve r m (answer r m)) <$> l) d in
  round_inv d' r /\ d_past d' = d_past d /\ d_total d' = d_total d /\
  d_participants d' = d_participants d /\ count_debate_complete evs = 0 /\
  ∀ m, m ∈ d_participants d -> answered_in d m \/ m ∈ l -> answered_in d' m.
Proof.
  revert d. induction l as [|m l IH]; intros d Hinv; simpl.
  { split_and!; try done. intros m _ [?|?%elem_of_nil]; done. }
  pose proof (d_resolve_round_inv r m (answer r m) d Hinv) as Hinv1.
  pose proof (d_resolve_frame r m (answer r m) d) as (Hp1 & Ht1 & Hps1 & Hc1).
  pose proof (d_resolve_answered r m (answer r m) d Hinv) as Hnew.
  pose proof (fun m' => d_resolve_answered_persist r m m' (answer r m) d Hinv) as Hold.
  destruct (d_resolve r m (answer r m) d) as [d1 e1]. simpl in *.
  specialize (IH d1 Hinv1). destruct (d_exec _ d1) as [d2 e2].
  destruct IH as (Hinv2 & Hp2 & Ht2 & Hps2 & Hc2 & Hans).
  split_and!; try congruence; [by rewrite count_debate_complete_app, Hc1, Hc2|].
  intros m' Hm' Hor. apply Hans; [congruence|]. rewrite elem_of_cons in Hor.
  destruct Hor as [Ha|[->|Hl]]; [left; by apply Hold|left; by apply Hnew|by right].
Qed.

(** When every participant has answered, the round is at its barrier. *)
Lemma round_inv_barrier d r :
  round_inv d r -> (∀ m, m ∈ d_participants d -> answered_in d m) -> d_phase d = RoundBarrier r.
Proof.
  intros (Hph & Hdom & _ & Hfl & _) Hans.
  assert (Hall : all_terminal (d_current d) = true).
  { apply all_terminal_spec. intros m x Ex. destruct (Hans m) as (x' & Ex' & Ht); [apply Hdom; by rewrite Ex|].
    congruence. }
  destruct Hph as [Hph|Hph]; [|done]. rewrite (Hfl Hph) in Hall. discriminate.
Qed.

Lemma fresh_round_lookup ps m :
  fresh_round ps !! m = if decide (m ∈ ps) then Some (processing_record m) else None.
Proof. apply (lookup_list_to_map_graph processing_record). Qed.

(** A dispatched round is in flight with one record in flight per
    participant. *)
Lemma dispatch_round_inv d :
  d_participants d ≠ [] -> round_inv (dispatch_round d) (S (length (d_past d))).
Proof.
  intros Hne. unfold round_inv, dispatch_round. simpl. split; [by left|]. split; [|split; [|split]].
  - intros m. rewrite fresh_round_lookup. case_decide; split; try done; by intros [? ?].
  - intros m x. rewrite fresh_round_lookup. case_decide; [intros [= <-]; by left|done].
  - intros _. apply not_true_is_false. rewrite all_terminal_spec. intros Hall.
    destruct (d_participants d) as [|p ps] eqn:Hps; [done|].
    specialize (Hall p (processing_record p)). rewrite fresh_round_lookup, decide_True in Hall by left.
    by specialize (Hall eq_refl).
  - done.
Qed.

(** Rounds [r..r+k] of a debate in which every participant answers every
    round and each barrier is then closed: the debate completes after its
    last round, with exactly one completion event. *)
Lemma d_exec_single op d : d_exec [op] d = d_op op d.
Proof. simpl. destruct (d_op op d). by rewrite app_nil_r. Qed.

Lemma debate_rounds_complete k r d answer :
  round_inv d r -> barrier_inv d -> d_participants d ≠ [] -> d_total d = r + k ->
  let '(d', evs) := d_exec (seq r (S k) ≫= fun i => answer_round (d_participants d) i answer) d in
  d_phase d' = DCompleted /\ length (d_past d') = d_total d /\ count_debate_complete evs = 1 /\ barrier_inv d'.
Proof.
  revert r d. induction k as [|k IH]; intros r d Hinv Hb Hne Ht;
    change (seq r (S ?j)) with (r :: seq (S r) j); rewrite bind_cons; unfold answer_round;
    rewrite <- app_assoc, d_exec_app.
  all: pose proof (resolve_round (d_participants d) r answer d Hinv) as Hres.
  all: pose proof (d_exec_barrier_inv ((fun m => DResolve r m (answer r m)) <$> d_participants d) d Hb) as Hb1.
  all: destruct (d_exec _ d) as [d1 e1]; simpl in Hb1; cbv beta iota; rewrite d_exec_app.
  all: destruct Hres as (Hinv1 & Hp1 & Ht1 & Hps1 & Hc1 & Hans).
  all: assert (Hph1 : d_phase d1 = RoundBarrier r)
         by (apply round_inv_barrier; [done|]; intros m Hm; rewrite Hps1 in Hm; apply Hans; [done|by right]).
  all: assert (Hr : r = S (length (d_past d1))) by (destruct Hb1 as (_ & Hr & _); apply Hr; by right).
  all: pose proof (d_advance_barrier_inv d1 Hb1) as Hb2; rewrite d_exec_single; unfold d_op;
         unfold d_advance in Hb2 |- *; rewrite Hph1 in Hb2 |- *.
  - rewrite decide_True in Hb2 |- * by lia. change (seq (S r) 0) with (@nil nat). cbn [d_exec mbind list_bind]. rewrite !app_nil_r.
    split; [done|]. simpl. rewrite length_app. simpl. split; [lia|]. split; [|done].
    rewrite count_debate_complete_app, Hc1. done.
  - rewrite decide_False in Hb2 |- * by lia. cbv beta iota.
    assert (Hinv2 : round_inv (dispatch_round (close_round d1)) (S r)).
    { replace (S r) with (S (length (d_past (close_round d1)))) by (simpl; rewrite length_app; simpl; lia).
      apply dispatch_round_inv. simpl. congruence. }
    replace (d_participants d) with (d_participants (dispatch_round (close_round d1))) by (simpl; congruence).
    pose proof (IH (S r) _ Hinv2 Hb2) as IH'. destruct (d_exec _ _) as [d3 e3].
    destruct IH' as (Hd3 & Hl3 & Hc3 & Hb3); [simpl; congruence|simpl; lia|].
    split; [done|]. split; [simpl in Hl3; lia|]. split; [|done].
    rewrite !count_debate_complete_app, Hc1, Hc3. done.
Qed.

Lemma count_debate_complete_cons e evs :
  count_debate_complete (e :: evs) = (if is_debate_complete e then 1 else 0) + count_debate_complete evs.
Proof.
  unfold count_debate_complete. destruct e; [rewrite filter_cons_False|rewrite filter_cons_True]; done.
Qed.

(** The client shows a running debate until it receives [debate_complete]. *)
Lemma isDebating_observe ps evs st :
  Client.isDebating (observe_debate ps evs st) = Client.isDebating st && bool_decide (count_debate_complete evs = 0).
Proof.
  revert st. induction evs as [|e evs IH]; intros st; [by rewrite andb_true_r|].
  rewrite observe_debate_cons, count_debate_complete_cons, IH.
  destruct e; destruct st; simpl; [done|by rewrite andb_false_r].
Qed.

Lemma d_start_round_inv cfg t bs n d :
  d_start cfg t bs n = inr d -> round_inv d 1 /\ d_participants d ≠ [] /\ 1 <= n /\ d_total d = n.
Proof.
  unfold d_start. repeat case_bool_decide; try done. intros [= <-].
  split; [apply (dispatch_round_inv (mkDebate t (remove_dups bs) n Idle [] ∅ [])); done|].
  simpl. split; [done|]. split; [lia|done].
Qed.

(** C27: Spec 4.3 and 8 seen by the client: when every participant returns a
    result (of any outcome) in every round of a started debate and each
    barrier then closes, the debate completes after exactly its
    [roundCount] rounds with one [debate_complete]; the client stops
    showing a running debate and shows, for every round, the snapshot of
    the round's final record, in which every record is terminal. *)
Theorem observed_debate_completes cfg t bs n d0 answer st :
  d_start cfg t bs n = inr d0 -> obj_wf (Client.debateState st) -> (∀ k, View.round_view st k = []) ->
  let '(d, evs) := d_exec (answer_all (d_participants d0) n answer) d0 in
  let st' := observe_debate (d_participants d0) evs st in
  d_phase d = DCompleted /\ length (d_past d) = n /\ count_debate_complete evs = 1 /\
  Client.isDebating st' = false /\
  ∀ k, 1 <= k <= n -> ∃ rec, d_past d !! (k - 1) = Some rec /\ all_terminal rec = true /\
    View.round_view st' k = round_snapshot (d_participants d0) rec.
Proof.
  intros Hs Hwf Hempty. destruct (d_start_round_inv _ _ _ _ _ Hs) as (Hinv & Hne & Hn & Ht).
  pose proof (d_start_barrier_inv _ _ _ _ _ Hs) as Hb0. pose proof (d_start_agrees _ _ _ _ _ Hs) as Ha0.
  pose proof (d_exec_agrees (answer_all (d_participants d0) n answer) d0 [] Hb0 Ha0) as Ha.
  pose proof (d_exec_participants (answer_all (d_participants d0) n answer) d0) as Hps.
  pose proof (debate_rounds_complete (n - 1) 1 d0 answer Hinv Hb0 Hne ltac:(lia)) as Hrun.
  unfold answer_all in *. replace (S (n - 1)) with n in Hrun by lia.
  destruct (d_exec _ d0) as [d evs]. simpl in *. destruct Hrun as (Hd & Hl & Hc & Hb).
  rewrite Ht in Hl. split; [done|]. split; [done|]. split; [done|].
  split; [by rewrite isDebating_observe, Hc, andb_false_r|].
  intros k Hk. rewrite <- Hps.
  destruct (observe_round_view_agrees evs d st k Ha Hwf Hempty) as (rec & Er & Hv);
    [unfold rounds_dispatched; rewrite Hd; lia|].
  rewrite round_rec_past in Er by lia. exists rec. split; [done|]. split; [|done].
  destruct Hb as (Hp & _). exact (Forall_lookup_1 _ _ _ _ Hp Er).
Qed.

(** ** Starting and cancelling, client and server *)



(** ** The debate's events are bounded *)

Lemma count_updates_app ps e1 e2 : count_updates ps (e1 ++ e2) = count_updates ps e1 + count_updates ps e2.
Proof. unfold count_updates. by rewrite filter_app, length_app. Qed.

Lemma in_flight_resolve cur m x o :
  cur !! m = Some x -> rr_status x = Processing -> in_flight (<[m:=resolve_record o x]> cur) + 1 = in_flight cur.
Proof.
  intros Ex Hp. unfold in_flight.
  rewrite map_filter_insert_False
    by (simpl; intros Hq; pose proof (resolve_record_terminal o x Hp) as Ht; rewrite Hq in Ht; discriminate).
  rewrite map_filter_delete, map_size_delete_Some; [|exists x; by apply map_lookup_filter_Some_2].
  assert (size (filter (fun kv : string * ResponseRecord => rr_status kv.2 = Processing) cur) ≠ 0); [|lia].
  rewrite map_size_ne_0_lookup. exists m, x. by apply map_lookup_filter_Some_2.
Qed.

Lemma in_flight_fresh ps : NoDup ps -> in_flight (fresh_round ps) = length ps.
Proof.
  intros Hnd. unfold in_flight, fresh_round. rewrite map_filter_id.
  - rewrite map_size_list_to_map, length_fmap; [done|]. by rewrite <- list_fmap_compose, list_fmap_id.
  - intros m x. rewrite (lookup_list_to_map_graph processing_record). case_decide; [by intros [= <-]|done].
Qed.

Lemma d_op_phase_bound op d : barrier_inv d -> phase_bound d -> phase_bound (d_op op d).1.
Proof.
  intros Hb Hpb. destruct op as [r m o| |]; simpl.
  - destruct (d_resolve_cases r m o d) as [(-> & _)|(x & Ep & _ & _ & -> & _)]; [done|].
    intros r' Hr'. assert (r' = r) as ->.
    { unfold with_current in Hr'. simpl in Hr'. destruct (all_terminal _); naive_solver. }
    apply Hpb. by left.
  - unfold d_advance. destruct (d_phase d) as [|r|r| |] eqn:Ep; try done.
    case_decide; [by intros r' [? | ?]|]. intros r' Hr'.
    destruct Hb as (_ & Hr & _). specialize (Hr r (or_intror Ep)). specialize (Hpb r (or_intror Ep)).
    simpl in Hr'. rewrite length_app in Hr'. simpl in Hr'.
    destruct Hr' as [Hr'|Hr']; simplify_eq; simpl; lia.
  - unfold d_cancel. destruct (d_phase d); try done; intros r' [? | ?]; simplify_eq.
Qed.

(** Every operation that emits a [debate_update] lowers the potential by
    at least as much. *)
Lemma d_op_potential ps op d :
  barrier_inv d -> phase_bound d -> NoDup (d_participants d) ->
  count_updates ps (d_op op d).2 + potential (d_op op d).1 <= potential d.
Proof.
  intros Hb Hpb Hnd. destruct op as [r m o| |]; cbn [d_op].
  - destruct (d_resolve_cases r m o d) as [(-> & -> & _)|(x & Ep & Ex & Hp & -> & ->)]; [done|].
    pose proof (in_flight_resolve (d_current d) m x o Ex Hp).
    unfold potential, with_current. simpl. rewrite Ep.
    destruct (all_terminal _); simpl; unfold count_updates; simpl; lia.
  - unfold d_advance. destruct (d_phase d) as [|r|r| |] eqn:Ep; try (simpl; lia).
    unfold potential. simpl. rewrite Ep. case_decide; [simpl; lia|].
    destruct Hb as (_ & Hr & _). specialize (Hr r (or_intror Ep)). specialize (Hpb r (or_intror Ep)).
    simpl. rewrite in_flight_fresh by done. rewrite length_app. simpl. unfold count_updates. simpl.
    replace (d_total d - r) with (S (d_total d - S r)) by lia. rewrite Nat.mul_succ_r.
    replace (length (d_past d) + 1) with r by lia. lia.
  - unfold d_cancel. destruct (d_phase d) eqn:Ep; try (simpl; lia); unfold potential; simpl; rewrite ?Ep;
      unfold count_updates; simpl; nia.
Qed.

Lemma d_exec_potential ps ops d :
  barrier_inv d -> phase_bound d -> NoDup (d_participants d) ->
  count_updates ps (d_exec ops d).2 + potential (d_exec ops d).1 <= potential d.
Proof.
  revert d. induction ops as [|op ops IH]; intros d Hb Hpb Hnd; simpl; [done|].
  pose proof (d_op_potential ps op d Hb Hpb Hnd) as Hpot.
  assert (Hb1 : barrier_inv (d_op op d).1)
    by (destruct op; [by apply d_resolve_barrier_inv|by apply d_advance_barrier_inv|by apply d_cancel_barrier_inv]).
  pose proof (d_op_phase_bound op d Hb Hpb) as Hpb1. pose proof (d_op_participants op d) as Hps.
  destruct (d_op op d) as [d1 e1]. simpl in *. rewrite <- Hps in Hnd.
  specialize (IH d1 Hb1 Hpb1 Hnd). destruct (d_exec ops d1) as [d2 e2]. simpl in *.
  rewrite count_updates_app. lia.
Qed.

(** C38: Spec 4.3 and 6: whatever results, barrier closings and cancels arrive,
    a debate of [n] rounds over its participants emits at most one
    [debate_update] per participant and round, plus one for a cancel: the
    client's [debate_update] listener runs a bounded number of times. *)
Theorem debate_updates_bounded cfg t bs n d0 ops :
  d_start cfg t bs n = inr d0 ->
  count_updates (d_participants d0) (d_exec ops d0).2 <= n * length (d_participants d0) + 1.
Proof.
  intros Hs. pose proof (d_start_barrier_inv _ _ _ _ _ Hs) as Hb.
  pose proof (d_exec_potential (d_participants d0) ops d0 Hb) as Hpot.
  revert Hs Hb Hpot. unfold d_start. repeat case_bool_decide; try done. intros [= <-] Hb Hpot.
  match goal with H : ?l ≠ [] |- _ => assert (Hnd : NoDup l) by apply NoDup_remove_dups end.
  specialize (Hpot ltac:(intros r [[= <-]|?]; simpl; [lia|done]) Hnd).
  unfold potential in Hpot. simpl in Hpot. rewrite in_flight_fresh in Hpot by done. simpl. nia.
Qed.

(** ** Scenarios *)

Definition cfg6 : DebateConfig := mkConfig 6 10.

Definition two_answers (r : nat) (m : string) : Outcome := Success (m +:+ " says " +:+ pretty r) 1.

Definition two_debate : option (Debate * list DEvent) :=
  match d_start cfg6 "Is P = NP?" ["llama2"; "mistral"] 3 with
  | inr d => Some (d_exec (answer_all ["llama2"; "mistral"] 3 two_answers) d)
  | inl _ => None
  end.

(** Spec section 8: a debate with two backends and three rounds produces
    exactly three RoundRecords, in order, and completes once. *)
Example two_debate_rounds :
  option_map (fun '(d, evs) => (d_phase d, length (d_past d),
                                 length (filter (fun e => is_debate_complete e = true) evs)))
    two_debate = Some (DCompleted, 3, 1).
Proof. vm_compute. reflexivity. Qed.

(** Spec section 8: the prompts dispatched for round 2 hold round 1's two
    statements verbatim. *)
Example two_debate_round2_prompts :
  option_map (fun '(d, _) => (fun '(r, m, p) => (m, pr_transcript p)) <$>
                               filter (fun x => x.1.1 = 2) (d_dispatched d)) two_debate =
  Some [("llama2", [(1, "llama2", "llama2 says 1"); (1, "mistral", "mistral says 1")]);
        ("mistral", [(1, "llama2", "llama2 says 1"); (1, "mistral", "mistral says 1")])].
Proof. vm_compute. reflexivity. Qed.

(** A client that has just started the debate of [two_debate]. *)
Definition debate_started : Client.AppState :=
  (Client.handleStartDebate (Client.setDebateRounds 3 (Client.setSelectedModels ["llama2"; "mistral"]
     (Client.setDebateTopic "Is P = NP?" (Client.initial_state "s1"))))).1.

Lemma observed_debate_rounds_witness :
  ∃ d0, d_start cfg6 "Is P = NP?" ["llama2"; "mistral"] 3 = inr d0 /\
  obj_wf (Client.debateState debate_started) /\ (∀ k, View.round_view debate_started k = []) /\
  obj_get (Client.debateState debate_started) "current_round" = None /\
  let '(d, evs) := d_exec (answer_all ["llama2"; "mistral"] 3 two_answers) d0 in
  let st' := observe_debate (d_participants d0) evs debate_started in
  ∀ k, k ∈ View.rounds_shown st' ->
    ∃ rec, round_rec d k = Some rec /\ View.round_view st' k = round_snapshot (d_participants d0) rec /\
      (S k ∈ View.rounds_shown st' -> d_past d !! (k - 1) = Some rec /\ all_terminal rec = true).
Proof.
  destruct (d_start cfg6 "Is P = NP?" ["llama2"; "mistral"] 3) as [e|d0] eqn:Hs; [discriminate|].
  assert (Hwf : obj_wf (Client.debateState debate_started)) by decide_by_eval.
  assert (Hempty : ∀ k, View.round_view debate_started k = []) by (intros k; reflexivity).
  assert (Hcr : obj_get (Client.debateState debate_started) "current_round" = None) by reflexivity.
  exists d0. split; [done|]. split; [exact Hwf|]. split; [exact Hempty|]. split; [exact Hcr|].
  exact (observed_debate_rounds cfg6 _ _ _ d0 _ debate_started Hs Hwf Hempty Hcr).
Defined.

Lemma observed_debate_completes_witness :
  ∃ d0, d_start cfg6 "Is P = NP?" ["llama2"; "mistral"] 3 = inr d0 /\
  obj_wf (Client.debateState debate_started) /\ (∀ k, View.round_view debate_started k = []) /\
  let '(d, evs) := d_exec (answer_all (d_participants d0) 3 two_answers) d0 in
  let st' := observe_debate (d_participants d0) evs debate_started in
  d_phase d = DCompleted /\ length (d_past d) = 3 /\ count_debate_complete evs = 1 /\
  Client.isDebating st' = false /\
  ∀ k, 1 <= k <= 3 -> ∃ rec, d_past d !! (k - 1) = Some rec /\ all_terminal rec = true /\
    View.round_view st' k = round_snapshot (d_participants d0) rec.
Proof.
  destruct (d_start cfg6 "Is P = NP?" ["llama2"; "mistral"] 3) as [e|d0] eqn:Hs; [discriminate|].
  assert (Hwf : obj_wf (Client.debateState debate_started)) by decide_by_eval.
  assert (Hempty : ∀ k, View.round_view debate_started k = []) by (intros k; reflexivity).
  exists d0. split; [done|]. split; [exact Hwf|]. split; [exact Hempty|].
  exact (observed_debate_completes cfg6 _ _ _ d0 two_answers debate_started Hs Hwf Hempty).
Defined.



Lemma debate_updates_bounded_witness :
  ∃ d0, d_start cfg6 "Is P = NP?" ["llama2"; "mistral"] 3 = inr d0 /\
  count_updates (d_participants d0) (d_exec (answer_all ["llama2"; "mistral"] 3 two_answers) d0).2
    <= 3 * length (d_participants d0) + 1.
Proof.
  destruct (d_start cfg6 "Is P = NP?" ["llama2"; "mistral"] 3) as [e|d0] eqn:Hs; [discriminate|].
  exists d0. split; [done|]. exact (debate_updates_bounded cfg6 _ _ _ d0 _ Hs).
Defined.

End DebateRun.
