(* ===== verification/Page.v ===== *)
(** * The page rendered by [App]

    The return value of [App] ([App.js], lines 509-566) as a value
    computed from the state: the navigation with its active button, the
    error banner, the loading message, the interface of the current mode
    and the footer.  The Q&A interface ([renderQAInterface]) shows the
    question type, the model panel of [ModelPanel], the submit and cancel
    controls of [ClientLoop] and the response cards of [View]; the debate
    interface ([renderDebateInterface]) the rounds select, the panel, its
    controls and the live debate display (participants, progress bar and
    the statements of each round, in [Object.entries] order); the
    dashboard ([renderDashboard]) the two model counts, its other metrics
    being constant text.

    A render can throw: [None] is a [TypeError] during render, from the
    panel's [reduce] (see [Catalog]) or from [.map] on a [participants]
    value that is not an array.

    Theorem: the page throws exactly when the event loop's [render_throws]
    says so or the debate display maps a non-array [participants]; the
    server's [debate_update] payloads always carry an array, so for the
    debate states they build the two agree. *)

From S2P Require Import Prelude JsObject JsKeys JsString Catalog Client ClientLoop View ModelPanel DebateRun.
From Stdlib Require Import QArith.

Module Page.
Import Catalog Client ClientLoop View ModelPanel.

(** ** The live debate display *)

(** [(debateState.participants || selectedModels).map(...)]: [None] when
    the value is truthy but not an array ([.map] is not a function); a
    falsy value ([0]) falls back on the selection.  [DOther] stands for a
    truthy value that is neither a number nor an array. *)
Definition participants_shown (s : AppState) : option (list string) :=
  match obj_get (debateState s) "participants" with
  | None => Some (selectedModels s)
  | Some (DList l) => Some l
  | Some (DNum n) => if Qeq_bool n 0 then Some (selectedModels s) else None
  | Some (DRound _) | Some DOther => None
  end.

(** One [debate-response]: the model, its content, and its time when
    [response.time] is truthy (a time of [0] is not shown). *)
Record Statement := mkStatement {
  stmt_model : string;
  stmt_content : option string;
  stmt_time : option Q;
}.

Definition statement_of (entry : string * RoundEntry) : Statement :=
  mkStatement entry.1 (re_content entry.2)
    (match re_time entry.2 with Some t => if Qeq_bool t 0 then None else Some t | None => None end).

(** [Object.entries(debateState[`round_${n}`]).map(...)]. *)
Definition round_statements (s : AppState) (n : nat) : list Statement :=
  map statement_of (obj_entries (round_view s n)).

Record DebateDisplay := mkDebateDisplay {
  dd_participants : list string;
  dd_progress_width : option Q;
  dd_caption : option Q * option Q;   (** [Round {current_round || 1} of {total_rounds || debateRounds}] *)
  dd_rounds : list (nat * list Statement);
}.

(** [Object.keys(debateState).length > 0 && (<div className="debate-display">...)]. *)
Definition debate_display (s : AppState) : option (option DebateDisplay) :=
  if debate_display_shown s then
    ps ← participants_shown s;
    Some (Some (mkDebateDisplay ps (progress_width s) (current_round s, total_rounds s)
                  (map (fun n => (n, round_statements s n)) (rounds_shown s))))
  else Some None.

(** ** The three interfaces *)

Record QAView := mkQAView {
  qa_question : string;                        (** the textarea's value *)
  qa_general_checked : bool;
  qa_coding_checked : bool;
  qa_panel : list CategorySection;
  qa_summary : string;
  qa_submit_enabled : bool;
  qa_processing : bool;                        (** the button reads [Processing...] *)
  qa_cancel_shown : bool;
  qa_cards : option (list (string * CardBody)); (** [None]: no responses block *)
}.

Definition qa_view (s : AppState) : option QAView :=
  secs ← model_sections s;
  Some (mkQAView (question s) (bool_decide (questionType s = "general")) (bool_decide (questionType s = "coding"))
          secs (selection_summary s) (submit_enabled s) (isQuerying s) (cancel_query_shown s)
          (if decide (obj_keys (responses s) = []) then None else Some (response_cards s))).

Record DebateView := mkDebateView {
  dv_topic : string;                           (** the textarea's value *)
  dv_rounds : nat;                             (** the select's value *)
  dv_panel : list CategorySection;
  dv_summary : string;
  dv_start_enabled : bool;
  dv_in_progress : bool;                       (** the button reads [Debate in Progress...] *)
  dv_cancel_shown : bool;
  dv_display : option DebateDisplay;
}.

Definition debate_view (s : AppState) : option DebateView :=
  secs ← model_sections s;
  d ← debate_display s;
  Some (mkDebateView (debateTopic s) (debateRounds s) secs (selection_summary s) (start_enabled s) (isDebating s)
          (cancel_debate_shown s) d).

(** The state-dependent metrics of [renderDashboard]. *)
Record Dashboard := mkDashboard {
  db_total : nat;     (** [models.length] *)
  db_active : nat;    (** [models.filter(m => m.active !== false).length] *)
}.

Definition dashboard (s : AppState) : Dashboard := mkDashboard (length (models s)) (active_count (models s)).

(** ** The page *)

Inductive MainView :=
  | MainQA (v : QAView)
  | MainDebate (v : DebateView)
  | MainDashboard (d : Dashboard)
  | MainEmpty.

Record PageView := mkPage {
  pg_nav : list (string * bool);   (** each mode and whether its button is [active] *)
  pg_error : option string;        (** the banner, when [error] is truthy *)
  pg_loading : bool;
  pg_main : MainView;
  pg_footer : string * nat * nat;  (** [sessionId.substring(0, 8)], the two counts *)
}.

Definition render_main (s : AppState) : option MainView :=
  if in_mode "qa" s then MainQA <$> qa_view s
  else if in_mode "debate" s then MainDebate <$> debate_view s
  else if in_mode "dashboard" s then Some (MainDashboard (dashboard s))
  else Some MainEmpty.

Definition render_page (s : AppState) : option PageView :=
  main ← render_main s;
  Some (mkPage (map (fun m => (m, in_mode m s)) modes)
          (if truthy (error s) then Some (error s) else None) (loading s) main
          (String.substring 0 8 (sessionId s), length (models s), length (selectedModels s))).

(** ** When the render throws *)

(** [participants], when present, is an array: the shape of spec.md
    section 6. *)
Definition participants_ok (s : AppState) : Prop :=
  ∀ v, obj_get (debateState s) "participants" = Some v -> ∃ l, v = DList l.

Lemma model_sections_None s : model_sections s = None <-> categorizedModels (models s) = None.
Proof. unfold model_sections. by destruct (categorizedModels (models s)). Qed.

Lemma qa_view_None s : qa_view s = None <-> model_sections s = None.
Proof. unfold qa_view. by destruct (model_sections s). Qed.

Lemma debate_display_None s :
  debate_display s = None <-> debate_display_shown s = true /\ participants_shown s = None.
Proof. unfold debate_display. destruct (debate_display_shown s), (participants_shown s); naive_solver. Qed.

Lemma debate_view_None s : debate_view s = None <-> model_sections s = None \/ debate_display s = None.
Proof. unfold debate_view. destruct (model_sections s), (debate_display s); naive_solver. Qed.

Lemma render_page_main s : render_page s = None <-> render_main s = None.
Proof. unfold render_page. by destruct (render_main s). Qed.

(** The page throws when the panel's [reduce] throws in a mode that shows
    it, or when the debate display maps a [participants] that is not an
    array. *)
Lemma render_page_None s :
  render_page s = None <->
  render_throws s = true \/
  (in_mode "debate" s = true /\ debate_display_shown s = true /\ participants_shown s = None).
Proof.
  rewrite render_page_main. unfold render_main, render_throws, selection_shown.
  assert (Hx : in_mode "qa" s = true -> in_mode "debate" s = false).
  { unfold in_mode. rewrite bool_decide_eq_true, bool_decide_eq_false. by intros ->. }
  rewrite andb_true_iff, orb_true_iff, bool_decide_eq_true, <- model_sections_None, <- debate_display_None.
  destruct (in_mode "qa" s) eqn:Eq.
  - rewrite (Hx eq_refl). pose proof (qa_view_None s) as Hq. destruct (qa_view s); simpl; naive_solver.
  - destruct (in_mode "debate" s); [|destruct (in_mode "dashboard" s); naive_solver].
    pose proof (debate_view_None s) as Hd. destruct (debate_view s); simpl; naive_solver.
Qed.

Lemma participants_ok_shown s : participants_ok s -> participants_shown s ≠ None.
Proof.
  unfold participants_ok, participants_shown. intros Hok.
  destruct (obj_get _ _) as [v|] eqn:E; [|done]. by destruct (Hok v eq_refl) as [l ->].
Qed.

(** With a [participants] array, the page throws exactly when the event
    loop says it does. *)
Lemma render_page_throws s : participants_ok s -> (render_page s = None <-> render_throws s = true).
Proof. intros Hok. rewrite render_page_None. pose proof (participants_ok_shown s Hok). naive_solver. Qed.

(** The server's [debate_update] payloads carry [participants] as an
    array, so the debate display of a state they build never throws. *)
Lemma observe_debate_participants_ok ps evs st :
  obj_wf (debateState st) -> participants_ok st -> participants_ok (DebateRun.observe_debate ps evs st).
Proof.
  intros Hwf Hok v. rewrite DebateRun.debateState_observe_get by done.
  destruct (last _) as [v'|] eqn:E; [|apply Hok].
  apply last_Some_elem_of, list_elem_of_omap in E as ([r t rec|] & _ & Hv); [|done].
  intros [= <-]. simpl in Hv. by injection Hv as <-; eexists.
Qed.

(** C34: For the states the server's debate events build (any progress
    and completion events, fed to the client's listeners), the page
    throws exactly when the event loop's [render_throws] says it does:
    the debate display never throws, its [participants] being the
    array of the server's payloads. *)
Theorem render_page_observed_debate ps evs st :
  obj_wf (debateState st) -> participants_ok st ->
  (render_page (DebateRun.observe_debate ps evs st) = None <->
   render_throws (DebateRun.observe_debate ps evs st) = true).
Proof. intros Hwf Hok. by apply render_page_throws, observe_debate_participants_ok. Qed.

(** ** Witnesses *)

Lemma render_page_observed_debate_witness :
  let evs := [DebateRun.DProgress 1 3 ∅; DebateRun.DebateComplete] in
  obj_wf (debateState DebateRun.debate_started) /\ participants_ok DebateRun.debate_started /\
  (render_page (DebateRun.observe_debate ["llama2"; "mistral"] evs DebateRun.debate_started) = None <->
   render_throws (DebateRun.observe_debate ["llama2"; "mistral"] evs DebateRun.debate_started) = true).
Proof.
  intros evs. assert (H1 : obj_wf (debateState DebateRun.debate_started)) by decide_by_eval.
  assert (H2 : participants_ok DebateRun.debate_started) by (intros v Hv; vm_compute in Hv; discriminate).
  split; [exact H1|]. split; [exact H2|]. exact (render_page_observed_debate _ evs _ H1 H2).
Defined.

End Page.
